(** * Validasi-Data-Regex: a shallow embedding of [Implementasi_Regex.py]

    The program is three classes of static methods ([RegexValidator],
    [RegexExtractor], [RegexReplacer]); every method builds one pattern and
    hands it to Python's [re] module.  The development therefore has two
    layers:

    - a model of the part of [re] the program uses: the pattern parser
      ([sre_parse]), [re.escape], the backtracking matcher, and the loops
      behind [re.match], [re.search], [re.findall] and [re.sub];
    - the methods themselves, written over that model with the pattern
      strings of the source.

    Strings are lists of [ascii]; a character is read as the code point
    U+0000..U+00FF, and the character classes ([\d], [\w], [\s], case
    folding) are the ones Python's Unicode tables give on that range. *)

From Stdlib Require Import Ascii String List Bool Arith NArith Lia.
Import ListNotations.

Local Open Scope char_scope.
Local Open Scope list_scope.

(** ** Strings and characters *)

Definition str := list ascii.

Definition lit (s : string) : str := list_ascii_of_string s.

Definition code (c : ascii) : N := N_of_ascii c.

Definition in_range (lo hi : N) (c : ascii) : bool :=
  (N.leb lo (code c) && N.leb (code c) hi)%bool.

Definition chr_range (lo hi c : ascii) : bool := in_range (code lo) (code hi) c.

(** [Py_UNICODE_ISDECIMAL] on U+0000..U+00FF: the ASCII digits only. *)
Definition uni_isdigit (c : ascii) : bool := chr_range "0" "9" c.

(** [Py_UNICODE_ISSPACE] on U+0000..U+00FF: TAB, LF, VT, FF, CR, the four
    separators U+001C..U+001F, SPACE, NEL (U+0085) and NBSP (U+00A0).  Both
    [\s] and [str.strip] use this table. *)
Definition uni_isspace (c : ascii) : bool :=
  (in_range 9 13 c || in_range 28 32 c || N.eqb (code c) 133 || N.eqb (code c) 160)%bool.

(** [Py_UNICODE_ISALNUM] on U+0000..U+00FF. *)
Definition uni_isalnum (c : ascii) : bool :=
  (chr_range "0" "9" c || chr_range "A" "Z" c || chr_range "a" "z" c
   || N.eqb (code c) 170 || in_range 178 179 c || N.eqb (code c) 181
   || in_range 185 186 c || in_range 188 190 c
   || in_range 192 214 c || in_range 216 246 c || in_range 248 255 c)%bool.

(** The word characters of [\w] and [\b]: alphanumerics and the underscore. *)
Definition uni_isword (c : ascii) : bool := (uni_isalnum c || Ascii.eqb c "_")%bool.

(** [Py_UNICODE_TOLOWER] on U+0000..U+00FF. *)
Definition uni_tolower (c : ascii) : ascii :=
  if (chr_range "A" "Z" c || in_range 192 214 c || in_range 216 222 c)%bool
  then ascii_of_N (code c + 32) else c.

Definition is_ascii_letter (c : ascii) : bool :=
  (chr_range "a" "z" c || chr_range "A" "Z" c)%bool.

Definition is_ascii_digit (c : ascii) : bool := chr_range "0" "9" c.

(** The longest prefix whose characters pass [test], and what follows it. *)
Fixpoint take_while (test : ascii -> bool) (s : str) : str :=
  match s with
  | c :: s' => if test c then c :: take_while test s' else []
  | [] => []
  end.

Fixpoint drop_while (test : ascii -> bool) (s : str) : str :=
  match s with
  | c :: s' => if test c then drop_while test s' else s
  | [] => []
  end.

(** ** Patterns *)

Inductive category := CatDigit | CatSpace | CatWord.

Inductive setitem :=
| SChar (c : ascii)
| SRange (lo hi : ascii)
| SCat (k : category).

(** The parsed form of a pattern.  [Rep lo None r] is a greedy repeat with no
    upper bound; [Group (Some n) r] is capturing group [n], [Group None r] a
    non-capturing one; [LitI] is a literal under [re.IGNORECASE]. *)
Inductive regex :=
| Eps
| Lit (c : ascii)
| LitI (c : ascii)
| Any
| InSet (neg : bool) (items : list setitem)
| Bol
| Eol
| Eos
| Wordb
| Seq (r1 r2 : regex)
| Alt (r1 r2 : regex)
| Rep (lo : nat) (hi : option nat) (r : regex)
| Group (gid : option nat) (r : regex).

(** ** The pattern parser ([sre_parse])

    [None] stands for [re.error], and also for syntax that this model leaves
    out (lazy and possessive repeats, look-around, back-references, named
    groups, hexadecimal and octal escapes); no pattern of the program uses
    any of it. *)

Definition opt_bind {A B} (o : option A) (f : A -> option B) : option B :=
  match o with Some a => f a | None => None end.

Notation "x <- e ;; k" := (opt_bind e (fun x => k))
  (at level 61, e at next level, right associativity).

Fixpoint span_digits (s : str) : str * str :=
  match s with
  | c :: s' =>
      if is_ascii_digit c then let (ds, r) := span_digits s' in (c :: ds, r)
      else ([], s)
  | [] => ([], [])
  end.

Definition digit_val (c : ascii) : nat := nat_of_ascii c - 48.

Definition int_of_digits (ds : str) : nat :=
  fold_left (fun a d => 10 * a + digit_val d) ds 0.

Inductive quant :=
| Quant (lo : nat) (hi : option nat) (rest : str)
| NoQuant
| BadQuant.

(** The text after an opening brace: [{m}], [{m,}], [{,n}], [{m,n}] are
    repeats; anything else leaves the brace a literal. *)
Definition parse_brace (s : str) : quant :=
  match s with
  | "}" :: _ => NoQuant
  | _ =>
      let (lo, s1) := span_digits s in
      let '(hi, s2) :=
        match s1 with
        | "," :: s1' => span_digits s1'
        | _ => (lo, s1)
        end in
      match s2 with
      | "}" :: rest =>
          let mn := match lo with [] => 0 | _ => int_of_digits lo end in
          match hi with
          | [] => Quant mn None rest
          | _ => let mx := int_of_digits hi in
                 if Nat.ltb mx mn then BadQuant else Quant mn (Some mx) rest
          end
      | _ => NoQuant
      end
  end.

Definition quant_at (s : str) : quant :=
  match s with
  | c :: rest =>
      if Ascii.eqb c "*" then Quant 0 None rest
      else if Ascii.eqb c "+" then Quant 1 None rest
      else if Ascii.eqb c "?" then Quant 0 (Some 1) rest
      else if Ascii.eqb c "{" then parse_brace rest
      else NoQuant
  | [] => NoQuant
  end.

(** The control characters of [ESCAPES]. *)
Definition escape_char (c : ascii) : option ascii :=
  match c with
  | "a" => Some (ascii_of_nat 7)
  | "f" => Some (ascii_of_nat 12)
  | "n" => Some (ascii_of_nat 10)
  | "r" => Some (ascii_of_nat 13)
  | "t" => Some (ascii_of_nat 9)
  | "v" => Some (ascii_of_nat 11)
  | _ => None
  end.

Definition escape_category (c : ascii) : option (bool * category) :=
  match c with
  | "d" => Some (false, CatDigit)
  | "s" => Some (false, CatSpace)
  | "w" => Some (false, CatWord)
  | "D" => Some (true, CatDigit)
  | "S" => Some (true, CatSpace)
  | "W" => Some (true, CatWord)
  | _ => None
  end.

(** [_class_escape]: a backslash inside a character set. *)
Definition class_escape (c : ascii) : option setitem :=
  match escape_char c with
  | Some x => Some (SChar x)
  | None =>
      if Ascii.eqb c "b" then Some (SChar (ascii_of_nat 8)) else
      match escape_category c with
      | Some (false, k) => Some (SCat k)
      | Some (true, _) => None
      | None =>
          if (is_ascii_letter c || is_ascii_digit c)%bool then None
          else Some (SChar c)
      end
  end.

(** One member of a set, with what follows it. *)
Definition set_member (s : str) : option (setitem * str) :=
  match s with
  | "\" :: c :: s' => i <- class_escape c ;; Some (i, s')
  | "\" :: [] => None
  | c :: s' => Some (SChar c, s')
  | [] => None
  end.

(** The members of a set up to the closing bracket; [acc] holds the members
    read so far, so a bracket met while [acc] is empty is a literal. *)
Fixpoint parse_set (fuel : nat) (s : str) (acc : list setitem)
  : option (list setitem * str) :=
  match fuel with
  | 0 => None
  | S f =>
      match s, acc with
      | [], _ => None
      | "]" :: rest, _ :: _ => Some (acc, rest)
      | _, _ =>
          match set_member s with
          | None => None
          | Some (i1, s1) =>
              match s1 with
              | "-" :: "]" :: rest => Some (acc ++ [i1; SChar "-"], rest)
              | "-" :: [] => None
              | "-" :: s2 =>
                  match set_member s2 with
                  | Some (i2, s3) =>
                      match i1, i2 with
                      | SChar lo, SChar hi =>
                          if N.ltb (code hi) (code lo) then None
                          else parse_set f s3 (acc ++ [SRange lo hi])
                      | _, _ => None
                      end
                  | None => None
                  end
              | _ => parse_set f s1 (acc ++ [i1])
              end
          end
      end
  end.

Definition parse_bracket (s : str) : option (regex * str) :=
  let '(neg, s0) := match s with "^" :: s' => (true, s') | _ => (false, s) end in
  match parse_set (S (length s0)) s0 [] with
  | Some (items, rest) => Some (InSet neg items, rest)
  | None => None
  end.

(** [_escape]: a backslash outside a set, given the character after it.  The
    boolean tells whether the item may be repeated (positions may not). *)
Definition parse_escape (c : ascii) : option (regex * bool) :=
  match c with
  | "A" => Some (Bol, false)
  | "Z" => Some (Eos, false)
  | "b" => Some (Wordb, false)
  | _ =>
      match escape_category c with
      | Some (neg, k) => Some (InSet neg [SCat k], true)
      | None =>
          match escape_char c with
          | Some x => Some (Lit x, true)
          | None =>
              if (is_ascii_letter c || is_ascii_digit c)%bool then None
              else Some (Lit c, true)
          end
      end
  end.

(** An item that is not a group: the item, whether it may be repeated, and
    the text after it. *)
Definition parse_simple (c : ascii) (s : str) : option (regex * bool * str) :=
  if Ascii.eqb c "\" then
    match s with
    | e :: s' => x <- parse_escape e ;; Some (fst x, snd x, s')
    | [] => None
    end
  else if Ascii.eqb c "[" then x <- parse_bracket s ;; Some (fst x, true, snd x)
  else if Ascii.eqb c "." then Some (Any, true, s)
  else if Ascii.eqb c "^" then Some (Bol, false, s)
  else if Ascii.eqb c "$" then Some (Eol, false, s)
  else if (Ascii.eqb c "*" || Ascii.eqb c "+" || Ascii.eqb c "?")%bool then None
  else if Ascii.eqb c "{" then
    match parse_brace s with
    | NoQuant => Some (Lit "{", true, s)
    | _ => None
    end
  else Some (Lit c, true, s).

(** The repeat after an item, if there is one.  A repeat of a position, and a
    repeat of a repeat, are errors. *)
Definition with_quant (a : regex) (repeatable : bool) (s : str)
  : option (regex * str) :=
  match quant_at s with
  | NoQuant => Some (a, s)
  | BadQuant => None
  | Quant lo hi rest =>
      if repeatable then
        match quant_at rest with
        | NoQuant => Some (Rep lo hi a, rest)
        | _ => None
        end
      else None
  end.

(** [_parse_sub] and [_parse]: alternatives, and the items of one
    alternative.  [g] is the number the next capturing group gets. *)
Fixpoint parse_sub (fuel : nat) (s : str) (g : nat) {struct fuel}
  : option (regex * str * nat) :=
  match fuel with
  | 0 => None
  | S f =>
      match parse_items f s g with
      | Some (r1, "|" :: s1, g1) =>
          match parse_sub f s1 g1 with
          | Some (r2, s2, g2) => Some (Alt r1 r2, s2, g2)
          | None => None
          end
      | other => other
      end
  end
with parse_items (fuel : nat) (s : str) (g : nat) {struct fuel}
  : option (regex * str * nat) :=
  match fuel with
  | 0 => None
  | S f =>
      match s with
      | [] => Some (Eps, [], g)
      | c :: s' =>
          if (Ascii.eqb c "|" || Ascii.eqb c ")")%bool then Some (Eps, s, g)
          else if Ascii.eqb c "(" then
            let '(gid, body, g') :=
              match s' with
              | "?" :: ":" :: s'' => (Some None, s'', g)
              | "?" :: _ => (None, s', g)
              | _ => (Some (Some g), s', S g)
              end in
            match gid with
            | None => None
            | Some gid =>
                match parse_sub f body g' with
                | Some (r, ")" :: s1, g1) =>
                    match with_quant (Group gid r) true s1 with
                    | Some (a, s2) =>
                        match parse_items f s2 g1 with
                        | Some (r', s3, g3) => Some (Seq a r', s3, g3)
                        | None => None
                        end
                    | None => None
                    end
                | _ => None
                end
            end
          else
            match parse_simple c s' with
            | Some (a0, rp, s1) =>
                match with_quant a0 rp s1 with
                | Some (a, s2) =>
                    match parse_items f s2 g with
                    | Some (r', s3, g3) => Some (Seq a r', s3, g3)
                    | None => None
                    end
                | None => None
                end
            | None => None
            end
      end
  end.

Definition sre_parse (p : str) : option regex :=
  match parse_sub (2 * length p + 2) p 1 with
  | Some (r, [], _) => Some r
  | _ => None
  end.

(** [re.escape]: a backslash before each character that has, or may get, a
    meaning in a pattern. *)
Definition special_chars : str := lit "()[]{}?*+-|^$\.&~# " ++
  [ascii_of_nat 9; ascii_of_nat 10; ascii_of_nat 13; ascii_of_nat 11; ascii_of_nat 12].

Definition is_special (c : ascii) : bool := existsb (Ascii.eqb c) special_chars.

Fixpoint re_escape (s : str) : str :=
  match s with
  | [] => []
  | c :: s' => if is_special c then "\" :: c :: re_escape s' else c :: re_escape s'
  end.

(** The flag [re.IGNORECASE], for the patterns made of literals, positions
    and groups; sets and [.] under the flag are not modelled. *)
Fixpoint ignorecase (r : regex) : option regex :=
  match r with
  | Lit c => Some (LitI c)
  | InSet _ _ | Any => None
  | Seq a b => a' <- ignorecase a ;; b' <- ignorecase b ;; Some (Seq a' b')
  | Alt a b => a' <- ignorecase a ;; b' <- ignorecase b ;; Some (Alt a' b')
  | Rep lo hi a => a' <- ignorecase a ;; Some (Rep lo hi a')
  | Group g a => a' <- ignorecase a ;; Some (Group g a')
  | _ => Some r
  end.

(** [re.compile(pattern, flags)], the only flag being [re.IGNORECASE]. *)
Definition re_compile (pattern : str) (icase : bool) : option regex :=
  r <- sre_parse pattern ;;
  if icase then ignorecase r else Some r.

(** ** The matcher

    A state is a position in the subject: the character before it (none at
    the start of the string), the text after it, and the groups captured so
    far, newest first.  [ms r st] lists the states in which a match of [r]
    that starts in [st] can end, in the order in which the backtracking
    engine tries them. *)

Record mstate := MState {
  prev : option ascii;
  right : str;
  caps : list (nat * str)
}.

Definition set_test (c : ascii) (i : setitem) : bool :=
  match i with
  | SChar x => Ascii.eqb c x
  | SRange lo hi => chr_range lo hi c
  | SCat CatDigit => uni_isdigit c
  | SCat CatSpace => uni_isspace c
  | SCat CatWord => uni_isword c
  end.

Definition in_set (neg : bool) (items : list setitem) (c : ascii) : bool :=
  xorb neg (existsb (set_test c) items).

Definition ci_eq (c x : ascii) : bool := Ascii.eqb (uni_tolower c) (uni_tolower x).

Definition is_newline (c : ascii) : bool := Ascii.eqb c (ascii_of_nat 10).

(** One character that passes [test]. *)
Definition step (test : ascii -> bool) (st : mstate) : list mstate :=
  match right st with
  | c :: r => if test c then [MState (Some c) r (caps st)] else []
  | [] => []
  end.

Definition word_at (o : option ascii) : bool :=
  match o with Some c => uni_isword c | None => false end.

Definition at_boundary (st : mstate) : bool :=
  xorb (word_at (prev st)) (word_at (hd_error (right st))).

(** [$]: the end of the string, or just before a newline that ends it. *)
Definition at_end (st : mstate) : bool :=
  match right st with
  | [] => true
  | c :: [] => is_newline c
  | _ => false
  end.

Definition is_nil {A} (l : list A) : bool :=
  match l with [] => true | _ => false end.

Definition guard (b : bool) (st : mstate) : list mstate := if b then [st] else [].

(** The text between two states of one match. *)
Definition consumed (st st' : mstate) : str :=
  firstn (length (right st) - length (right st')) (right st).

Definition close_group (gid : option nat) (st st' : mstate) : mstate :=
  match gid with
  | Some n => MState (prev st') (right st') ((n, consumed st st') :: caps st')
  | None => st'
  end.

(** A greedy repeat: at most [n] more rounds of [body], at least [lo]; one
    more round is tried before stopping. *)
Fixpoint rep (body : mstate -> list mstate) (n lo : nat) (st : mstate)
  : list mstate :=
  match n with
  | 0 => guard (Nat.eqb lo 0) st
  | S n' => flat_map (rep body n' (pred lo)) (body st) ++ guard (Nat.eqb lo 0) st
  end.

(** Rounds that match the empty string are cut off by the engine; a repeat
    without upper bound therefore never does more rounds than there are
    characters left, beyond the [lo] it must do. *)
Definition rep_bound (lo : nat) (hi : option nat) (st : mstate) : nat :=
  match hi with Some h => h | None => lo + length (right st) end.

Fixpoint ms (r : regex) (st : mstate) : list mstate :=
  match r with
  | Eps => [st]
  | Lit c => step (Ascii.eqb c) st
  | LitI c => step (ci_eq c) st
  | Any => step (fun x => negb (is_newline x)) st
  | InSet neg items => step (in_set neg items) st
  | Bol => guard (match prev st with None => true | Some _ => false end) st
  | Eol => guard (at_end st) st
  | Eos => guard (is_nil (right st)) st
  | Wordb => guard (at_boundary st) st
  | Seq a b => flat_map (ms b) (ms a st)
  | Alt a b => ms a st ++ ms b st
  | Rep lo hi a => rep (ms a) (rep_bound lo hi st) lo st
  | Group gid a => map (close_group gid st) (ms a st)
  end.

(** The end of the pattern: a match that has to advance may not be empty, a
    full match has to end where the string ends. *)
Definition accept (must_advance match_all : bool) (st st' : mstate) : bool :=
  (negb (must_advance && Nat.eqb (length (right st')) (length (right st)))
   && negb (match_all && negb (is_nil (right st'))))%bool.

(** The match the engine reports at a position: the first that is accepted. *)
Definition first_match (r : regex) (must_advance match_all : bool) (st : mstate)
  : option mstate :=
  find (accept must_advance match_all st) (ms r st).

(** A match object: the matched text and the groups. *)
Record mobj := MObj {
  whole : str;
  groups : list (nat * str)
}.

Definition mobj_of (st st' : mstate) : mobj := MObj (consumed st st') (caps st').

Fixpoint lookup (n : nat) (l : list (nat * str)) : option str :=
  match l with
  | [] => None
  | (k, v) :: l' => if Nat.eqb k n then Some v else lookup n l'
  end.

(** [m.group(n)], the empty string standing for a group that took no part. *)
Definition group (m : mobj) (n : nat) : str :=
  match n with
  | 0 => whole m
  | _ => match lookup n (groups m) with Some v => v | None => [] end
  end.

(** ** The loops of [re.findall] and [re.sub]

    Both walk the subject from left to right.  At a position outside a match
    the engine is asked for a match that starts there; after an empty match
    it is asked once more, for one that advances.  [skip] counts the
    characters of the current match still to be passed. *)

Inductive event :=
| Copy (c : ascii)
| Hit (m : mobj).

Definition match_len (st st' : mstate) : nat :=
  length (right st) - length (right st').

Fixpoint scan (r : regex) (p : option ascii) (text : str) (skip : nat)
  : list event :=
  match skip with
  | S k =>
      match text with
      | c :: text' => scan r (Some c) text' k
      | [] => []
      end
  | 0 =>
      let st := MState p text [] in
      let onward (n : nat) : list event :=
        match text with
        | c :: text' =>
            match n with
            | 0 => Copy c :: scan r (Some c) text' 0
            | S k => scan r (Some c) text' k
            end
        | [] => []
        end in
      match first_match r false false st with
      | None => onward 0
      | Some st1 =>
          match match_len st st1 with
          | S k => Hit (mobj_of st st1) :: onward (S k)
          | 0 =>
              Hit (mobj_of st st1) ::
              match first_match r true false st with
              | None => onward 0
              | Some st2 => Hit (mobj_of st st2) :: onward (match_len st st2)
              end
          end
      end
  end.

Definition finditer (r : regex) (text : str) : list event := scan r None text 0.

Fixpoint hits (evs : list event) : list mobj :=
  match evs with
  | [] => []
  | Copy _ :: evs' => hits evs'
  | Hit m :: evs' => m :: hits evs'
  end.

Fixpoint ngroups (r : regex) : nat :=
  match r with
  | Seq a b | Alt a b => ngroups a + ngroups b
  | Rep _ _ a => ngroups a
  | Group (Some _) a => S (ngroups a)
  | Group None a => ngroups a
  | _ => 0
  end.

(** [Pattern.match], [Pattern.fullmatch], [Pattern.search]. *)
Definition pat_match (r : regex) (s : str) : option mobj :=
  let st := MState None s [] in
  option_map (mobj_of st) (first_match r false false st).

Definition pat_fullmatch (r : regex) (s : str) : option mobj :=
  let st := MState None s [] in
  option_map (mobj_of st) (first_match r false true st).

Definition pat_search (r : regex) (s : str) : option mobj :=
  hd_error (hits (finditer r s)).

(** [Pattern.findall], for patterns with at most one group (all patterns of
    the program): the items are the matched texts when the pattern has no
    group, and the texts of the group when it has one. *)
Definition pat_findall (r : regex) (text : str) : list str :=
  map (fun m => group m (match ngroups r with 0 => 0 | _ => 1 end))
      (hits (finditer r text)).

(** Replacement templates: literal text and group references. *)
Inductive titem :=
| TLit (c : ascii)
| TGroup (n : nat).

(** [parse_template]: a backslash and a digit refer to a group, which has to
    exist; the control escapes and the doubled backslash stand for one
    character; a backslash before another letter is an error, before
    anything else it stays.  [\g<..>] and octal escapes are not modelled. *)
Fixpoint parse_template (repl : str) (ng : nat) : option (list titem) :=
  match repl with
  | [] => Some []
  | c :: rest =>
      if Ascii.eqb c "\" then
        match rest with
        | [] => None
        | e :: rest' =>
            if is_ascii_digit e then
              match rest' with
              | e' :: _ =>
                  if (is_ascii_digit e' || Ascii.eqb e "0")%bool then None
                  else if Nat.leb (digit_val e) ng
                       then t <- parse_template rest' ng ;; Some (TGroup (digit_val e) :: t)
                       else None
              | [] =>
                  if Ascii.eqb e "0" then None
                  else if Nat.leb (digit_val e) ng then Some [TGroup (digit_val e)]
                       else None
              end
            else if Ascii.eqb e "\" then
              t <- parse_template rest' ng ;; Some (TLit "\" :: t)
            else
              match escape_char e with
              | Some x => t <- parse_template rest' ng ;; Some (TLit x :: t)
              | None =>
                  if Ascii.eqb e "b" then
                    t <- parse_template rest' ng ;; Some (TLit (ascii_of_nat 8) :: t)
                  else if is_ascii_letter e then None
                  else t <- parse_template rest' ng ;; Some (TLit "\" :: TLit e :: t)
              end
        end
      else t <- parse_template rest ng ;; Some (TLit c :: t)
  end.

Definition expand (tmpl : list titem) (m : mobj) : str :=
  flat_map (fun t => match t with TLit c => [c] | TGroup n => group m n end) tmpl.

Definition render (tmpl : list titem) (e : event) : str :=
  match e with
  | Copy c => [c]
  | Hit m => expand tmpl m
  end.

(** [Pattern.sub(repl, text)]. *)
Definition pat_sub (r : regex) (repl : str) (text : str) : option str :=
  tmpl <- parse_template repl (ngroups r) ;;
  Some (flat_map (render tmpl) (finditer r text)).

(** The functions of module [re] that take the pattern as a string. *)
Definition re_match (pattern s : str) : option (option mobj) :=
  r <- re_compile pattern false ;; Some (pat_match r s).

Definition re_fullmatch (pattern s : str) : option (option mobj) :=
  r <- re_compile pattern false ;; Some (pat_fullmatch r s).

Definition re_search (pattern s : str) : option (option mobj) :=
  r <- re_compile pattern false ;; Some (pat_search r s).

Definition re_findall (pattern text : str) : option (list str) :=
  r <- re_compile pattern false ;; Some (pat_findall r text).

Definition re_sub (pattern repl text : str) : option str :=
  r <- re_compile pattern false ;; pat_sub r repl text.

(** [bool(m)] for the result of a match. *)
Definition truthy {A} (o : option A) : bool :=
  match o with Some _ => true | None => false end.

(** [str.strip()]. *)
Definition lstrip (s : str) : str := drop_while uni_isspace s.

Definition rstrip (s : str) : str := rev (lstrip (rev s)).

Definition strip (s : str) : str := rstrip (lstrip s).

(** ** The program

    The result of a method is an [option]: [None] is an exception raised by
    [re]. *)

Module RegexValidator.

Definition validate_email (email : str) : option bool :=
  let pattern := lit "^[a-zA-Z0-9._%+-]+@[a-zA-Z0-9.-]+\.[a-zA-Z]{2,}$" in
  m <- re_match pattern email ;; Some (truthy m).

Definition validate_phone_id (phone : str) : option bool :=
  let pattern := lit "^(\+62|62|0)[0-9]{9,12}$" in
  m <- re_match pattern phone ;; Some (truthy m).

Definition validate_url (url : str) : option bool :=
  let pattern := lit "^https?://(?:www\.)?[-a-zA-Z0-9@:%._\+~#=]{1,256}\.[a-zA-Z0-9()]{1,6}\b(?:[-a-zA-Z0-9()@:%_\+.~#?&/=]*)$" in
  m <- re_match pattern url ;; Some (truthy m).

Definition validate_nik (nik : str) : option bool :=
  let pattern := lit "^\d{16}$" in
  m <- re_match pattern nik ;; Some (truthy m).

(** The set of special characters holds a double quote. *)
Definition special_pattern : str :=
  lit "[!@#$%^&*(),.?" ++ [ascii_of_nat 34] ++ lit ":{}|<>]".

(** The dictionary, as the list of its items in insertion order. *)
Definition validate_password (password : str) : option (list (string * bool)) :=
  up <- re_search (lit "[A-Z]") password ;;
  lo <- re_search (lit "[a-z]") password ;;
  dg <- re_search (lit "\d") password ;;
  sp <- re_search special_pattern password ;;
  Some [ ("min_length"%string, Nat.leb 8 (length password));
         ("has_uppercase"%string, truthy up);
         ("has_lowercase"%string, truthy lo);
         ("has_digit"%string, truthy dg);
         ("has_special"%string, truthy sp) ].

End RegexValidator.

Module RegexExtractor.

Definition extract_emails (text : str) : option (list str) :=
  let pattern := lit "\b[a-zA-Z0-9._%+-]+@[a-zA-Z0-9.-]+\.[a-zA-Z]{2,}\b" in
  re_findall pattern text.

Definition extract_phone_numbers (text : str) : option (list str) :=
  let pattern := lit "(\+62|62|0)[0-9]{9,12}" in
  re_findall pattern text.

Definition extract_urls (text : str) : option (list str) :=
  let pattern := lit "https?://(?:www\.)?[-a-zA-Z0-9@:%._\+~#=]{1,256}\.[a-zA-Z0-9()]{1,6}\b(?:[-a-zA-Z0-9()@:%_\+.~#?&/=]*)" in
  re_findall pattern text.

Definition extract_hashtags (text : str) : option (list str) :=
  let pattern := lit "#\w+" in
  re_findall pattern text.

Definition extract_mentions (text : str) : option (list str) :=
  let pattern := lit "@\w+" in
  re_findall pattern text.

Definition extract_dates (text : str) : option (list str) :=
  let pattern := lit "\b\d{1,2}[-/]\d{1,2}[-/]\d{4}\b" in
  re_findall pattern text.

End RegexExtractor.

Module RegexReplacer.

Definition mask_email (text : str) : option str :=
  let pattern := lit "\b([a-zA-Z0-9._%+-]+)@([a-zA-Z0-9.-]+\.[a-zA-Z]{2,})\b" in
  re_sub pattern (lit "\1***@\2") text.

Definition mask_phone (text : str) : option str :=
  let pattern := lit "(\+62|62|0)(\d{5,8})(\d{4})" in
  re_sub pattern (lit "\1****\3") text.

Definition remove_html_tags (text : str) : option str :=
  let pattern := lit "<[^>]+>" in
  re_sub pattern [] text.

Definition normalize_whitespace (text : str) : option str :=
  let pattern := lit "\s+" in
  t <- re_sub pattern (lit " ") text ;; Some (strip t).

(** The loop over [words]: one compiled pattern and one substitution per
    word, each on the text the previous one left. *)
Fixpoint censor_profanity (text : str) (words : list str) : option str :=
  match words with
  | [] => Some text
  | word :: words' =>
      pattern <- re_compile (re_escape word) true ;;
      text' <- pat_sub pattern (repeat "*" (length word)) text ;;
      censor_profanity text' words'
  end.

End RegexReplacer.


(** ** The patterns of the program, parsed

    Each pattern below is what [re_compile] returns for the pattern string
    of the method named with it (lemmas [compile_*]). *)

Definition digit_set : regex := InSet false [SCat CatDigit].
Definition word_set : regex := InSet false [SCat CatWord].
Definition space_set : regex := InSet false [SCat CatSpace].
Definition digit_range : regex := InSet false [SRange "0" "9"].

Definition local_items : list setitem :=
  [SRange "a" "z"; SRange "A" "Z"; SRange "0" "9";
   SChar "."; SChar "_"; SChar "%"; SChar "+"; SChar "-"].

Definition domain_items : list setitem :=
  [SRange "a" "z"; SRange "A" "Z"; SRange "0" "9"; SChar "."; SChar "-"].

Definition letter_items : list setitem := [SRange "a" "z"; SRange "A" "Z"].

Definition host_items : list setitem :=
  [SChar "-"; SRange "a" "z"; SRange "A" "Z"; SRange "0" "9";
   SChar "@"; SChar ":"; SChar "%"; SChar "."; SChar "_";
   SChar "+"; SChar "~"; SChar "#"; SChar "="].

Definition tld_items : list setitem :=
  [SRange "a" "z"; SRange "A" "Z"; SRange "0" "9"; SChar "("; SChar ")"].

Definition path_items : list setitem :=
  [SChar "-"; SRange "a" "z"; SRange "A" "Z"; SRange "0" "9";
   SChar "("; SChar ")"; SChar "@"; SChar ":"; SChar "%"; SChar "_";
   SChar "+"; SChar "."; SChar "~"; SChar "#"; SChar "?"; SChar "&";
   SChar "/"; SChar "="].

Definition local_set : regex := InSet false local_items.
Definition domain_set : regex := InSet false domain_items.
Definition letter_set : regex := InSet false letter_items.
Definition host_set : regex := InSet false host_items.
Definition tld_set : regex := InSet false tld_items.
Definition path_set : regex := InSet false path_items.
Definition sep_set : regex := InSet false [SChar "-"; SChar "/"].

(** The tests of these sets. *)
Definition word_test : ascii -> bool := in_set false [SCat CatWord].
Definition local_test : ascii -> bool := in_set false local_items.
Definition domain_test : ascii -> bool := in_set false domain_items.
Definition letter_test : ascii -> bool := in_set false letter_items.
Definition path_test : ascii -> bool := in_set false path_items.

(** A text, one literal for each character: what an escaped word parses to;
    and the same under [re.IGNORECASE]. *)
Definition lits (w : str) : regex := fold_right (fun c r => Seq (Lit c) r) Eps w.

Definition litsI (w : str) : regex := fold_right (fun c r => Seq (LitI c) r) Eps w.

(** [validate_email], [extract_emails], [mask_email]. *)
Definition email_anchored_re : regex :=
  Seq Bol (Seq (Rep 1 None local_set) (Seq (Lit "@") (Seq (Rep 1 None domain_set)
    (Seq (Lit ".") (Seq (Rep 2 None letter_set) (Seq Eol Eps)))))).

Definition email_re : regex :=
  Seq Wordb (Seq (Rep 1 None local_set) (Seq (Lit "@") (Seq (Rep 1 None domain_set)
    (Seq (Lit ".") (Seq (Rep 2 None letter_set) (Seq Wordb Eps)))))).

Definition email_mask_re : regex :=
  Seq Wordb
   (Seq (Group (Some 1) (Seq (Rep 1 None local_set) Eps))
     (Seq (Lit "@")
       (Seq (Group (Some 2)
              (Seq (Rep 1 None domain_set)
                (Seq (Lit ".") (Seq (Rep 2 None letter_set) Eps))))
         (Seq Wordb Eps)))).

(** [validate_phone_id], [extract_phone_numbers], [mask_phone]; the three
    prefixes stand in the order of the pattern. *)
Definition phone_prefix_re : regex :=
  Alt (lits (lit "+62")) (Alt (lits (lit "62")) (lits (lit "0"))).

Definition phone_anchored_re : regex :=
  Seq Bol (Seq (Group (Some 1) phone_prefix_re)
            (Seq (Rep 9 (Some 12) digit_range) (Seq Eol Eps))).

Definition phone_re : regex :=
  Seq (Group (Some 1) phone_prefix_re) (Seq (Rep 9 (Some 12) digit_range) Eps).

Definition phone_mask_re : regex :=
  Seq (Group (Some 1) phone_prefix_re)
   (Seq (Group (Some 2) (Seq (Rep 5 (Some 8) digit_set) Eps))
     (Seq (Group (Some 3) (Seq (Rep 4 (Some 4) digit_set) Eps)) Eps)).

(** [validate_url], [extract_urls]: the scheme, and what follows it (the
    host, the dot, the suffix, the word boundary and the path), and then
    [tail]. *)
Definition url_after_scheme (tail : regex) : regex :=
  Seq (Rep 0 (Some 1) (Group None (lits (lit "www."))))
   (Seq (Rep 1 (Some 256) host_set)
     (Seq (Lit ".")
       (Seq (Rep 1 (Some 6) tld_set)
         (Seq Wordb
           (Seq (Group None (Seq (Rep 0 None path_set) Eps)) tail))))).

Definition url_from_http (tail : regex) : regex :=
  Seq (Lit "h") (Seq (Lit "t") (Seq (Lit "t") (Seq (Lit "p")
   (Seq (Rep 0 (Some 1) (Lit "s"))
     (Seq (Lit ":") (Seq (Lit "/") (Seq (Lit "/") (url_after_scheme tail)))))))).

Definition url_re : regex := url_from_http Eps.

Definition url_anchored_re : regex := Seq Bol (url_from_http (Seq Eol Eps)).

(** [validate_nik]. *)
Definition nik_re : regex := Seq Bol (Seq (Rep 16 (Some 16) digit_set) (Seq Eol Eps)).

(** [extract_hashtags] and [extract_mentions], by the sign. *)
Definition tag_re (c0 : ascii) : regex :=
  Seq (Lit c0) (Seq (Rep 1 None word_set) Eps).

(** [extract_dates]. *)
Definition date_re : regex :=
  Seq Wordb (Seq (Rep 1 (Some 2) digit_set) (Seq sep_set
    (Seq (Rep 1 (Some 2) digit_set) (Seq sep_set
      (Seq (Rep 4 (Some 4) digit_set) (Seq Wordb Eps)))))).

(** [remove_html_tags]. *)
Definition html_tag_re : regex :=
  Seq (Lit "<") (Seq (Rep 1 None (InSet true [SChar ">"])) (Seq (Lit ">") Eps)).

(** [normalize_whitespace]. *)
Definition spaces_re : regex := Seq (Rep 1 None space_set) Eps.

(** The templates of [mask_email] and [mask_phone], parsed. *)
Definition email_mask_template : list titem :=
  [TGroup 1; TLit "*"; TLit "*"; TLit "*"; TLit "@"; TGroup 2].

Definition phone_mask_template : list titem :=
  [TGroup 1; TLit "*"; TLit "*"; TLit "*"; TLit "*"; TGroup 3].

(** The operations that take one string, each with the pattern it uses. *)
Definition validators : list (regex * (str -> option bool)) :=
  [ (email_anchored_re, RegexValidator.validate_email);
    (phone_anchored_re, RegexValidator.validate_phone_id);
    (url_anchored_re, RegexValidator.validate_url);
    (nik_re, RegexValidator.validate_nik) ].

Definition extractors : list (regex * (str -> option (list str))) :=
  [ (email_re, RegexExtractor.extract_emails);
    (phone_re, RegexExtractor.extract_phone_numbers);
    (url_re, RegexExtractor.extract_urls);
    (tag_re "#", RegexExtractor.extract_hashtags);
    (tag_re "@", RegexExtractor.extract_mentions);
    (date_re, RegexExtractor.extract_dates) ].

Definition replacers : list (regex * (str -> option str)) :=
  [ (email_mask_re, RegexReplacer.mask_email);
    (phone_mask_re, RegexReplacer.mask_phone);
    (html_tag_re, RegexReplacer.remove_html_tags);
    (spaces_re, RegexReplacer.normalize_whitespace) ].

Definition password_keys : list string :=
  [ "min_length"; "has_uppercase"; "has_lowercase"; "has_digit"; "has_special" ]%string.

(** ** The vocabulary of the statements *)

(** Every character of [s] passes [test]; the first character of [s], if
    there is one, does not. *)
Definition all_pass (test : ascii -> bool) (s : str) : Prop :=
  Forall (fun c => test c = true) s.

Definition stops (test : ascii -> bool) (s : str) : Prop :=
  match s with c :: _ => test c = false | [] => True end.

(** The character before the position reached by passing [w]. *)
Definition prev_after (p : option ascii) (w : str) : option ascii :=
  fold_left (fun _ c => Some c) w p.

(** The line feed, U+000A. *)
Definition nl : ascii := ascii_of_nat 10.

Definition ends_with_newline (s : str) : bool :=
  match rev s with
  | c :: _ => is_newline c
  | [] => false
  end.

Definition phone_prefixes : list str := [lit "+62"; lit "62"; lit "0"].

(** [text] begins with [w], letter case apart. *)
Fixpoint starts_with_ci (w text : str) : bool :=
  match w, text with
  | [], _ => true
  | c :: w', x :: t => (ci_eq c x && starts_with_ci w' t)%bool
  | _ :: _, [] => false
  end.

(** Stated from the words of the specification: the text with the
    occurrences of the word [w] replaced by asterisks, one for each
    character of the word, and everything else kept.  The occurrences are
    those a walk from left to right meets, each one starting behind the one
    before; [covered] counts the characters of the current occurrence that
    are still to be replaced.  The empty word occurs nowhere. *)
Fixpoint censor_occurrences (w text : str) (covered : nat) : str :=
  match text with
  | [] => []
  | c :: t =>
      match covered with
      | S k => "*" :: censor_occurrences w t k
      | 0 =>
          if (negb (is_nil w) && starts_with_ci w text)%bool
          then "*" :: censor_occurrences w t (length w - 1)
          else c :: censor_occurrences w t 0
      end
  end.

(** No occurrence of a word of the list in the text. *)
Definition occurs_nowhere (words : list str) (text : str) : Prop :=
  forall w pre post,
    In w words -> w <> [] -> text = pre ++ post -> starts_with_ci w post = false.

(** The pieces of a text in which addresses have been found: single
    characters, and addresses with their local part and their domain. *)
Inductive piece :=
| Plain (c : ascii)
| Address (local domain : str).

Definition piece_text (p : piece) : str :=
  match p with
  | Plain c => [c]
  | Address l d => l ++ "@" :: d
  end.

Definition piece_masked (p : piece) : str :=
  match p with
  | Plain c => [c]
  | Address l d => l ++ lit "***@" ++ d
  end.

Definition piece_address (p : piece) : list str :=
  match p with
  | Plain _ => []
  | Address l d => [l ++ "@" :: d]
  end.

(** The one sign of an address stands between the two parts. *)
Definition single_at (p : piece) : Prop :=
  match p with
  | Plain _ => True
  | Address l d => ~ In "@" l /\ ~ In "@" d
  end.

(** ** The vocabulary of the proofs *)

(** [st'] lies [w] further in the same subject than [st]. *)
Definition reaches (st st' : mstate) (w : str) : Prop :=
  right st = w ++ right st' /\ prev st' = prev_after (prev st) w.

(** White space squeezed: every run becomes one space.  [in_run] tells that
    the character before was white space. *)
Fixpoint squeeze (in_run : bool) (s : str) : str :=
  match s with
  | [] => []
  | c :: s' =>
      if uni_isspace c
      then (if in_run then squeeze true s' else " " :: squeeze true s')
      else c :: squeeze false s'
  end.

(** No white space but single spaces; [after_ws] tells that white space
    stands before the text. *)
Fixpoint sparse (after_ws : bool) (s : str) : bool :=
  match s with
  | [] => true
  | c :: s' =>
      if uni_isspace c
      then (negb after_ws && Ascii.eqb c " " && sparse true s')%bool
      else sparse false s'
  end.

(** The pattern does not mention the very end of the string ([\Z]). *)
Fixpoint eos_free (r : regex) : bool :=
  match r with
  | Eos => false
  | Seq a b | Alt a b => (eos_free a && eos_free b)%bool
  | Rep _ _ a | Group _ a => eos_free a
  | _ => true
  end.

(** A state of a match in [s], seen in [s] followed by a line feed. *)
Definition with_nl (st : mstate) : mstate :=
  MState (prev st) (right st ++ [nl]) (caps st).

(** The pattern without its groups, the sequences nested to the right and
    freed of empty members: what the pattern matches, the captures apart. *)
Fixpoint seq_app (a b : regex) : regex :=
  match a with
  | Eps => b
  | Seq x y => Seq x (seq_app y b)
  | _ => Seq a b
  end.

Fixpoint flatten (r : regex) : regex :=
  match r with
  | Seq a b => seq_app (flatten a) (flatten b)
  | Alt a b => Alt (flatten a) (flatten b)
  | Rep lo hi a => Rep lo hi (flatten a)
  | Group _ a => flatten a
  | _ => r
  end.

Definition nocaps (st : mstate) : mstate := MState (prev st) (right st) [].

Definition erase_event (e : event) : event :=
  match e with
  | Copy c => Copy c
  | Hit m => Hit (MObj (whole m) [])
  end.

Definition piece_of_event (e : event) : piece :=
  match e with
  | Copy c => Plain c
  | Hit m => Address (group m 1) (group m 2)
  end.

(** Every character a match of the pattern passes satisfies [test]. *)
Fixpoint consumes_only (test : ascii -> bool) (r : regex) : Prop :=
  match r with
  | Lit c => test c = true
  | LitI c => forall x, ci_eq c x = true -> test x = true
  | Any => forall x, is_newline x = false -> test x = true
  | InSet neg items => forall x, in_set neg items x = true -> test x = true
  | Seq a b | Alt a b => consumes_only test a /\ consumes_only test b
  | Rep _ _ a | Group _ a => consumes_only test a
  | _ => True
  end.

(** A URL up to the word boundary behind the suffix, and the path. *)
Definition url_head : regex :=
  Seq (Lit "h") (Seq (Lit "t") (Seq (Lit "t") (Seq (Lit "p")
   (Seq (Rep 0 (Some 1) (Lit "s"))
     (Seq (Lit ":") (Seq (Lit "/") (Seq (Lit "/")
       (Seq (Rep 0 (Some 1) (Group None (lits (lit "www."))))
         (Seq (Rep 1 (Some 256) host_set)
           (Seq (Lit ".")
             (Seq (Rep 1 (Some 6) tld_set)
               (Seq Wordb Eps)))))))))))).

Definition url_path : regex := Seq (Group None (Seq (Rep 0 None path_set) Eps)) Eps.

(** ** The vocabulary of the further properties *)

(** [s] is the value [v], or [v] followed by one line feed. *)
Definition is_value (v s : str) : Prop := s = v \/ s = v ++ [nl].

(** The special characters [validate_password] looks for, the double quote
    among them. *)
Definition password_specials : str :=
  lit "!@#$%^&*(),.?" ++ [ascii_of_nat 34] ++ lit ":{}|<>".

Definition is_password_special (c : ascii) : bool :=
  existsb (Ascii.eqb c) password_specials.

Definition is_upper (c : ascii) : bool := chr_range "A" "Z" c.

Definition is_lower (c : ascii) : bool := chr_range "a" "z" c.

(** The two schemes of a URL. *)
Definition url_schemes : list str := [lit "http://"; lit "https://"].

(** A text cut into the items found in it and the characters between
    them. *)
Inductive chunk :=
| Gap (c : ascii)
| Item (x : str).

Definition chunk_text (k : chunk) : str :=
  match k with
  | Gap c => [c]
  | Item x => x
  end.

Definition chunk_items (k : chunk) : list str :=
  match k with
  | Gap _ => []
  | Item x => [x]
  end.

Definition chunk_gaps (k : chunk) : str :=
  match k with
  | Gap c => [c]
  | Item _ => []
  end.

(** The items [l] are pieces of [text] that follow each other in [text]
    without overlap, and none of them is empty. *)
Definition found_in (l : list str) (text : str) : Prop :=
  exists chunks,
    text = flat_map chunk_text chunks
    /\ l = flat_map chunk_items chunks
    /\ Forall (fun x => x <> []) l.

(** A tag as [remove_html_tags] sees it: the two angle brackets around a
    text that is not empty and holds no closing bracket. *)
Definition is_tag (x : str) : Prop :=
  exists body, x = "<" :: body ++ [">"] /\ body <> [] /\ ~ In ">" body.

(** Every match of the pattern begins by testing a character. *)
Fixpoint starts_with_char (r : regex) : bool :=
  match r with
  | Lit _ | LitI _ | Any | InSet _ _ => true
  | Seq a _ => starts_with_char a
  | Alt a b => (starts_with_char a && starts_with_char b)%bool
  | Rep lo _ a => (Nat.leb 1 lo && starts_with_char a)%bool
  | Group _ a => starts_with_char a
  | _ => false
  end.

(** Every match of the pattern passes at least one character. *)
Fixpoint nonempty_re (r : regex) : bool :=
  match r with
  | Lit _ | LitI _ | Any | InSet _ _ => true
  | Seq a b => (nonempty_re a || nonempty_re b)%bool
  | Alt a b => (nonempty_re a && nonempty_re b)%bool
  | Rep lo _ a => (Nat.leb 1 lo && nonempty_re a)%bool
  | Group _ a => nonempty_re a
  | _ => false
  end.

Definition chunk_of_event (e : event) : chunk :=
  match e with
  | Copy c => Gap c
  | Hit m => Item (whole m)
  end.

(** The test of the set [[^>]]. *)
Definition not_gt : ascii -> bool := in_set true [SChar ">"].

(** The text holds no tag. *)
Definition tagless (text : str) : Prop :=
  forall pre post, text = pre ++ "<" :: post ->
    take_while not_gt post = [] \/ drop_while not_gt post = [].

(** The tests of the sets of a URL, and the optional beginning of the
    host. *)
Definition host_test : ascii -> bool := in_set false host_items.
Definition tld_test : ascii -> bool := in_set false tld_items.

Definition url_www : list str := [[]; lit "www."].

(** A word boundary between the last character of [d] and the first of
    [q]: one of the two is a word character and the other is not, or is
    missing. *)
Definition word_edge (d q : str) : bool :=
  xorb (word_at (prev_after None d)) (word_at (hd_error q)).

(** No piece of the text is a tag. *)
Definition holds_no_tag (text : str) : Prop :=
  forall pre x post, is_tag x -> text <> pre ++ x ++ post.

(** A character that is no white space. *)
Definition is_black (c : ascii) : bool := negb (uni_isspace c).

(** Each character of [t] is the character of [s] at the same place, or an
    asterisk. *)
Definition starred (s t : str) : Prop :=
  Forall2 (fun x y => y = x \/ y = "*") s t.

(** The word [w] occurs nowhere in the text, letter case apart. *)
Definition absent (w text : str) : Prop :=
  forall pre post, text = pre ++ post -> starts_with_ci w post = false.

(** The pieces of a text in which phone numbers have been found: single
    characters, and numbers with their prefix, their middle digits and their
    last digits. *)
Inductive phone_piece :=
| PChar (c : ascii)
| PNumber (prefix middle last : str).

Definition phone_piece_text (k : phone_piece) : str :=
  match k with
  | PChar c => [c]
  | PNumber p m l => p ++ m ++ l
  end.

Definition phone_piece_masked (k : phone_piece) : str :=
  match k with
  | PChar c => [c]
  | PNumber p m l => p ++ lit "****" ++ l
  end.

Definition phone_piece_ok (k : phone_piece) : Prop :=
  match k with
  | PChar _ => True
  | PNumber p m l =>
      In p phone_prefixes
      /\ all_pass uni_isdigit m /\ 5 <= length m <= 8
      /\ all_pass uni_isdigit l /\ length l = 4
  end.

Definition phone_piece_of_event (e : event) : phone_piece :=
  match e with
  | Copy c => PChar c
  | Hit m => PNumber (group m 1) (group m 2) (group m 3)
  end.
(** * Properties of the engine *)

(** ** Lists *)

Lemma flat_map_unit {A} (l : list A) : flat_map (fun x => [x]) l = l.
Proof. induction l; simpl; congruence. Qed.

Lemma firstn_length_app {A} (w r : list A) :
  firstn (length (w ++ r) - length r) (w ++ r) = w.
Proof.
  rewrite length_app.
  replace (length w + length r - length r) with (length w) by lia.
  rewrite firstn_app, Nat.sub_diag, firstn_all. simpl. apply app_nil_r.
Qed.

Lemma flat_map_map {A B C} (f : B -> list C) (g : A -> B) (l : list A) :
  flat_map f (map g l) = flat_map (fun x => f (g x)) l.
Proof. induction l as [|a l IH]; simpl; congruence. Qed.

Lemma map_flat_map {A B C} (g : B -> C) (f : A -> list B) (l : list A) :
  map g (flat_map f l) = flat_map (fun x => map g (f x)) l.
Proof.
  induction l as [|a l IH]; simpl; [reflexivity|]. now rewrite map_app, IH.
Qed.

Lemma flat_map_assoc {A B C} (f : A -> list B) (g : B -> list C) (l : list A) :
  flat_map g (flat_map f l) = flat_map (fun x => flat_map g (f x)) l.
Proof.
  induction l as [|a l IH]; simpl; [reflexivity|]. now rewrite flat_map_app, IH.
Qed.

Lemma flat_map_ext_in {A B} (f g : A -> list B) (l : list A) :
  (forall x, In x l -> f x = g x) -> flat_map f l = flat_map g l.
Proof.
  induction l as [|a l IH]; intros H; simpl; [reflexivity|].
  rewrite H by (left; reflexivity). f_equal. apply IH. intros x Hx. apply H. now right.
Qed.

Lemma hd_error_app_some {A} (l l' : list A) x :
  hd_error l = Some x -> hd_error (l ++ l') = Some x.
Proof. destruct l; simpl; congruence. Qed.

Lemma hd_error_map {A B} (f : A -> B) (l : list A) :
  hd_error (map f l) = option_map f (hd_error l).
Proof. destruct l; reflexivity. Qed.

Lemma hd_error_flat_map {A B} (f : A -> list B) (l : list A) x y :
  hd_error l = Some x -> hd_error (f x) = Some y ->
  hd_error (flat_map f l) = Some y.
Proof.
  destruct l as [|a l]; simpl; [discriminate|]. intros [= ->] H.
  now apply hd_error_app_some.
Qed.

Lemma find_map {A B} (f : B -> bool) (g : A -> B) (l : list A) :
  find f (map g l) = option_map g (find (fun x => f (g x)) l).
Proof.
  induction l as [|a l IH]; simpl; [reflexivity|]. destruct (f (g a)); auto.
Qed.

Lemma app_split_longer {A} (x y a b : list A) :
  x ++ y = a ++ b -> length x < length a ->
  exists m, a = x ++ m /\ y = m ++ b /\ m <> [].
Proof.
  intros E Hl. apply app_eq_app in E as [m [[E1 E2]|[E1 E2]]].
  - subst x. rewrite length_app in Hl. lia.
  - exists m. repeat split; auto. intros ->. rewrite app_nil_r in E1. subst. lia.
Qed.

(** ** Runs of characters *)

Lemma take_drop test s : take_while test s ++ drop_while test s = s.
Proof. induction s as [|c s IH]; simpl; [|destruct (test c); simpl]; congruence. Qed.

Lemma take_while_ext (f g : ascii -> bool) s :
  (forall c, f c = g c) -> take_while f s = take_while g s.
Proof. intros E. induction s as [|c s IH]; simpl; [|rewrite E, IH]; reflexivity. Qed.

Lemma drop_while_ext (f g : ascii -> bool) s :
  (forall c, f c = g c) -> drop_while f s = drop_while g s.
Proof. intros E. induction s as [|c s IH]; simpl; [|rewrite E, IH]; reflexivity. Qed.

Lemma take_while_pass test s : all_pass test (take_while test s).
Proof.
  induction s as [|c s IH]; simpl; [constructor|].
  destruct (test c) eqn:E; constructor; assumption.
Qed.

Lemma drop_while_stops test s : stops test (drop_while test s).
Proof.
  induction s as [|c s IH]; simpl; [exact I|].
  destruct (test c) eqn:E; simpl; assumption.
Qed.

Lemma take_while_run test w rest :
  all_pass test w -> stops test rest -> take_while test (w ++ rest) = w.
Proof.
  induction 1 as [|c w Hc _ IH]; intros Hs; simpl.
  - destruct rest as [|c r]; simpl in *; [reflexivity|]. now rewrite Hs.
  - rewrite Hc. f_equal. auto.
Qed.

Lemma drop_while_run test w rest :
  all_pass test w -> stops test rest -> drop_while test (w ++ rest) = rest.
Proof.
  induction 1 as [|c w Hc _ IH]; intros Hs; simpl.
  - destruct rest as [|c r]; simpl in *; [reflexivity|]. now rewrite Hs.
  - rewrite Hc. auto.
Qed.

Lemma take_while_app_stop test t x :
  stops test x -> take_while test (t ++ x) = take_while test t.
Proof.
  intros Hs. rewrite <- (take_drop test t) at 1. rewrite <- app_assoc.
  apply take_while_run; [apply take_while_pass|].
  pose proof (drop_while_stops test t) as Hd.
  destruct (drop_while test t); simpl; assumption.
Qed.

Lemma drop_while_app_stop test t x :
  stops test x -> drop_while test (t ++ x) = drop_while test t ++ x.
Proof.
  intros Hs. rewrite <- (take_drop test t) at 1. rewrite <- app_assoc.
  apply drop_while_run; [apply take_while_pass|].
  pose proof (drop_while_stops test t) as Hd.
  destruct (drop_while test t); simpl; assumption.
Qed.

Lemma drop_while_length test s : length (drop_while test s) <= length s.
Proof.
  induction s as [|c s IH]; simpl; [lia|]. destruct (test c); simpl; lia.
Qed.

Lemma all_pass_ext (f g : ascii -> bool) w :
  (forall c, f c = g c) -> all_pass f w -> all_pass g w.
Proof.
  intros E H. eapply Forall_impl; [|exact H]. simpl. intros c Hc. now rewrite <- E.
Qed.

Lemma stops_ext (f g : ascii -> bool) s :
  (forall c, f c = g c) -> stops f s -> stops g s.
Proof. intros E. destruct s; simpl; [auto|]. now rewrite E. Qed.

Lemma all_pass_suffix test a b : all_pass test (a ++ b) -> all_pass test b.
Proof. intros H. apply Forall_app in H. tauto. Qed.

Lemma all_pass_not_in test w c : all_pass test w -> test c = false -> ~ In c w.
Proof.
  intros H Hc Hi. unfold all_pass in H. rewrite Forall_forall in H.
  apply H in Hi. congruence.
Qed.

Lemma prev_after_app p w1 w2 :
  prev_after p (w1 ++ w2) = prev_after (prev_after p w1) w2.
Proof. apply fold_left_app. Qed.

Lemma prev_after_cons p c w : prev_after p (c :: w) = prev_after (Some c) w.
Proof. reflexivity. Qed.

Lemma prev_after_last test y : forall p,
  all_pass test y -> y <> [] -> exists c, prev_after p y = Some c /\ test c = true.
Proof.
  induction y as [|c y IH]; intros p Hy Hn; [congruence|].
  inversion Hy as [|? ? Hc Hy']; subst. destruct y as [|c' y].
  - exists c. auto.
  - apply (IH (Some c)); [assumption|discriminate].
Qed.

(** ** Character sets *)

Lemma in_set_word c : in_set false [SCat CatWord] c = uni_isword c.
Proof. unfold in_set. simpl. destruct (uni_isword c); reflexivity. Qed.

Lemma in_set_space c : in_set false [SCat CatSpace] c = uni_isspace c.
Proof. unfold in_set. simpl. destruct (uni_isspace c); reflexivity. Qed.

Lemma in_set_digit c : in_set false [SCat CatDigit] c = uni_isdigit c.
Proof. unfold in_set. simpl. destruct (uni_isdigit c); reflexivity. Qed.

Lemma all_digits_in_set ds :
  all_pass uni_isdigit ds -> all_pass (in_set false [SCat CatDigit]) ds.
Proof. apply all_pass_ext. intros c. symmetry. apply in_set_digit. Qed.

Lemma digits_of_set w :
  all_pass (in_set false [SCat CatDigit]) w -> all_pass uni_isdigit w.
Proof. apply all_pass_ext. apply in_set_digit. Qed.

Lemma digit_is_word c : uni_isdigit c = true -> uni_isword c = true.
Proof.
  unfold uni_isword, uni_isalnum, uni_isdigit. intros ->. reflexivity.
Qed.

Lemma letter_is_word x : letter_test x = true -> uni_isword x = true.
Proof.
  destruct x as [[] [] [] [] [] [] [] []]; vm_compute;
    first [reflexivity | intros H; exact H].
Qed.

Lemma letter_is_domain x : letter_test x = true -> domain_test x = true.
Proof.
  destruct x as [[] [] [] [] [] [] [] []]; vm_compute;
    first [reflexivity | intros H; exact H].
Qed.

Lemma letter_not_dot x : letter_test x = true -> Ascii.eqb "." x = false.
Proof.
  intros H. destruct (Ascii.eqb "." x) eqn:E; [|reflexivity].
  apply Ascii.eqb_eq in E. subst x. discriminate H.
Qed.

Lemma host_is_path x : in_set false host_items x = true -> path_test x = true.
Proof.
  destruct x as [[] [] [] [] [] [] [] []]; vm_compute;
    first [reflexivity | intros H; exact H].
Qed.

Lemma tld_is_path x : in_set false tld_items x = true -> path_test x = true.
Proof.
  destruct x as [[] [] [] [] [] [] [] []]; vm_compute;
    first [reflexivity | intros H; exact H].
Qed.

Lemma sep_in c : in_set false [SChar "-"; SChar "/"] c = true -> In c ["-"; "/"].
Proof.
  unfold in_set. cbn [existsb set_test xorb].
  destruct (Ascii.eqb c "-") eqn:E1; [apply Ascii.eqb_eq in E1; subst; simpl; tauto|].
  destruct (Ascii.eqb c "/") eqn:E2; [apply Ascii.eqb_eq in E2; subst; simpl; tauto|].
  discriminate.
Qed.

(** ** The matcher moves forward *)

Lemma reaches_refl st : reaches st st [].
Proof. split; reflexivity. Qed.

Lemma reaches_trans st1 st2 st3 w1 w2 :
  reaches st1 st2 w1 -> reaches st2 st3 w2 -> reaches st1 st3 (w1 ++ w2).
Proof.
  intros [H1 H2] [H3 H4]. split.
  - rewrite H1, H3. apply app_assoc.
  - rewrite prev_after_app. congruence.
Qed.

Lemma reaches_consumed st st' w : reaches st st' w -> consumed st st' = w.
Proof.
  intros [H _]. unfold consumed. rewrite H. apply firstn_length_app.
Qed.

Lemma reaches_len st st' w :
  reaches st st' w -> length (right st) = length w + length (right st').
Proof. intros [H _]. rewrite H. apply length_app. Qed.

Lemma consumed_app p p' w r cs cs' :
  consumed (MState p (w ++ r) cs) (MState p' r cs') = w.
Proof. unfold consumed. cbn [right]. apply firstn_length_app. Qed.

Lemma consumed_nil p p' w cs cs' :
  consumed (MState p w cs) (MState p' [] cs') = w.
Proof. rewrite <- (app_nil_r w) at 1. apply consumed_app. Qed.

Lemma step_inv test st st' :
  In st' (step test st) ->
  exists c r, right st = c :: r /\ test c = true /\
              st' = MState (Some c) r (caps st).
Proof.
  unfold step. destruct (right st) as [|c r] eqn:E; simpl; [tauto|].
  destruct (test c) eqn:T; simpl; [|tauto].
  intros [<-|[]]. exists c, r. auto.
Qed.

Lemma guard_inv b st st' : In st' (guard b st) -> b = true /\ st' = st.
Proof. destruct b; simpl; intuition congruence. Qed.

Lemma rep_reaches (body : mstate -> list mstate) :
  (forall st st', In st' (body st) -> exists w, reaches st st' w) ->
  forall n lo st st', In st' (rep body n lo st) -> exists w, reaches st st' w.
Proof.
  intros Hb. induction n as [|n IH]; intros lo st st'; simpl.
  - intros H. apply guard_inv in H as [_ ->]. exists []. apply reaches_refl.
  - rewrite in_app_iff, in_flat_map. intros [(st1 & H1 & H2)|H].
    + apply Hb in H1 as [w1 R1]. apply IH in H2 as [w2 R2].
      exists (w1 ++ w2). eapply reaches_trans; eauto.
    + apply guard_inv in H as [_ ->]. exists []. apply reaches_refl.
Qed.

Lemma ms_reaches r :
  forall st st', In st' (ms r st) -> exists w, reaches st st' w.
Proof.
  induction r; intros st st'; cbn [ms];
    try (intros H; apply step_inv in H as (x & rx & Hr & _ & ->);
         exists [x]; split; simpl; auto; fail);
    try (intros H; apply guard_inv in H as [_ ->]; exists []; apply reaches_refl; fail).
  - intros [<-|[]]. exists []. apply reaches_refl.
  - rewrite in_flat_map. intros (st1 & H1 & H2).
    apply IHr1 in H1 as [w1 R1]. apply IHr2 in H2 as [w2 R2].
    exists (w1 ++ w2). eapply reaches_trans; eauto.
  - rewrite in_app_iff. intros [H|H]; eauto.
  - apply rep_reaches. exact IHr.
  - rewrite in_map_iff. intros (st1 & <- & H1).
    apply IHr in H1 as [w [R1 R2]]. exists w.
    destruct gid; [split; simpl; assumption | split; assumption].
Qed.

Lemma first_match_in r ma all st st' :
  first_match r ma all st = Some st' -> In st' (ms r st).
Proof. unfold first_match. intros H. apply find_some in H. tauto. Qed.

Lemma first_match_reaches r ma all st st' :
  first_match r ma all st = Some st' -> exists w, reaches st st' w.
Proof. intros H. eapply ms_reaches, first_match_in; eauto. Qed.

(** Without constraints on the end, the engine reports the first state. *)
Lemma first_match_hd r st : first_match r false false st = hd_error (ms r st).
Proof. unfold first_match. destruct (ms r st); reflexivity. Qed.

(** ** Greedy repeats of one character *)

(** A repeat of a one-character test takes the whole run when the run fits
    the bounds. *)
Lemma rep_step_hd test w : forall rest p cs n lo,
  all_pass test w -> stops test rest -> lo <= length w <= n ->
  hd_error (rep (step test) n lo (MState p (w ++ rest) cs)) =
  Some (MState (prev_after p w) rest cs).
Proof.
  induction w as [|c w IH]; intros rest p cs n lo Hw Hs Hn; simpl in Hn.
  - assert (lo = 0) as -> by lia. simpl app.
    destruct n as [|n]; [reflexivity|]. cbn [rep].
    unfold step at 2. cbn [right].
    destruct rest as [|c r]; [reflexivity|]. simpl in Hs. rewrite Hs. reflexivity.
  - inversion Hw as [|? ? Hc Hw']; subst.
    destruct n as [|n]; [lia|]. cbn [rep app].
    unfold step at 2. cbn [right caps]. rewrite Hc. cbn [flat_map].
    rewrite app_nil_r. apply hd_error_app_some.
    apply IH; auto. lia.
Qed.

Lemma rep_step_hd_end test w p cs n lo :
  all_pass test w -> lo <= length w <= n ->
  hd_error (rep (step test) n lo (MState p w cs)) =
  Some (MState (prev_after p w) [] cs).
Proof.
  intros Hw Hn. rewrite <- (app_nil_r w) at 1. now apply rep_step_hd.
Qed.

(** It fails when the run is shorter than the least count. *)
Lemma rep_step_short test w : forall rest p cs n lo,
  all_pass test w -> stops test rest -> length w < lo ->
  rep (step test) n lo (MState p (w ++ rest) cs) = [].
Proof.
  induction w as [|c w IH]; intros rest p cs n lo Hw Hs Hn; simpl in Hn.
  - destruct lo as [|lo]; [lia|]. simpl app.
    destruct n as [|n]; [reflexivity|]. cbn [rep].
    unfold step. cbn [right].
    destruct rest as [|c r]; [reflexivity|]. simpl in Hs. rewrite Hs. reflexivity.
  - inversion Hw as [|? ? Hc Hw']; subst.
    destruct lo as [|lo]; [lia|].
    destruct n as [|n]; [reflexivity|]. cbn [rep app].
    unfold step at 2. cbn [right caps]. rewrite Hc. cbn [flat_map].
    rewrite app_nil_r. cbn [pred Nat.eqb guard]. rewrite app_nil_r.
    apply IH; auto. lia.
Qed.

Lemma rep_step_in test n : forall lo st st',
  In st' (rep (step test) n lo st) ->
  exists w, reaches st st' w /\ all_pass test w /\
            lo <= length w <= n + lo /\ length w <= n /\ caps st' = caps st.
Proof.
  induction n as [|n IH]; intros lo st st' H; cbn [rep] in H.
  - apply guard_inv in H as [E ->]. apply Nat.eqb_eq in E. subst lo.
    exists []. repeat split; simpl; try lia. constructor.
  - apply in_app_or in H as [H|H].
    + apply in_flat_map in H as (y & Hy & Hx).
      apply step_inv in Hy as (c & rc & Er & Tc & Ey). subst y.
      apply IH in Hx as (w & [R1 R2] & Hw & Hl & Hn & Hc). cbn [right prev caps] in *.
      exists (c :: w). repeat split; simpl; try lia.
      * rewrite Er. now rewrite R1.
      * exact R2.
      * constructor; assumption.
      * exact Hc.
    + apply guard_inv in H as [E ->]. apply Nat.eqb_eq in E. subst lo.
      exists []. repeat split; simpl; try lia. constructor.
Qed.

(** A repeat of a one-character test on a run [w] at least as long as the
    upper bound: when the rest of the pattern, [k], fails behind every
    admissible prefix of the run, the whole fails. *)
Lemma rep_step_none test (k : mstate -> list mstate) rest cs n :
  forall w p lo,
  all_pass test w -> n <= length w ->
  (forall a b, w = a ++ b -> lo <= length a <= n ->
               k (MState (prev_after p a) (b ++ rest) cs) = []) ->
  flat_map k (rep (step test) n lo (MState p (w ++ rest) cs)) = [].
Proof.
  induction n as [|n IH]; intros w p lo Hw Hn Hk.
  - cbn [rep]. destruct lo as [|lo]; [|reflexivity].
    cbn [Nat.eqb guard flat_map]. rewrite app_nil_r.
    apply (Hk [] w); [reflexivity|simpl; lia].
  - destruct w as [|c w]; [simpl in Hn; lia|].
    inversion Hw as [|? ? Hc Hw']; subst.
    cbn [rep app]. unfold step at 2. cbn [right caps]. rewrite Hc.
    cbn [flat_map]. rewrite app_nil_r, flat_map_app.
    rewrite IH.
    + destruct lo as [|lo]; [|reflexivity].
      cbn [Nat.eqb guard flat_map app]. rewrite app_nil_r.
      apply (Hk [] (c :: w)); [reflexivity|simpl; lia].
    + assumption.
    + simpl in Hn. lia.
    + intros a b E Ha. apply (Hk (c :: a) b); [simpl; congruence|simpl; lia].
Qed.

(** The first result: the longest admissible prefix of the run behind which
    the rest of the pattern succeeds. *)
Lemma rep_step_first test (k : mstate -> list mstate) rest cs y n :
  forall w p lo a0 b0,
  all_pass test w -> n <= length w ->
  w = a0 ++ b0 -> lo <= length a0 <= n ->
  (forall a b, w = a ++ b -> length a0 < length a <= n ->
               k (MState (prev_after p a) (b ++ rest) cs) = []) ->
  hd_error (k (MState (prev_after p a0) (b0 ++ rest) cs)) = Some y ->
  hd_error (flat_map k (rep (step test) n lo (MState p (w ++ rest) cs))) = Some y.
Proof.
  induction n as [|n IH]; intros w p lo a0 b0 Hw Hn E0 Ha0 Hk Hy.
  - destruct a0; [|simpl in Ha0; lia]. simpl in E0. subst b0.
    assert (lo = 0) as -> by (simpl in Ha0; lia).
    cbn [rep Nat.eqb guard flat_map]. rewrite app_nil_r. exact Hy.
  - destruct w as [|c w]; [simpl in Hn; lia|].
    inversion Hw as [|? ? Hc Hw']; subst.
    cbn [rep app]. unfold step at 2. cbn [right caps]. rewrite Hc.
    cbn [flat_map]. rewrite app_nil_r, flat_map_app.
    destruct a0 as [|c' a0].
    + simpl in E0. subst b0. assert (lo = 0) as -> by (simpl in Ha0; lia).
      rewrite rep_step_none.
      * cbn [Nat.eqb guard flat_map app]. rewrite app_nil_r. exact Hy.
      * assumption.
      * simpl in Hn. lia.
      * intros a b E Ha. apply (Hk (c :: a) b); [simpl; congruence|simpl; lia].
    + simpl in E0. injection E0 as <- E0.
      apply hd_error_app_some. apply (IH w (Some c) (pred lo) a0 b0).
      * assumption.
      * simpl in Hn. lia.
      * assumption.
      * simpl in Ha0. lia.
      * intros a b E Ha. apply (Hk (c :: a) b); [simpl; congruence|simpl; lia].
      * exact Hy.
Qed.

Lemma rep_step_none_greedy test (k : mstate -> list mstate) rest cs :
  forall w p lo n,
  all_pass test w -> stops test rest ->
  (forall a b, w = a ++ b -> lo <= length a ->
               k (MState (prev_after p a) (b ++ rest) cs) = []) ->
  flat_map k (rep (step test) n lo (MState p (w ++ rest) cs)) = [].
Proof.
  induction w as [|c w IH]; intros p lo n Hw Hs Hk.
  - assert (G : flat_map k (guard (Nat.eqb lo 0) (MState p rest cs)) = []).
    { destruct lo as [|lo]; [|reflexivity]. cbn [Nat.eqb guard flat_map].
      rewrite app_nil_r. apply (Hk [] []); [reflexivity|simpl; lia]. }
    cbn [app]. destruct n as [|n]; cbn [rep]; [exact G|].
    unfold step at 2. cbn [right]. destruct rest as [|c r]; [exact G|].
    simpl in Hs. rewrite Hs. exact G.
  - inversion Hw as [|? ? Hc Hw']; subst.
    assert (G : flat_map k (guard (Nat.eqb lo 0) (MState p ((c :: w) ++ rest) cs)) = []).
    { destruct lo as [|lo]; [|reflexivity]. cbn [Nat.eqb guard flat_map].
      rewrite app_nil_r. apply (Hk [] (c :: w)); [reflexivity|simpl; lia]. }
    destruct n as [|n]; cbn [rep]; [exact G|].
    unfold step at 2. cbn [right caps app]. rewrite Hc.
    cbn [flat_map]. rewrite app_nil_r, flat_map_app. cbn [app] in G. rewrite G.
    rewrite app_nil_r. apply IH; auto.
    intros a b E Ha. apply (Hk (c :: a) b); [simpl; congruence|simpl; lia].
Qed.

Lemma rep_step_first_greedy test (k : mstate -> list mstate) rest cs y :
  forall w p lo n a0 b0,
  all_pass test w -> stops test rest ->
  w = a0 ++ b0 -> lo <= length a0 <= n ->
  (forall a b, w = a ++ b -> length a0 < length a ->
               k (MState (prev_after p a) (b ++ rest) cs) = []) ->
  hd_error (k (MState (prev_after p a0) (b0 ++ rest) cs)) = Some y ->
  hd_error (flat_map k (rep (step test) n lo (MState p (w ++ rest) cs))) = Some y.
Proof.
  induction w as [|c w IH]; intros p lo n a0 b0 Hw Hs E0 Ha0 Hk Hy.
  - destruct a0; [|discriminate]. destruct b0; [|discriminate].
    assert (lo = 0) as -> by (simpl in Ha0; lia). cbn [app] in *.
    destruct n as [|n]; cbn [rep Nat.eqb guard flat_map].
    + rewrite app_nil_r. exact Hy.
    + unfold step. cbn [right]. destruct rest as [|c r].
      * cbn [flat_map app]. rewrite app_nil_r. exact Hy.
      * simpl in Hs. rewrite Hs. cbn [flat_map app]. rewrite app_nil_r. exact Hy.
  - inversion Hw as [|? ? Hc Hw']; subst.
    destruct a0 as [|c' a0].
    + cbn [app] in E0. subst b0. assert (lo = 0) as -> by (simpl in Ha0; lia).
      cbn [prev_after fold_left app] in Hy.
      destruct n as [|n]; cbn [rep Nat.eqb guard flat_map].
      * rewrite app_nil_r. exact Hy.
      * unfold step at 2. cbn [right caps app]. rewrite Hc.
        cbn [flat_map]. rewrite app_nil_r, flat_map_app.
        rewrite rep_step_none_greedy; auto.
        -- cbn [flat_map app]. rewrite app_nil_r. exact Hy.
        -- intros a b E Ha. apply (Hk (c :: a) b); [simpl; congruence|simpl; lia].
    + cbn [app] in E0. injection E0 as <- E0.
      destruct n as [|n]; [simpl in Ha0; lia|]. cbn [rep].
      unfold step at 2. cbn [right caps app]. rewrite Hc.
      cbn [flat_map]. rewrite app_nil_r, flat_map_app.
      apply hd_error_app_some. apply (IH (Some c) (pred lo) n a0 b0); auto.
      * simpl in Ha0. lia.
      * intros a b E Ha. apply (Hk (c :: a) b); [simpl; congruence|simpl; lia].
Qed.

(** ** The characters of a match *)

Lemma rep_consumes test (body : mstate -> list mstate) :
  (forall st st', In st' (body st) ->
                  exists w, reaches st st' w /\ all_pass test w) ->
  forall n lo st st', In st' (rep body n lo st) ->
                      exists w, reaches st st' w /\ all_pass test w.
Proof.
  intros Hb. induction n as [|n IH]; intros lo st st'; cbn [rep].
  - intros H. apply guard_inv in H as [_ ->]. exists [].
    split; [apply reaches_refl|constructor].
  - rewrite in_app_iff, in_flat_map. intros [(st1 & H1 & H2)|H].
    + apply Hb in H1 as (w1 & R1 & P1). apply IH in H2 as (w2 & R2 & P2).
      exists (w1 ++ w2). split; [eapply reaches_trans; eauto|].
      apply Forall_app. auto.
    + apply guard_inv in H as [_ ->]. exists [].
      split; [apply reaches_refl|constructor].
Qed.

Lemma ms_consumes_only test r :
  consumes_only test r ->
  forall st st', In st' (ms r st) -> exists w, reaches st st' w /\ all_pass test w.
Proof.
  induction r; intros Hc st st'; cbn [ms consumes_only] in *;
    try (intros H; apply guard_inv in H as [_ ->]; exists [];
         split; [apply reaches_refl|constructor]; fail).
  - intros [<-|[]]. exists []. split; [apply reaches_refl|constructor].
  - intros H. apply step_inv in H as (x & rx & Hr & Tx & ->).
    apply Ascii.eqb_eq in Tx. subst x.
    exists [c]. split; [split; simpl; auto|repeat constructor; assumption].
  - intros H. apply step_inv in H as (x & rx & Hr & Tx & ->).
    exists [x]. split; [split; simpl; auto|repeat constructor; auto].
  - intros H. apply step_inv in H as (x & rx & Hr & Tx & ->).
    exists [x]. split; [split; simpl; auto|repeat constructor].
    apply Hc. now destruct (is_newline x).
  - intros H. apply step_inv in H as (x & rx & Hr & Tx & ->).
    exists [x]. split; [split; simpl; auto|repeat constructor; auto].
  - rewrite in_flat_map. intros (st1 & H1 & H2). destruct Hc as [Ha Hb].
    apply (IHr1 Ha) in H1 as (w1 & R1 & P1). apply (IHr2 Hb) in H2 as (w2 & R2 & P2).
    exists (w1 ++ w2). split; [eapply reaches_trans; eauto|].
    apply Forall_app. auto.
  - rewrite in_app_iff. destruct Hc as [Ha Hb]. intros [H|H]; eauto.
  - apply rep_consumes. auto.
  - rewrite in_map_iff. intros (st1 & <- & H1).
    apply (IHr Hc) in H1 as (w & [R1 R2] & P). exists w.
    split; [|exact P]. destruct gid; split; assumption.
Qed.

Lemma ms_lits_reaches w : forall st st',
  In st' (ms (lits w) st) -> reaches st st' w /\ caps st' = caps st.
Proof.
  induction w as [|c w IH]; intros st st' H.
  - destruct H as [<-|[]]. split; [apply reaches_refl|reflexivity].
  - cbn [lits fold_right ms] in H. fold (lits w) in H.
    apply in_flat_map in H as (y & Hy & Hx).
    apply step_inv in Hy as (x & rx & Er & Tx & Ey). subst y.
    apply Ascii.eqb_eq in Tx. subst x.
    apply IH in Hx as [[R1 R2] Hc]. cbn [right prev caps] in *.
    split; [split|]; simpl; [rewrite Er; now rewrite R1|exact R2|exact Hc].
Qed.

(** ** Patterns with and without groups *)

Lemma ms_seq_app a : forall b st,
  ms (seq_app a b) st = flat_map (ms b) (ms a st).
Proof.
  induction a; intros b st; try reflexivity.
  - cbn [seq_app ms flat_map]. now rewrite app_nil_r.
  - cbn [seq_app ms]. rewrite flat_map_assoc.
    apply flat_map_ext. intros x. apply IHa2.
Qed.

Lemma step_nocaps test st : map nocaps (step test st) = step test (nocaps st).
Proof.
  unfold step, nocaps. cbn [right caps]. destruct (right st) as [|c r]; [reflexivity|].
  destruct (test c); reflexivity.
Qed.

Lemma guard_nocaps b st : map nocaps (guard b st) = guard b (nocaps st).
Proof. destruct b; reflexivity. Qed.

Lemma rep_nocaps (body body' : mstate -> list mstate) :
  (forall st, map nocaps (body st) = body' (nocaps st)) ->
  forall n lo st, map nocaps (rep body n lo st) = rep body' n lo (nocaps st).
Proof.
  intros Hb. induction n as [|n IH]; intros lo st; cbn [rep].
  - apply guard_nocaps.
  - rewrite map_app, guard_nocaps, map_flat_map. f_equal.
    rewrite <- Hb, flat_map_map. apply flat_map_ext. intros x. apply IH.
Qed.

(** The groups of a pattern decide nothing but the captures. *)
Lemma ms_flatten r : forall st,
  map nocaps (ms r st) = ms (flatten r) (nocaps st).
Proof.
  induction r; intros st; cbn [ms flatten];
    try apply step_nocaps; try apply guard_nocaps.
  - reflexivity.
  - rewrite ms_seq_app, map_flat_map, <- IHr1, flat_map_map.
    apply flat_map_ext. intros x. apply IHr2.
  - now rewrite map_app, IHr1, IHr2.
  - apply rep_nocaps. exact IHr.
  - rewrite map_map, <- IHr. apply map_ext. intros x. now destruct gid.
Qed.

Lemma first_match_flatten r ma all p text :
  first_match (flatten r) ma all (MState p text [])
  = option_map nocaps (first_match r ma all (MState p text [])).
Proof.
  unfold first_match.
  assert (E : ms (flatten r) (MState p text [])
              = map nocaps (ms r (MState p text []))).
  { symmetry. apply (ms_flatten r (MState p text [])). }
  rewrite E, find_map. reflexivity.
Qed.

(** ** A line feed behind the subject *)

Lemma ends_with_newline_app w s :
  s <> [] -> ends_with_newline (w ++ s) = ends_with_newline s.
Proof.
  intros Hs. unfold ends_with_newline. rewrite rev_app_distr.
  destruct (rev s) as [|c r] eqn:E; [|reflexivity].
  apply (f_equal (@rev ascii)) in E. rewrite rev_involutive in E. contradiction.
Qed.

Lemma reaches_no_newline st st' w :
  reaches st st' w -> ends_with_newline (right st) = false ->
  ends_with_newline (right st') = false.
Proof.
  intros [E _] H. destruct (right st') as [|c r] eqn:Er; [reflexivity|].
  rewrite E, ends_with_newline_app in H by discriminate. exact H.
Qed.

Lemma no_newline_at_end w st :
  ends_with_newline (w ++ right st) = false -> at_end st = true -> right st = [].
Proof.
  unfold at_end. destruct (right st) as [|c [|c' r]]; [reflexivity| |discriminate].
  intros H Hc. unfold ends_with_newline in H. rewrite rev_app_distr in H.
  simpl in H. congruence.
Qed.

Lemma with_nl_consumed st st' w :
  reaches st st' w -> consumed (with_nl st) (with_nl st') = consumed st st'.
Proof.
  intros R. rewrite (reaches_consumed _ _ _ R). destruct R as [E _].
  unfold consumed, with_nl. cbn [right]. rewrite E, <- app_assoc.
  apply firstn_length_app.
Qed.

Lemma step_with_nl test st st' :
  In st' (step test st) -> In (with_nl st') (step test (with_nl st)).
Proof.
  intros H. apply step_inv in H as (c & rc & E & T & ->).
  unfold step, with_nl. cbn [right prev caps]. rewrite E. cbn [app].
  rewrite T. left. reflexivity.
Qed.

Lemma rep_mono (body : mstate -> list mstate) n : forall lo st x,
  In x (rep body n lo st) -> In x (rep body (S n) lo st).
Proof.
  induction n as [|n IH]; intros lo st x H.
  - cbn [rep] in *. apply in_or_app. now right.
  - cbn [rep] in H. apply in_app_or in H as [H|H].
    + change (rep body (S (S n)) lo st)
        with (flat_map (rep body (S n) (pred lo)) (body st) ++ guard (Nat.eqb lo 0) st).
      apply in_or_app. left. apply in_flat_map in H as (y & Hy & Hx).
      apply in_flat_map. exists y. split; [assumption|]. now apply IH.
    + change (rep body (S (S n)) lo st)
        with (flat_map (rep body (S n) (pred lo)) (body st) ++ guard (Nat.eqb lo 0) st).
      apply in_or_app. now right.
Qed.

Lemma rep_mono_le (body : mstate -> list mstate) n m lo st x :
  n <= m -> In x (rep body n lo st) -> In x (rep body m lo st).
Proof.
  induction 1 as [|m _ IH]; [auto|]. intros H. apply rep_mono. auto.
Qed.

Lemma rep_with_nl (body : mstate -> list mstate) :
  (forall st st', In st' (body st) -> exists w, reaches st st' w) ->
  (forall st st', In st' (body st) -> ends_with_newline (right st) = false ->
                  In (with_nl st') (body (with_nl st))) ->
  forall n lo st st',
    In st' (rep body n lo st) -> ends_with_newline (right st) = false ->
    In (with_nl st') (rep body n lo (with_nl st)).
Proof.
  intros Hr Hb. induction n as [|n IH]; intros lo st st' H Hn.
  - cbn [rep] in *. apply guard_inv in H as [-> ->]. left. reflexivity.
  - cbn [rep] in *. apply in_app_or in H as [H|H]; apply in_or_app.
    + left. apply in_flat_map in H as (y & Hy & Hx). apply in_flat_map.
      exists (with_nl y). split; [now apply Hb|].
      apply IH; [assumption|].
      destruct (Hr _ _ Hy) as [w R]. eapply reaches_no_newline; eauto.
    + right. apply guard_inv in H as [-> ->]. left. reflexivity.
Qed.

(** A match in [s], when [s] does not end with a line feed, is a match in
    [s] followed by a line feed: nothing but [\Z] tells the two apart, and
    [$] holds before the line feed. *)
Lemma ms_with_nl r :
  eos_free r = true ->
  forall st st',
    In st' (ms r st) -> ends_with_newline (right st) = false ->
    In (with_nl st') (ms r (with_nl st)).
Proof.
  induction r; intros Hf st st' H Hn; cbn [ms eos_free] in *;
    try (now apply step_with_nl).
  - destruct H as [<-|[]]. left. reflexivity.
  - apply guard_inv in H as [E ->]. unfold with_nl at 2. cbn [prev].
    rewrite E. left. reflexivity.
  - apply guard_inv in H as [E ->].
    assert (Hr : right st = []).
    { unfold at_end in E. destruct (right st) as [|c [|c' r]] eqn:Er;
        [reflexivity| |discriminate].
      unfold ends_with_newline in Hn. simpl in Hn. congruence. }
    unfold at_end, with_nl. cbn [right]. rewrite Hr. left. reflexivity.
  - discriminate.
  - apply guard_inv in H as [E ->].
    assert (Hb : at_boundary (with_nl st) = true).
    { unfold at_boundary, with_nl in *. cbn [prev right].
      destruct (right st); [exact E|exact E]. }
    rewrite Hb. left. reflexivity.
  - apply andb_prop in Hf as [H1 H2].
    apply in_flat_map in H as (y & Hy & Hx). apply in_flat_map.
    exists (with_nl y). split; [now apply IHr1|].
    apply IHr2; auto.
    destruct (ms_reaches _ _ _ Hy) as [w R]. eapply reaches_no_newline; eauto.
  - apply andb_prop in Hf as [H1 H2].
    apply in_app_or in H as [H|H]; apply in_or_app; [left|right]; auto.
  - apply (rep_mono_le (ms r) (rep_bound lo hi st)).
    + unfold rep_bound, with_nl. cbn [right]. destruct hi; [lia|].
      rewrite length_app. lia.
    + apply rep_with_nl; auto. apply ms_reaches.
  - apply in_map_iff in H as (y & <- & Hy). apply in_map_iff.
    exists (with_nl y). split; [|now apply IHr].
    destruct (ms_reaches _ _ _ Hy) as [w R].
    destruct gid; [|reflexivity].
    unfold close_group. rewrite (with_nl_consumed _ _ _ R). reflexivity.
Qed.

Lemma match_with_nl r v :
  eos_free r = true -> ends_with_newline v = false ->
  truthy (pat_match r v) = true -> truthy (pat_match r (v ++ [nl])) = true.
Proof.
  intros Hf Hn. unfold pat_match. rewrite !first_match_hd.
  destruct (ms r (MState None v [])) as [|st' l] eqn:E; [discriminate|]. intros _.
  assert (H : In (with_nl st') (ms r (with_nl (MState None v [])))).
  { apply ms_with_nl; auto. rewrite E. left. reflexivity. }
  unfold with_nl in H at 2. cbn [prev right caps] in H.
  destruct (ms r (MState None (v ++ [nl]) [])); [destruct H|reflexivity].
Qed.

(** ** The loop, one match at a time *)

Lemma scan_skip r w : forall p rest,
  scan r p (w ++ rest) (length w) = scan r (prev_after p w) rest 0.
Proof.
  induction w as [|c w IH]; intros p rest; simpl.
  - destruct rest; reflexivity.
  - apply IH.
Qed.

Lemma scan_nil_nomatch r p :
  first_match r false false (MState p [] []) = None -> scan r p [] 0 = [].
Proof. simpl. intros ->. reflexivity. Qed.

Lemma scan_nomatch r p c text :
  first_match r false false (MState p (c :: text) []) = None ->
  scan r p (c :: text) 0 = Copy c :: scan r (Some c) text 0.
Proof. simpl. intros ->. reflexivity. Qed.

(** A match that is not empty: the loop reports it and goes on behind it. *)
Lemma scan_hit r p text st' w :
  first_match r false false (MState p text []) = Some st' ->
  reaches (MState p text []) st' w -> w <> [] ->
  scan r p text 0 =
  Hit (MObj w (caps st')) :: scan r (prev st') (right st') 0.
Proof.
  intros F R Hw.
  pose proof (reaches_consumed _ _ _ R) as HC.
  pose proof (reaches_len _ _ _ R) as HL. simpl in HL.
  destruct R as [R1 R2]. simpl in R1, R2.
  destruct w as [|c w]; [congruence|].
  destruct text as [|c' text]; [discriminate|].
  simpl in R1. injection R1 as <- ->.
  cbn [scan]. rewrite F. unfold match_len. cbn [right]. rewrite HL.
  simpl length.
  match goal with
  | |- context [?a + ?b - ?b] => replace (a + b - b) with a by lia
  end.
  unfold mobj_of. rewrite HC. f_equal.
  rewrite scan_skip. rewrite R2. reflexivity.
Qed.

Lemma hits_app a b : hits (a ++ b) = hits a ++ hits b.
Proof.
  induction a as [|[c|m] a IH]; simpl; congruence.
Qed.

Lemma in_hits m evs : In (Hit m) evs -> In m (hits evs).
Proof.
  induction evs as [|[c|m'] evs IH]; simpl; [tauto| |].
  - intros [H|H]; [discriminate|auto].
  - intros [H|H]; [injection H as ->; auto|auto].
Qed.

Lemma hits_erase evs :
  map whole (hits (map erase_event evs)) = map whole (hits evs).
Proof.
  induction evs as [|[c|m] evs IH]; simpl; congruence.
Qed.

(** Every match the loop reports is a match of the pattern at a position of
    the text. *)
Lemma scan_hits_inv r text : forall p k m,
  In m (hits (scan r p text k)) ->
  exists pre post st',
    text = pre ++ post /\
    In st' (ms r (MState (prev_after p pre) post [])) /\
    m = mobj_of (MState (prev_after p pre) post []) st'.
Proof.
  induction text as [|c t IH]; intros p k m H.
  - destruct k; [|destruct H]. cbn [scan] in H.
    destruct (first_match r false false (MState p [] [])) as [st1|] eqn:F1;
      [|destruct H].
    assert (H1 : exists st', In st' (ms r (MState p [] [])) /\
                             m = mobj_of (MState p [] []) st').
    { destruct (match_len _ st1).
      - destruct H as [<-|H].
        + exists st1. split; [eapply first_match_in; eauto|reflexivity].
        + destruct (first_match r true false (MState p [] [])) as [st2|] eqn:F2;
            [|destruct H].
          destruct H as [<-|[]].
          exists st2. split; [eapply first_match_in; eauto|reflexivity].
      - destruct H as [<-|[]].
        exists st1. split; [eapply first_match_in; eauto|reflexivity]. }
    destruct H1 as (st' & Hi & ->). exists [], [], st'. auto.
  - assert (Hrec : forall k', In m (hits (scan r (Some c) t k')) ->
              exists pre post st',
                c :: t = pre ++ post /\
                In st' (ms r (MState (prev_after p pre) post [])) /\
                m = mobj_of (MState (prev_after p pre) post []) st').
    { intros k' Hk. apply IH in Hk as (pre & post & st' & -> & Hi & ->).
      exists (c :: pre), post, st'. auto. }
    destruct k as [|k]; [|cbn [scan] in H; eauto].
    cbn [scan] in H.
    assert (Hhere : forall ma st1, first_match r ma false (MState p (c :: t) []) = Some st1 ->
              m = mobj_of (MState p (c :: t) []) st1 ->
              exists pre post st',
                c :: t = pre ++ post /\
                In st' (ms r (MState (prev_after p pre) post [])) /\
                m = mobj_of (MState (prev_after p pre) post []) st').
    { intros ma st1 F ->. exists [], (c :: t), st1.
      split; [reflexivity|]. split; [eapply first_match_in; eauto|reflexivity]. }
    destruct (first_match r false false (MState p (c :: t) [])) as [st1|] eqn:F1.
    + destruct (match_len _ st1).
      * destruct H as [<-|H]; [eapply Hhere; eauto|].
        destruct (first_match r true false (MState p (c :: t) [])) as [st2|] eqn:F2.
        -- destruct H as [<-|H]; [eapply Hhere; eauto|].
           destruct (match_len _ st2); [cbn [hits] in H|]; eauto.
        -- cbn [hits] in H. eauto.
      * destruct H as [<-|H]; [eapply Hhere; eauto|]. eauto.
    + cbn [hits] in H. eauto.
Qed.

Lemma scan_no_hits r text : forall p,
  hits (scan r p text 0) = [] ->
  forall tmpl, flat_map (render tmpl) (scan r p text 0) = text.
Proof.
  induction text as [|c t IH]; intros p H tmpl.
  - cbn [scan] in *. destruct (first_match r false false (MState p [] [])).
    + destruct (match_len _ _); discriminate H.
    + reflexivity.
  - cbn [scan] in *. destruct (first_match r false false (MState p (c :: t) [])).
    + destruct (match_len _ _); discriminate H.
    + cbn [hits] in H. cbn [flat_map render app]. f_equal. now apply IH.
Qed.

Lemma search_none r text :
  pat_search r text = None ->
  pat_findall r text = []
  /\ forall tmpl, flat_map (render tmpl) (finditer r text) = text.
Proof.
  unfold pat_search, pat_findall. intros H.
  assert (E : hits (finditer r text) = []) by (destruct (hits (finditer r text)); [reflexivity|discriminate]).
  rewrite E. split; [reflexivity|]. now apply scan_no_hits.
Qed.

Lemma scan_flatten r text : forall p k,
  scan (flatten r) p text k = map erase_event (scan r p text k).
Proof.
  induction text as [|c t IH]; intros p k.
  - destruct k; [|reflexivity]. cbn [scan]. rewrite !first_match_flatten.
    destruct (first_match r false false (MState p [] [])) as [st1|]; [|reflexivity].
    cbn [option_map]. unfold match_len. cbn [nocaps right].
    destruct (length [] - length (right st1)); [|reflexivity].
    cbn [map erase_event]. f_equal.
    destruct (first_match r true false (MState p [] [])) as [st2|]; reflexivity.
  - destruct k as [|k]; [|cbn [scan]; apply IH].
    cbn [scan]. rewrite !first_match_flatten.
    destruct (first_match r false false (MState p (c :: t) [])) as [st1|];
      [|cbn [option_map map erase_event]; f_equal; apply IH].
    cbn [option_map]. unfold match_len. cbn [nocaps right].
    destruct (length (c :: t) - length (right st1));
      [|cbn [map erase_event]; f_equal; apply IH].
    cbn [map erase_event]. f_equal.
    destruct (first_match r true false (MState p (c :: t) [])) as [st2|];
      [|cbn [option_map map erase_event]; f_equal; apply IH].
    cbn [option_map nocaps right map erase_event]. f_equal.
    destruct (length (c :: t) - length (right st2));
      [cbn [map erase_event]; f_equal|]; apply IH.
Qed.

(** The text is what the loop passes: the characters copied and the
    matches. *)
Lemma scan_text r text : forall p,
  flat_map (fun e => match e with Copy c => [c] | Hit m => whole m end)
           (scan r p text 0) = text.
Proof.
  remember (length text) as n eqn:En. revert text En.
  induction n as [n IH] using lt_wf_ind. intros text En p.
  destruct (first_match r false false (MState p text [])) as [st1|] eqn:F.
  - destruct (first_match_reaches _ _ _ _ _ F) as [w R].
    destruct w as [|x w].
    + (* an empty match *)
      pose proof (reaches_consumed _ _ _ R) as HC.
      pose proof (reaches_len _ _ _ R) as HL. cbn [right length] in HL.
      destruct text as [|c t].
      * cbn [scan]. rewrite F. unfold match_len. cbn [right]. rewrite HL.
        cbn [length Nat.add Nat.sub]. rewrite Nat.sub_diag.
        unfold mobj_of. rewrite HC. cbn [flat_map whole app].
        destruct (first_match r true false (MState p [] [])) as [st2|] eqn:F2;
          [|reflexivity].
        exfalso. unfold first_match in F2. apply find_some in F2 as [Hi Ha].
        apply ms_reaches in Hi as [w2 R2]. apply reaches_len in R2.
        cbn [right length] in R2. unfold accept in Ha. cbn [right length] in Ha.
        assert (length (right st2) = 0) by lia.
        rewrite H in Ha. discriminate Ha.
      * cbn [scan]. rewrite F. unfold match_len. cbn [right]. rewrite HL.
        cbn [Nat.add]. rewrite Nat.sub_diag.
        unfold mobj_of. rewrite HC. cbn [flat_map whole app].
        destruct (first_match r true false (MState p (c :: t) [])) as [st2|] eqn:F2.
        -- destruct (first_match_reaches _ _ _ _ _ F2) as [w2 R2].
           pose proof (reaches_consumed _ _ _ R2) as HC2.
           pose proof (reaches_len _ _ _ R2) as HL2. cbn [right] in HL2.
           unfold first_match in F2. apply find_some in F2 as [_ Ha].
           unfold accept in Ha. cbn [right] in Ha.
           destruct w2 as [|y w2].
           { cbn [length Nat.add] in HL2. rewrite <- HL2, Nat.eqb_refl in Ha.
             discriminate Ha. }
           destruct R2 as [R2a R2b]. cbn [right prev] in R2a, R2b.
           cbn [app] in R2a. injection R2a as <- ->.
           unfold mobj_of. rewrite HC2. cbn [flat_map whole].
           replace (length (right st1) - length (right st2)) with (S (length w2))
             by (cbn [length Nat.add] in HL, HL2; lia).
           cbn [app]. f_equal. rewrite scan_skip. f_equal.
           eapply IH; [|reflexivity]. subst n. cbn [length]. rewrite length_app. lia.
        -- cbn [flat_map app]. f_equal. eapply IH; [|reflexivity].
           subst n. cbn [length]. lia.
    + rewrite (scan_hit _ _ _ _ (x :: w) F R) by discriminate.
      cbn [flat_map whole]. destruct R as [Ra Rb]. cbn [right] in Ra.
      rewrite (IH (length (right st1))) with (text := right st1);
        [symmetry; exact Ra| |reflexivity].
      subst n. apply (f_equal (@length ascii)) in Ra.
      rewrite length_app in Ra. cbn [length] in Ra. lia.
  - destruct text as [|c t].
    + now rewrite scan_nil_nomatch.
    + rewrite scan_nomatch by assumption. cbn [flat_map app]. f_equal.
      eapply IH; [|reflexivity]. subst n. cbn [length]. lia.
Qed.

(** ** Escaped words *)

Lemma special_eqb c x :
  is_special c = false -> is_special x = true -> Ascii.eqb c x = false.
Proof.
  intros H1 H2. destruct (Ascii.eqb c x) eqn:E; [|reflexivity].
  apply Ascii.eqb_eq in E. congruence.
Qed.

Lemma parse_escape_special c :
  is_special c = true -> parse_escape c = Some (Lit c, true).
Proof.
  destruct c as [[] [] [] [] [] [] [] []]; intros H;
    vm_compute in H; try discriminate H; reflexivity.
Qed.

Lemma parse_simple_plain c s :
  is_special c = false -> parse_simple c s = Some (Lit c, true, s).
Proof.
  intros H. unfold parse_simple.
  rewrite !(special_eqb c _ H) by reflexivity. reflexivity.
Qed.

Lemma quant_at_escape w : quant_at (re_escape w) = NoQuant.
Proof.
  destruct w as [|c w]; [reflexivity|]. simpl.
  destruct (is_special c) eqn:E; [reflexivity|].
  unfold quant_at. rewrite !(special_eqb c _ E) by reflexivity. reflexivity.
Qed.

(** An escaped word parses to the literals of the word. *)
Lemma parse_items_escape w : forall f g,
  length w < f -> parse_items f (re_escape w) g = Some (lits w, [], g).
Proof.
  induction w as [|c w IH]; intros f g Hf; (destruct f as [|f]; [simpl in Hf; lia|]).
  - reflexivity.
  - simpl in Hf. cbn [re_escape lits fold_right].
    destruct (is_special c) eqn:E.
    + cbn [parse_items]. change (Ascii.eqb "\" "|" || Ascii.eqb "\" ")")%bool with false.
      change (Ascii.eqb "\" "(") with false. cbv iota.
      unfold parse_simple. change (Ascii.eqb "\" "\") with true. cbv iota.
      rewrite (parse_escape_special _ E). cbn [opt_bind fst snd].
      unfold with_quant. rewrite quant_at_escape.
      fold (lits w). rewrite IH by lia. reflexivity.
    + cbn [parse_items]. rewrite !(special_eqb c _ E) by reflexivity.
      cbn [orb]. cbv iota. rewrite (parse_simple_plain c _ E).
      unfold with_quant. rewrite quant_at_escape.
      fold (lits w). rewrite IH by lia. reflexivity.
Qed.

Lemma re_escape_length w : length w <= length (re_escape w).
Proof.
  induction w as [|c w IH]; simpl; [lia|]. destruct (is_special c); simpl; lia.
Qed.

Lemma sre_parse_escape w : sre_parse (re_escape w) = Some (lits w).
Proof.
  unfold sre_parse.
  replace (2 * length (re_escape w) + 2) with (S (S (2 * length (re_escape w)))) by lia.
  cbn [parse_sub]. rewrite parse_items_escape; [reflexivity|].
  pose proof (re_escape_length w). lia.
Qed.

Lemma ignorecase_lits w : ignorecase (lits w) = Some (litsI w).
Proof.
  induction w as [|c w IH]; [reflexivity|].
  cbn [lits litsI fold_right ignorecase]. fold (lits w). rewrite IH. reflexivity.
Qed.

(** [re.compile(re.escape(word), re.IGNORECASE)] never fails, and the
    pattern is the word, letter by letter. *)
Lemma compile_escaped w : re_compile (re_escape w) true = Some (litsI w).
Proof.
  unfold re_compile. rewrite sre_parse_escape. cbn [opt_bind]. apply ignorecase_lits.
Qed.

(** * Properties of the program *)

(** ** The patterns compile *)

Lemma compile_email_v :
  re_compile (lit "^[a-zA-Z0-9._%+-]+@[a-zA-Z0-9.-]+\.[a-zA-Z]{2,}$") false
  = Some email_anchored_re.
Proof. reflexivity. Qed.

Lemma compile_phone_v :
  re_compile (lit "^(\+62|62|0)[0-9]{9,12}$") false = Some phone_anchored_re.
Proof. reflexivity. Qed.

Lemma compile_url_v :
  re_compile (lit "^https?://(?:www\.)?[-a-zA-Z0-9@:%._\+~#=]{1,256}\.[a-zA-Z0-9()]{1,6}\b(?:[-a-zA-Z0-9()@:%_\+.~#?&/=]*)$") false
  = Some url_anchored_re.
Proof. reflexivity. Qed.

Lemma compile_nik : re_compile (lit "^\d{16}$") false = Some nik_re.
Proof. reflexivity. Qed.

Lemma compile_email :
  re_compile (lit "\b[a-zA-Z0-9._%+-]+@[a-zA-Z0-9.-]+\.[a-zA-Z]{2,}\b") false
  = Some email_re.
Proof. reflexivity. Qed.

Lemma compile_phone :
  re_compile (lit "(\+62|62|0)[0-9]{9,12}") false = Some phone_re.
Proof. reflexivity. Qed.

Lemma compile_url :
  re_compile (lit "https?://(?:www\.)?[-a-zA-Z0-9@:%._\+~#=]{1,256}\.[a-zA-Z0-9()]{1,6}\b(?:[-a-zA-Z0-9()@:%_\+.~#?&/=]*)") false
  = Some url_re.
Proof. reflexivity. Qed.

Lemma compile_hashtag : re_compile (lit "#\w+") false = Some (tag_re "#").
Proof. reflexivity. Qed.

Lemma compile_mention : re_compile (lit "@\w+") false = Some (tag_re "@").
Proof. reflexivity. Qed.

Lemma compile_date :
  re_compile (lit "\b\d{1,2}[-/]\d{1,2}[-/]\d{4}\b") false = Some date_re.
Proof. reflexivity. Qed.

Lemma compile_email_mask :
  re_compile (lit "\b([a-zA-Z0-9._%+-]+)@([a-zA-Z0-9.-]+\.[a-zA-Z]{2,})\b") false
  = Some email_mask_re.
Proof. reflexivity. Qed.

Lemma compile_phone_mask :
  re_compile (lit "(\+62|62|0)(\d{5,8})(\d{4})") false = Some phone_mask_re.
Proof. reflexivity. Qed.

Lemma compile_html_tag : re_compile (lit "<[^>]+>") false = Some html_tag_re.
Proof. reflexivity. Qed.

Lemma compile_spaces : re_compile (lit "\s+") false = Some spaces_re.
Proof. reflexivity. Qed.

Lemma validate_email_eq s :
  RegexValidator.validate_email s = Some (truthy (pat_match email_anchored_re s)).
Proof. unfold RegexValidator.validate_email, re_match. now rewrite compile_email_v. Qed.

Lemma validate_phone_id_eq s :
  RegexValidator.validate_phone_id s = Some (truthy (pat_match phone_anchored_re s)).
Proof. unfold RegexValidator.validate_phone_id, re_match. now rewrite compile_phone_v. Qed.

Lemma validate_url_eq s :
  RegexValidator.validate_url s = Some (truthy (pat_match url_anchored_re s)).
Proof. unfold RegexValidator.validate_url, re_match. now rewrite compile_url_v. Qed.

Lemma validate_nik_eq s :
  RegexValidator.validate_nik s = Some (truthy (pat_match nik_re s)).
Proof. unfold RegexValidator.validate_nik, re_match. now rewrite compile_nik. Qed.

Lemma validate_password_eq s :
  exists up lo dg sp,
    RegexValidator.validate_password s
    = Some [ ("min_length"%string, Nat.leb 8 (length s));
             ("has_uppercase"%string, up); ("has_lowercase"%string, lo);
             ("has_digit"%string, dg); ("has_special"%string, sp) ].
Proof.
  unfold RegexValidator.validate_password, re_search.
  change (re_compile (lit "[A-Z]") false)
    with (Some (Seq (InSet false [SRange "A" "Z"]) Eps)).
  change (re_compile (lit "[a-z]") false)
    with (Some (Seq (InSet false [SRange "a" "z"]) Eps)).
  change (re_compile (lit "\d") false) with (Some (Seq digit_set Eps)).
  assert (E : exists r, re_compile RegexValidator.special_pattern false = Some r)
    by (eexists; reflexivity).
  destruct E as [r ->]. cbn [opt_bind]. eauto.
Qed.

Lemma extract_emails_eq text :
  RegexExtractor.extract_emails text = Some (pat_findall email_re text).
Proof. unfold RegexExtractor.extract_emails, re_findall. now rewrite compile_email. Qed.

Lemma extract_phone_numbers_eq text :
  RegexExtractor.extract_phone_numbers text = Some (pat_findall phone_re text).
Proof. unfold RegexExtractor.extract_phone_numbers, re_findall. now rewrite compile_phone. Qed.

Lemma extract_urls_eq text :
  RegexExtractor.extract_urls text = Some (pat_findall url_re text).
Proof. unfold RegexExtractor.extract_urls, re_findall. now rewrite compile_url. Qed.

Lemma extract_hashtags_eq text :
  RegexExtractor.extract_hashtags text = Some (pat_findall (tag_re "#") text).
Proof.
  unfold RegexExtractor.extract_hashtags, re_findall. now rewrite compile_hashtag.
Qed.

Lemma extract_mentions_eq text :
  RegexExtractor.extract_mentions text = Some (pat_findall (tag_re "@") text).
Proof.
  unfold RegexExtractor.extract_mentions, re_findall. now rewrite compile_mention.
Qed.

Lemma extract_dates_eq text :
  RegexExtractor.extract_dates text = Some (pat_findall date_re text).
Proof. unfold RegexExtractor.extract_dates, re_findall. now rewrite compile_date. Qed.

Lemma mask_email_eq text :
  RegexReplacer.mask_email text
  = Some (flat_map (render email_mask_template) (finditer email_mask_re text)).
Proof. unfold RegexReplacer.mask_email, re_sub. now rewrite compile_email_mask. Qed.

Lemma mask_phone_eq text :
  RegexReplacer.mask_phone text
  = Some (flat_map (render phone_mask_template) (finditer phone_mask_re text)).
Proof. unfold RegexReplacer.mask_phone, re_sub. now rewrite compile_phone_mask. Qed.

Lemma remove_html_tags_eq text :
  RegexReplacer.remove_html_tags text
  = Some (flat_map (render []) (finditer html_tag_re text)).
Proof. unfold RegexReplacer.remove_html_tags, re_sub. now rewrite compile_html_tag. Qed.

(** ** Phone numbers in a text *)

Lemma phone_prefix_in st y :
  In y (ms phone_prefix_re st) ->
  exists w, In w phone_prefixes /\ reaches st y w /\ caps y = caps st.
Proof.
  unfold phone_prefix_re, phone_prefixes. cbn [ms]. rewrite !in_app_iff.
  intros [H|[H|H]]; apply ms_lits_reaches in H as [R C];
    eexists; (split; [|split; [exact R|exact C]]); simpl; tauto.
Qed.

(** The only group of the pattern holds the prefix. *)
Lemma phone_match_group st st' :
  caps st = [] -> In st' (ms phone_re st) ->
  exists w, In w phone_prefixes /\ caps st' = [(1, w)].
Proof.
  intros Hc H. unfold phone_re, digit_range in H. cbn [ms] in H.
  apply in_flat_map in H as (y & Hy & H).
  apply in_map_iff in Hy as (z & <- & Hz).
  apply phone_prefix_in in Hz as (w & Hw & R & Cz).
  rewrite flat_map_unit in H. apply rep_step_in in H as (d & _ & _ & _ & _ & Cd).
  exists w. split; [exact Hw|]. rewrite Cd. cbn [close_group caps].
  rewrite (reaches_consumed _ _ _ R). congruence.
Qed.

(** C1: [extract_phone_numbers] does not return the phone numbers it finds
    but, of each, the text of the one group of the pattern, which is the
    prefix: for a text with two numbers the result is [["0"; "+62"]], and
    whatever the text, every item of the result is one of [+62], [62],
    [0]. *)
Theorem extract_phone_numbers_returns_prefixes :
  RegexExtractor.extract_phone_numbers (lit "Telepon: 081234567890 atau +6287654321098")
  = Some [lit "0"; lit "+62"]
  /\ forall (text : str) (l : list str) (x : str),
       RegexExtractor.extract_phone_numbers text = Some l ->
       In x l -> In x phone_prefixes.
Proof.
  split; [vm_compute; reflexivity|].
  intros text l x E Hx. rewrite extract_phone_numbers_eq in E.
  injection E as <-. unfold pat_findall in Hx. cbn [ngroups phone_re] in Hx.
  apply in_map_iff in Hx as (m & <- & Hm).
  apply scan_hits_inv in Hm as (pre & post & st' & _ & Hi & ->).
  apply phone_match_group in Hi as (w & Hw & Hc); [|reflexivity].
  unfold mobj_of, group. cbn [groups]. rewrite Hc. cbn [lookup Nat.eqb]. exact Hw.
Qed.

Lemma extract_phone_numbers_witness : In (lit "0") phone_prefixes.
Proof.
  apply (proj2 extract_phone_numbers_returns_prefixes
           (lit "081234567890") [lit "0"] (lit "0")).
  - vm_compute. reflexivity.
  - left. reflexivity.
Defined.

(** ** Accepted values, extracted *)

Lemma url_re_split : url_re = seq_app url_head url_path.
Proof. reflexivity. Qed.

Lemma url_anchored_split : url_anchored_re = Seq Bol (seq_app url_re (Seq Eol Eps)).
Proof. reflexivity. Qed.

(** Every character of a URL, the scheme included, is a character of the
    path set. *)
Lemma url_consumes_path : consumes_only path_test url_re.
Proof.
  unfold url_re, url_from_http, url_after_scheme, host_set, tld_set, path_set.
  cbn [consumes_only lits lit list_ascii_of_string fold_right].
  repeat split; try reflexivity; auto using host_is_path, tld_is_path.
Qed.

Lemma url_end p : first_match url_re false false (MState p [] []) = None.
Proof. reflexivity. Qed.

Lemma url_roundtrip s :
  ends_with_newline s = false ->
  truthy (pat_match url_anchored_re s) = true ->
  pat_findall url_re s = [s].
Proof.
  intros Hn Hv. unfold pat_match in Hv. rewrite first_match_hd in Hv.
  rewrite url_anchored_split in Hv. cbn [ms guard prev flat_map] in Hv.
  rewrite app_nil_r, ms_seq_app in Hv.
  set (st0 := MState None s []) in *.
  destruct (flat_map (ms (Seq Eol Eps)) (ms url_re st0)) as [|z zs] eqn:E;
    [discriminate|]. clear Hv.
  assert (Hz : In z (flat_map (ms (Seq Eol Eps)) (ms url_re st0)))
    by (rewrite E; left; reflexivity).
  clear E. apply in_flat_map in Hz as (st2 & H2 & Hz).
  cbn [ms] in Hz. apply in_flat_map in Hz as (st3 & H3 & _).
  apply guard_inv in H3 as [He ->].
  (* the whole string is made of characters of the path set *)
  destruct (ms_consumes_only path_test url_re url_consumes_path _ _ H2)
    as (w & [Ra Rb] & Pw).
  cbn [st0 right prev] in Ra, Rb.
  assert (Hr : right st2 = []) by (apply (no_newline_at_end w); [now rewrite <- Ra|exact He]).
  rewrite Hr, app_nil_r in Ra. subst w.
  (* the head of the URL has a first match, and the path takes the rest *)
  rewrite url_re_split, ms_seq_app in H2.
  destruct (ms url_head st0) as [|x0 xs] eqn:Eh; [destruct H2|].
  assert (Hx0 : In x0 (ms url_head st0)) by (rewrite Eh; left; reflexivity).
  destruct (ms_reaches _ _ _ Hx0) as (w0 & [R0a R0b]).
  cbn [st0 right prev] in R0a, R0b.
  assert (P0 : all_pass path_test (right x0)).
  { rewrite R0a in Pw. eapply all_pass_suffix; eauto. }
  assert (F : first_match url_re false false st0
              = Some (MState (prev_after (prev x0) (right x0)) [] (caps x0))).
  { rewrite first_match_hd, url_re_split, ms_seq_app, Eh.
    cbn [flat_map]. apply hd_error_app_some.
    unfold url_path, path_set. cbn [ms]. rewrite flat_map_unit.
    rewrite hd_error_map, flat_map_unit.
    destruct x0 as [p0 r0 c0]. cbn [right prev caps rep_bound Nat.add] in *.
    assert (Hrep : hd_error (rep (step path_test) (length r0) 0
                               (MState p0 (r0 ++ []) c0))
                   = Some (MState (prev_after p0 r0) [] c0))
      by (apply rep_step_hd; [exact P0|exact I|lia]).
    rewrite app_nil_r in Hrep.
    match goal with
    | |- option_map ?f (hd_error ?l) = _ =>
        change (option_map f (hd_error l))
          with (option_map f (hd_error (rep (step path_test) (length r0) 0
                                          (MState p0 r0 c0))))
    end.
    rewrite Hrep. reflexivity. }
  unfold pat_findall, finditer. change (ngroups url_re) with 0.
  assert (Hs : s <> []).
  { intros ->. subst st0. cbn in Eh. discriminate Eh. }
  rewrite (scan_hit _ _ _ _ s F); [| |exact Hs].
  - cbn [prev right caps]. rewrite scan_nil_nomatch by apply url_end. reflexivity.
  - split; cbn [right prev]; [now rewrite app_nil_r|].
    rewrite R0b, <- prev_after_app. now rewrite <- R0a.
Qed.

(** The dot and the letters at the end of an address. *)
Lemma email_tail_hd t p cs :
  all_pass letter_test t -> 2 <= length t ->
  hd_error (ms (Seq (Lit ".") (Seq (Rep 2 None letter_set) (Seq Wordb Eps)))
               (MState p ("." :: t) cs))
  = Some (MState (prev_after (Some ".") t) [] cs).
Proof.
  intros Pt Lt. unfold letter_set. cbn [ms]. unfold step at 2.
  cbn [right caps]. change (Ascii.eqb "." ".") with true. cbv iota.
  cbn [flat_map]. rewrite app_nil_r.
  apply hd_error_flat_map
    with (x := MState (prev_after (Some ".") t) [] cs).
  - apply (rep_step_hd_end letter_test t (Some ".") cs); [exact Pt|].
    unfold rep_bound. cbn [right]. lia.
  - destruct (prev_after_last letter_test t (Some ".") Pt) as (c & Ec & Hc).
    { destruct t; [simpl in Lt; lia|discriminate]. }
    unfold at_boundary. cbn [prev right hd_error word_at]. rewrite Ec.
    cbn [word_at]. rewrite (letter_is_word _ Hc). reflexivity.
Qed.

Lemma email_tail_fail b p cs :
  all_pass letter_test b ->
  ms (Seq (Lit ".") (Seq (Rep 2 None letter_set) (Seq Wordb Eps))) (MState p b cs) = [].
Proof.
  intros Pb. cbn [ms]. unfold step. cbn [right].
  destruct b as [|c b]; [reflexivity|].
  inversion Pb as [|? ? Hc _]; subst. now rewrite (letter_not_dot _ Hc).
Qed.

Lemma email_domain_hd dd t p cs :
  all_pass domain_test dd -> 1 <= length dd ->
  all_pass letter_test t -> 2 <= length t ->
  hd_error
    (ms (Seq (Rep 1 None domain_set)
          (Seq (Lit ".") (Seq (Rep 2 None letter_set) (Seq Wordb Eps))))
        (MState p (dd ++ "." :: t) cs))
  = Some (MState (prev_after (Some ".") t) [] cs).
Proof.
  intros Pd Ld Pt Lt.
  change (ms (Seq ?a ?b) ?st) with (flat_map (ms b) (ms a st)) at 1.
  unfold domain_set at 1. cbn [ms rep_bound right].
  assert (Pw : all_pass domain_test (dd ++ "." :: t)).
  { apply Forall_app. split; [exact Pd|]. constructor; [reflexivity|].
    eapply Forall_impl; [|exact Pt]. apply letter_is_domain. }
  rewrite <- (app_nil_r (dd ++ "." :: t)) at 2.
  apply (rep_step_first_greedy domain_test _ [] cs _ (dd ++ "." :: t) p 1 _
           dd ("." :: t)); auto.
  - exact I.
  - rewrite !length_app. lia.
  - intros a b E Hl. rewrite app_nil_r.
    apply app_split_longer in E as (m & _ & E & Hm); [|exact Hl].
    destruct m as [|x m]; [congruence|]. injection E as _ E.
    apply email_tail_fail. rewrite E in Pt. eapply all_pass_suffix; eauto.
  - rewrite app_nil_r. now apply email_tail_hd.
Qed.

(** What the validator accepts: a local part, the sign, a domain, a dot and
    letters, up to the end of the string. *)
Lemma email_decompose s :
  ends_with_newline s = false ->
  truthy (pat_match email_anchored_re s) = true ->
  exists l dd t,
    s = l ++ "@" :: dd ++ "." :: t
    /\ all_pass local_test l /\ 1 <= length l
    /\ all_pass domain_test dd /\ 1 <= length dd
    /\ all_pass letter_test t /\ 2 <= length t.
Proof.
  intros Hn Hv. unfold pat_match in Hv. rewrite first_match_hd in Hv.
  destruct (ms email_anchored_re (MState None s [])) as [|z zs] eqn:E;
    [discriminate|]. clear Hv.
  assert (H : In z (ms email_anchored_re (MState None s [])))
    by (rewrite E; left; reflexivity).
  clear E. unfold email_anchored_re, local_set, domain_set, letter_set in H.
  cbn [ms] in H.
  apply in_flat_map in H as (x0 & H0 & H). apply guard_inv in H0 as [_ ->].
  apply in_flat_map in H as (x1 & H1 & H).
  apply rep_step_in in H1 as (l & [R1 _] & P1 & L1 & _ & _).
  apply in_flat_map in H as (x2 & H2 & H).
  apply step_inv in H2 as (a & r2 & E2 & T2 & ->).
  apply Ascii.eqb_eq in T2. subst a.
  apply in_flat_map in H as (x3 & H3 & H).
  apply rep_step_in in H3 as (dd & [R3 _] & P3 & L3 & _ & _).
  apply in_flat_map in H as (x4 & H4 & H).
  apply step_inv in H4 as (b & r4 & E4 & T4 & ->).
  apply Ascii.eqb_eq in T4. subst b.
  apply in_flat_map in H as (x5 & H5 & H).
  apply rep_step_in in H5 as (t & [R5 _] & P5 & L5 & _ & _).
  apply in_flat_map in H as (x6 & H6 & _). apply guard_inv in H6 as [He ->].
  cbn [right] in *.
  assert (Es : s = (l ++ "@" :: dd ++ "." :: t) ++ right x5).
  { rewrite R1, E2, R3, E4, R5. rewrite <- !app_assoc. cbn [app].
    rewrite <- !app_assoc. reflexivity. }
  assert (Hr : right x5 = []).
  { apply (no_newline_at_end (l ++ "@" :: dd ++ "." :: t)); [now rewrite <- Es|exact He]. }
  rewrite Hr, app_nil_r in Es.
  exists l, dd, t. repeat split; auto; lia.
Qed.

Lemma email_hd l dd t :
  word_at (hd_error (l ++ "@" :: dd ++ "." :: t)) = true ->
  all_pass local_test l -> 1 <= length l ->
  all_pass domain_test dd -> 1 <= length dd ->
  all_pass letter_test t -> 2 <= length t ->
  hd_error (ms email_re (MState None (l ++ "@" :: dd ++ "." :: t) []))
  = Some (MState (prev_after (Some ".") t) [] []).
Proof.
  intros Hw Pl Ll Pd Ld Pt Lt. unfold email_re.
  change (ms (Seq ?a ?b) ?st) with (flat_map (ms b) (ms a st)) at 1.
  change (ms Wordb ?st) with (guard (at_boundary st) st).
  unfold at_boundary. cbn [prev right word_at]. rewrite Hw.
  cbn [xorb guard flat_map]. rewrite app_nil_r.
  change (ms (Seq ?a ?b) ?st) with (flat_map (ms b) (ms a st)) at 1.
  apply hd_error_flat_map
    with (x := MState (prev_after None l) ("@" :: dd ++ "." :: t) []).
  - unfold local_set. cbn [ms]. apply (rep_step_hd local_test); auto.
    + reflexivity.
    + unfold rep_bound. cbn [right]. rewrite length_app. lia.
  - change (ms (Seq ?a ?b) ?st) with (flat_map (ms b) (ms a st)) at 1.
    change (ms (Lit ?c) ?st) with (step (Ascii.eqb c) st).
    unfold step. cbn [right caps].
    change (Ascii.eqb "@" "@") with true. cbv iota.
    cbn [flat_map]. rewrite app_nil_r. now apply email_domain_hd.
Qed.

Lemma email_end p : first_match email_re false false (MState p [] []) = None.
Proof.
  rewrite first_match_hd. unfold email_re. cbn [ms].
  destruct (at_boundary (MState p [] [])); reflexivity.
Qed.

Lemma email_roundtrip s :
  ends_with_newline s = false ->
  word_at (hd_error s) = true ->
  truthy (pat_match email_anchored_re s) = true ->
  pat_findall email_re s = [s].
Proof.
  intros Hn Hw Hv.
  destruct (email_decompose s Hn Hv) as (l & dd & t & -> & Pl & Ll & Pd & Ld & Pt & Lt).
  unfold pat_findall, finditer. change (ngroups email_re) with 0.
  assert (F : first_match email_re false false
                (MState None (l ++ "@" :: dd ++ "." :: t) [])
              = Some (MState (prev_after (Some ".") t) [] [])).
  { rewrite first_match_hd. now apply email_hd. }
  rewrite (scan_hit _ _ _ _ (l ++ "@" :: dd ++ "." :: t) F).
  - cbn [prev right caps]. rewrite scan_nil_nomatch by apply email_end. reflexivity.
  - split; cbn [right prev]; [now rewrite app_nil_r|].
    now rewrite prev_after_app, prev_after_cons, prev_after_app, prev_after_cons.
  - destruct l; [simpl in Ll; lia|discriminate].
Qed.

(** C2, as the code has it: for a string that does not end with a line
    feed, a URL that [validate_url] accepts is returned by [extract_urls]
    as the one item of the result, and an address that [validate_email]
    accepts is returned by [extract_emails] as the one item of the result
    when it begins with a word character (a letter, a digit or an
    underscore). *)
Theorem accepted_values_are_extracted_whole :
  forall s : str,
    ends_with_newline s = false ->
    (RegexValidator.validate_url s = Some true ->
     RegexExtractor.extract_urls s = Some [s])
    /\ (RegexValidator.validate_email s = Some true ->
        word_at (hd_error s) = true ->
        RegexExtractor.extract_emails s = Some [s]).
Proof.
  intros s Hn. split.
  - rewrite validate_url_eq, extract_urls_eq. intros [= Hv]. f_equal.
    now apply url_roundtrip.
  - rewrite validate_email_eq, extract_emails_eq. intros [= Hv] Hw. f_equal.
    now apply email_roundtrip.
Qed.

Lemma accepted_values_witness :
  RegexExtractor.extract_urls (lit "https://www.example.com/a?b=1")
  = Some [lit "https://www.example.com/a?b=1"]
  /\ RegexExtractor.extract_emails (lit "test@domain.co.id")
     = Some [lit "test@domain.co.id"].
Proof.
  split.
  - apply (proj1 (accepted_values_are_extracted_whole
                    (lit "https://www.example.com/a?b=1") eq_refl)).
    vm_compute. reflexivity.
  - apply (proj2 (accepted_values_are_extracted_whole
                    (lit "test@domain.co.id") eq_refl)).
    + vm_compute. reflexivity.
    + reflexivity.
Defined.

(** The claim as it stands fails for each of the three formats: the address
    ["+a@b.cc"] is accepted, and extracted without the plus sign; the phone
    number ["081234567890"] is accepted, and only its prefix is extracted;
    the URL ["http://a.bc"] followed by a line feed is accepted, and extracted
    without the line feed. *)
Lemma accepted_values_counterexample :
  ~ (forall s : str,
       RegexValidator.validate_email s = Some true ->
       RegexExtractor.extract_emails s = Some [s])
  /\ ~ (forall s : str,
          RegexValidator.validate_phone_id s = Some true ->
          RegexExtractor.extract_phone_numbers s = Some [s])
  /\ ~ (forall s : str,
          RegexValidator.validate_url s = Some true ->
          RegexExtractor.extract_urls s = Some [s]).
Proof.
  split; [|split]; intros H.
  - assert (E : RegexExtractor.extract_emails (lit "+a@b.cc") = Some [lit "a@b.cc"])
      by (vm_compute; reflexivity).
    rewrite (H (lit "+a@b.cc")) in E by (vm_compute; reflexivity). discriminate E.
  - assert (E : RegexExtractor.extract_phone_numbers (lit "081234567890")
                = Some [lit "0"])
      by (vm_compute; reflexivity).
    rewrite (H (lit "081234567890")) in E by (vm_compute; reflexivity).
    discriminate E.
  - assert (E : RegexExtractor.extract_urls (lit "http://a.bc" ++ [nl])
                = Some [lit "http://a.bc"])
      by (vm_compute; reflexivity).
    rewrite (H (lit "http://a.bc" ++ [nl])) in E by (vm_compute; reflexivity).
    discriminate E.
Qed.

(** ** Dates in a text *)

(** A match of the date pattern: digits, a separator, digits, a separator,
    four digits, between two word boundaries. *)
Lemma date_match_shape st st' :
  In st' (ms date_re st) ->
  exists d1 s1 d2 s2 y,
    reaches st st' (d1 ++ s1 :: d2 ++ s2 :: y)
    /\ all_pass uni_isdigit d1 /\ 1 <= length d1 <= 2 /\ In s1 ["-"; "/"]
    /\ all_pass uni_isdigit d2 /\ 1 <= length d2 <= 2 /\ In s2 ["-"; "/"]
    /\ all_pass uni_isdigit y /\ length y = 4
    /\ at_boundary st = true /\ at_boundary st' = true.
Proof.
  unfold date_re, digit_set, sep_set. cbn [ms rep_bound]. intros H.
  apply in_flat_map in H as (x0 & H0 & H). apply guard_inv in H0 as [B0 ->].
  apply in_flat_map in H as (x1 & H1 & H).
  apply rep_step_in in H1 as (d1 & R1 & D1 & L1 & L1' & _).
  apply in_flat_map in H as (x2 & H2 & H).
  apply step_inv in H2 as (s1 & r2 & E2 & T2 & ->).
  apply in_flat_map in H as (x3 & H3 & H).
  apply rep_step_in in H3 as (d2 & R3 & D2 & L2 & L2' & _).
  apply in_flat_map in H as (x4 & H4 & H).
  apply step_inv in H4 as (s2 & r4 & E4 & T4 & ->).
  apply in_flat_map in H as (x5 & H5 & H).
  apply rep_step_in in H5 as (y & R5 & D5 & L5 & L5' & _).
  apply in_flat_map in H as (x6 & H6 & H). apply guard_inv in H6 as [B6 ->].
  destruct H as [<-|[]].
  exists d1, s1, d2, s2, y.
  split; [|repeat split; auto using digits_of_set, sep_in; lia].
  destruct R1 as [R1a R1b], R3 as [R3a R3b], R5 as [R5a R5b].
  cbn [right prev] in *. split.
  - rewrite R1a, E2, R3a, E4, R5a. rewrite <- !app_assoc. cbn [app].
    rewrite <- !app_assoc. reflexivity.
  - rewrite R5b, prev_after_app, prev_after_cons, prev_after_app, prev_after_cons.
    reflexivity.
Qed.

(** C3: [extract_dates] does not ask for the second separator to be the
    first one again: ["15-08/2024"] is extracted as it stands.  The rest of
    the claim holds: the dates of the scenario and ["99-99-9999"] are
    extracted, and whatever the text, every item of the result is a piece of
    the text made of one or two digits, a separator, one or two digits, a
    separator and four digits, with no word character before or behind it. *)
Theorem extract_dates_takes_mixed_separators :
  RegexExtractor.extract_dates (lit "15-08/2024") = Some [lit "15-08/2024"]
  /\ RegexExtractor.extract_dates (lit "Event tanggal: 15-08-2024 dan 20/12/2024")
     = Some [lit "15-08-2024"; lit "20/12/2024"]
  /\ RegexExtractor.extract_dates (lit "99-99-9999") = Some [lit "99-99-9999"]
  /\ forall (text : str) (l : list str) (x : str),
       RegexExtractor.extract_dates text = Some l -> In x l ->
       exists pre post d1 s1 d2 s2 y,
         text = pre ++ x ++ post
         /\ x = d1 ++ s1 :: d2 ++ s2 :: y
         /\ all_pass uni_isdigit d1 /\ 1 <= length d1 <= 2 /\ In s1 ["-"; "/"]
         /\ all_pass uni_isdigit d2 /\ 1 <= length d2 <= 2 /\ In s2 ["-"; "/"]
         /\ all_pass uni_isdigit y /\ length y = 4
         /\ word_at (prev_after None pre) = false
         /\ stops uni_isword post.
Proof.
  split; [vm_compute; reflexivity|].
  split; [vm_compute; reflexivity|].
  split; [vm_compute; reflexivity|].
  intros text l x E Hx. rewrite extract_dates_eq in E. injection E as <-.
  unfold pat_findall in Hx. change (ngroups date_re) with 0 in Hx.
  apply in_map_iff in Hx as (m & <- & Hm).
  apply scan_hits_inv in Hm as (pre & post0 & st' & -> & Hi & ->).
  apply date_match_shape in Hi
    as (d1 & s1 & d2 & s2 & y & R & D1 & L1 & S1 & D2 & L2 & S2 & Dy & Ly & B0 & B1).
  cbn [group mobj_of whole]. rewrite (reaches_consumed _ _ _ R).
  destruct R as [Ra Rb]. cbn [right prev] in Ra, Rb.
  exists pre, (right st'), d1, s1, d2, s2, y.
  split; [now rewrite Ra|]. split; [reflexivity|].
  repeat (split; [assumption|]). split.
  - unfold at_boundary in B0. cbn [prev right] in B0. rewrite Ra in B0.
    destruct d1 as [|c d1]; [simpl in L1; lia|].
    inversion D1 as [|? ? Hc _]; subst. cbn [app hd_error word_at] in B0.
    rewrite (digit_is_word _ Hc) in B0.
    destruct (word_at (prev_after None pre)); [discriminate|reflexivity].
  - unfold at_boundary in B1. rewrite Rb in B1.
    rewrite prev_after_app, prev_after_cons, prev_after_app, prev_after_cons in B1.
    destruct (prev_after_last uni_isdigit y (Some s2) Dy) as (c & Ec & Hc).
    { destruct y; [discriminate|discriminate]. }
    rewrite Ec in B1. cbn [word_at] in B1. rewrite (digit_is_word _ Hc) in B1.
    destruct (right st') as [|c' r]; [exact I|]. cbn [hd_error word_at xorb] in B1.
    simpl. destruct (uni_isword c'); [discriminate|reflexivity].
Qed.

Lemma extract_dates_witness :
  exists pre post d1 s1 d2 s2 y,
    lit "pada 15-08/2024." = pre ++ lit "15-08/2024" ++ post
    /\ lit "15-08/2024" = d1 ++ s1 :: d2 ++ s2 :: y
    /\ all_pass uni_isdigit d1 /\ 1 <= length d1 <= 2 /\ In s1 ["-"; "/"]
    /\ all_pass uni_isdigit d2 /\ 1 <= length d2 <= 2 /\ In s2 ["-"; "/"]
    /\ all_pass uni_isdigit y /\ length y = 4
    /\ word_at (prev_after None pre) = false
    /\ stops uni_isword post.
Proof.
  apply (proj2 (proj2 (proj2 extract_dates_takes_mixed_separators))
           (lit "pada 15-08/2024.") [lit "15-08/2024"] (lit "15-08/2024")).
  - vm_compute. reflexivity.
  - left. reflexivity.
Defined.

(** ** Masking a phone number *)

(** Of the three prefixes exactly the one the text begins with matches. *)
Lemma phone_prefix_one prefix ds p cs :
  In prefix phone_prefixes ->
  ms phone_prefix_re (MState p (prefix ++ ds) cs) =
  [MState (prev_after p prefix) ds cs].
Proof.
  intros [<-|[<-|[<-|[]]]]; reflexivity.
Qed.

Lemma phone_group_one prefix ds p cs :
  In prefix phone_prefixes ->
  ms (Group (Some 1) phone_prefix_re) (MState p (prefix ++ ds) cs) =
  [MState (prev_after p prefix) ds ((1, prefix) :: cs)].
Proof.
  intros H. cbn [ms]. rewrite (phone_prefix_one _ _ _ _ H).
  cbn [map close_group prev right caps]. now rewrite consumed_app.
Qed.

(** The two groups of digits: the second takes the last four, the first
    what stands before them. *)
Lemma mask_digits a0 b0 p cs :
  all_pass uni_isdigit (a0 ++ b0) -> 5 <= length a0 <= 8 -> length b0 = 4 ->
  hd_error
    (ms (Seq (Group (Some 2) (Seq (Rep 5 (Some 8) digit_set) Eps))
          (Seq (Group (Some 3) (Seq (Rep 4 (Some 4) digit_set) Eps)) Eps))
        (MState p (a0 ++ b0) cs))
  = Some (MState (prev_after (prev_after p a0) b0) []
                 ((3, b0) :: (2, a0) :: cs)).
Proof.
  intros Hd Ha Hb. unfold digit_set. cbn [ms rep_bound].
  rewrite !flat_map_unit, flat_map_map.
  apply all_digits_in_set in Hd.
  rewrite <- (app_nil_r (a0 ++ b0)).
  apply (rep_step_first _ _ [] cs _ 8 (a0 ++ b0) p 5 a0 b0); auto.
  - rewrite length_app. lia.
  - intros a b E Hlen. cbn [close_group prev right caps].
    rewrite flat_map_unit. rewrite rep_step_short; [reflexivity| | exact I |].
    + rewrite E in Hd. apply Forall_app in Hd. tauto.
    + apply (f_equal (@length ascii)) in E. rewrite !length_app in E. lia.
  - cbn [close_group prev right caps].
    rewrite flat_map_unit, hd_error_map, flat_map_unit.
    rewrite rep_step_hd.
    + cbn [option_map close_group prev right caps]. rewrite !app_nil_r.
      now rewrite consumed_app, consumed_nil.
    + apply Forall_app in Hd. tauto.
    + exact I.
    + lia.
Qed.

Lemma phone_mask_match prefix a0 b0 p :
  In prefix phone_prefixes ->
  all_pass uni_isdigit (a0 ++ b0) -> 5 <= length a0 <= 8 -> length b0 = 4 ->
  first_match phone_mask_re false false (MState p (prefix ++ a0 ++ b0) [])
  = Some (MState (prev_after (prev_after (prev_after p prefix) a0) b0) []
                 [(3, b0); (2, a0); (1, prefix)]).
Proof.
  intros Hp Hd Ha Hb. rewrite first_match_hd. unfold phone_mask_re.
  change (ms (Seq ?a ?b) ?st) with (flat_map (ms b) (ms a st)) at 1.
  rewrite (phone_group_one _ _ _ _ Hp). cbn [flat_map]. rewrite app_nil_r.
  now apply mask_digits.
Qed.

Lemma phone_mask_end p : first_match phone_mask_re false false (MState p [] []) = None.
Proof. reflexivity. Qed.

(** C4: for every string made of one of the prefixes [+62], [62], [0] and 9
    to 12 digits, [mask_phone] returns the prefix, four asterisks, and the
    last four digits, whatever the number of digits in between. *)
Theorem mask_phone_keeps_prefix_and_last_four :
  forall prefix ds : str,
    In prefix phone_prefixes ->
    all_pass uni_isdigit ds ->
    9 <= length ds <= 12 ->
    RegexReplacer.mask_phone (prefix ++ ds)
    = Some (prefix ++ lit "****" ++ skipn (length ds - 4) ds).
Proof.
  intros prefix ds Hp Hd Hl.
  unfold RegexReplacer.mask_phone, re_sub. rewrite compile_phone_mask.
  cbn [opt_bind]. unfold pat_sub.
  change (parse_template (lit "\1****\3") (ngroups phone_mask_re))
    with (Some [TGroup 1; TLit "*"; TLit "*"; TLit "*"; TLit "*"; TGroup 3]).
  cbn [opt_bind]. f_equal. unfold finditer.
  set (a0 := firstn (length ds - 4) ds). set (b0 := skipn (length ds - 4) ds).
  assert (E : ds = a0 ++ b0) by (symmetry; apply firstn_skipn).
  assert (Ha : length a0 = length ds - 4) by (apply firstn_length_le; lia).
  assert (Hb : length b0 = 4) by (unfold b0; rewrite length_skipn; lia).
  rewrite E at 1. rewrite E in Hd.
  rewrite (scan_hit _ _ _ _ (prefix ++ a0 ++ b0)
             (phone_mask_match prefix a0 b0 None Hp Hd ltac:(lia) Hb)).
  - cbn [prev right caps]. rewrite scan_nil_nomatch by apply phone_mask_end.
    cbn [flat_map render expand]. unfold expand. cbn [flat_map group lookup Nat.eqb groups].
    rewrite !app_nil_r. reflexivity.
  - split; cbn [right prev]; [now rewrite app_nil_r|].
    now rewrite !prev_after_app.
  - destruct Hp as [<-|[<-|[<-|[]]]]; discriminate.
Qed.

Lemma mask_phone_witness :
  RegexReplacer.mask_phone (lit "+62" ++ lit "81234567890")
  = Some (lit "+62" ++ lit "****" ++ skipn (length (lit "81234567890") - 4) (lit "81234567890")).
Proof.
  apply (mask_phone_keeps_prefix_and_last_four (lit "+62") (lit "81234567890")).
  - simpl. tauto.
  - repeat constructor.
  - simpl. lia.
Defined.

(** ** Censoring words *)

Lemma starts_with_ci_length w : forall text,
  starts_with_ci w text = true -> length w <= length text.
Proof.
  induction w as [|c w IH]; intros [|x t]; simpl; try lia; try discriminate.
  intros H. apply andb_prop in H as [_ H]. apply IH in H. lia.
Qed.

(** The pattern of a word has one match where the text begins with the
    word, and none elsewhere. *)
Lemma ms_litsI w : forall st,
  ms (litsI w) st =
  if starts_with_ci w (right st)
  then [MState (prev_after (prev st) (firstn (length w) (right st)))
               (skipn (length w) (right st)) (caps st)]
  else [].
Proof.
  induction w as [|c w IH]; intros [p r cs].
  - reflexivity.
  - cbn [litsI fold_right ms]. fold (litsI w). unfold step. cbn [right prev caps].
    destruct r as [|x t]; [reflexivity|]. cbn [starts_with_ci].
    destruct (ci_eq c x); [|reflexivity].
    cbn [flat_map andb]. rewrite app_nil_r, IH. reflexivity.
Qed.

Lemma parse_template_stars n ng :
  parse_template (repeat "*" n) ng = Some (map TLit (repeat "*" n)).
Proof.
  induction n as [|n IH]; [reflexivity|].
  cbn [repeat parse_template map]. change (Ascii.eqb "*" "\") with false.
  cbv iota. rewrite IH. reflexivity.
Qed.

Lemma expand_lits s m : expand (map TLit s) m = s.
Proof.
  unfold expand. induction s as [|c s IH]; simpl; congruence.
Qed.

Lemma censor_covered w m : forall rest,
  censor_occurrences w (m ++ rest) (length m) =
  repeat "*" (length m) ++ censor_occurrences w rest 0.
Proof.
  induction m as [|c m IH]; intros rest; simpl.
  - destruct rest; reflexivity.
  - now rewrite IH.
Qed.

(** One substitution, for a word that is not empty. *)
Lemma sub_word w n : forall text p,
  w <> [] -> length text <= n ->
  flat_map (render (map TLit (repeat "*" (length w)))) (scan (litsI w) p text 0)
  = censor_occurrences w text 0.
Proof.
  intros text p Hw. revert text p.
  induction n as [|n IH]; intros text p Hn.
  - destruct text; [|simpl in Hn; lia].
    rewrite scan_nil_nomatch; [reflexivity|].
    rewrite first_match_hd, ms_litsI. destruct w; [congruence|reflexivity].
  - destruct text as [|c t].
    { rewrite scan_nil_nomatch; [reflexivity|].
      rewrite first_match_hd, ms_litsI. destruct w; [congruence|reflexivity]. }
    simpl in Hn.
    assert (F : first_match (litsI w) false false (MState p (c :: t) []) =
                hd_error (ms (litsI w) (MState p (c :: t) []))) by apply first_match_hd.
    rewrite ms_litsI in F. cbn [right prev caps] in F.
    cbn [censor_occurrences].
    assert (Hnil : is_nil w = false) by (destruct w; [congruence|reflexivity]).
    rewrite Hnil. cbn [negb andb].
    destruct (starts_with_ci w (c :: t)) eqn:E.
    + cbn [hd_error] in F.
      pose proof (starts_with_ci_length _ _ E) as HL.
      assert (Hsplit : c :: t = firstn (length w) (c :: t) ++ skipn (length w) (c :: t))
        by (symmetry; apply firstn_skipn).
      assert (Hlen : length (firstn (length w) (c :: t)) = length w)
        by (apply firstn_length_le; exact HL).
      rewrite (@scan_hit _ _ _ _ (firstn (length w) (c :: t)) F);
        [| split; [exact Hsplit | reflexivity]
         | destruct w; [congruence|discriminate] ].
      cbn [flat_map render prev right caps]. rewrite expand_lits.
      rewrite IH.
      2:{ rewrite length_skipn. destruct w; [congruence|]. simpl in *. lia. }
      destruct w as [|c1 w]; [congruence|].
      cbn [length firstn skipn] in *. cbn [repeat app]. f_equal.
      replace (S (length w) - 1) with (length w) by lia.
      assert (Hl2 : length (firstn (length w) t) = length w)
        by (apply firstn_length_le; lia).
      transitivity (censor_occurrences (c1 :: w)
                      (firstn (length w) t ++ skipn (length w) t)
                      (length (firstn (length w) t))).
      * rewrite censor_covered, Hl2. reflexivity.
      * rewrite firstn_skipn, Hl2. reflexivity.
    + rewrite (scan_nomatch _ _ _ _ F). cbn [flat_map render app]. f_equal.
      apply IH. lia.
Qed.

(** The empty word matches everywhere, and nothing is put in. *)
Lemma sub_empty_word text : forall p,
  flat_map (render []) (scan Eps p text 0) = text.
Proof.
  induction text as [|c t IH]; intros p; [reflexivity|].
  cbn [scan]. unfold first_match, accept, match_len.
  cbn [ms find right andb negb is_nil].
  rewrite Nat.sub_diag, Nat.eqb_refl. cbn [andb negb flat_map render].
  unfold expand. cbn [flat_map app]. f_equal. apply IH.
Qed.

Lemma censor_empty_word text : censor_occurrences [] text 0 = text.
Proof. induction text as [|c t IH]; simpl; congruence. Qed.

Lemma censor_step word text :
  pat_sub (litsI word) (repeat "*" (length word)) text
  = Some (censor_occurrences word text 0).
Proof.
  unfold pat_sub. rewrite parse_template_stars. cbn [opt_bind]. f_equal.
  unfold finditer. destruct word as [|c w].
  - cbn [length repeat map litsI fold_right]. rewrite sub_empty_word.
    symmetry. apply censor_empty_word.
  - apply (@sub_word (c :: w) (length text)); [discriminate|lia].
Qed.

(** C5: [censor_profanity(text, words)] is the fold over [words], in the
    order given, of one substitution per word, each applied to the result of
    the one before; a substitution replaces every occurrence of the word,
    letter case apart, by as many asterisks as the word has characters and
    leaves the rest of the text as it is.  The occurrences are the ones the
    walk from left to right finds, which do not overlap. *)
Theorem censor_profanity_replaces_occurrences :
  (forall (text : str) (words : list str),
     RegexReplacer.censor_profanity text words
     = Some (fold_left (fun t w => censor_occurrences w t 0) words text))
  /\ RegexReplacer.censor_profanity (lit "kata badword dan BadWord lainnya")
                                    [lit "badword"]
     = Some (lit "kata ******* dan ******* lainnya").
Proof.
  split; [|vm_compute; reflexivity].
  intros text words. revert text.
  induction words as [|w ws IH]; intros text; [reflexivity|].
  cbn [RegexReplacer.censor_profanity fold_left].
  rewrite compile_escaped. cbn [opt_bind].
  rewrite censor_step. cbn [opt_bind]. apply IH.
Qed.

(** ** White space *)

Lemma spaces_first_match p text :
  first_match spaces_re false false (MState p text []) =
  match take_while uni_isspace text with
  | [] => None
  | w => Some (MState (prev_after p w) (drop_while uni_isspace text) [])
  end.
Proof.
  rewrite first_match_hd. unfold spaces_re, space_set. cbn [ms].
  rewrite flat_map_unit. unfold rep_bound. cbn [right].
  set (stest := in_set false [SCat CatSpace]).
  assert (Et : take_while uni_isspace text = take_while stest text).
  { apply take_while_ext. intros c. symmetry. apply in_set_space. }
  assert (Ed : drop_while uni_isspace text = drop_while stest text).
  { apply drop_while_ext. intros c. symmetry. apply in_set_space. }
  rewrite Et, Ed. rewrite <- (take_drop stest text) at 1 2.
  destruct (take_while stest text) as [|x w] eqn:Ew.
  - rewrite rep_step_short; auto.
    + constructor.
    + apply drop_while_stops.
  - rewrite <- Ew. apply rep_step_hd.
    + apply take_while_pass.
    + apply drop_while_stops.
    + rewrite length_app, Ew. simpl. lia.
Qed.

Lemma squeeze_true_drop s : squeeze true s = squeeze false (drop_while uni_isspace s).
Proof.
  induction s as [|c s IH]; simpl; [reflexivity|].
  destruct (uni_isspace c) eqn:E; [exact IH|]. simpl. now rewrite E.
Qed.

(** The substitution of one space for [\s+] squeezes the text. *)
Lemma sub_spaces n : forall text p,
  length text <= n ->
  flat_map (render [TLit " "]) (scan spaces_re p text 0) = squeeze false text.
Proof.
  induction n as [|n IH]; intros text p Hn.
  - destruct text; [|simpl in Hn; lia].
    rewrite scan_nil_nomatch; [reflexivity|]. now rewrite spaces_first_match.
  - destruct text as [|c t].
    { rewrite scan_nil_nomatch; [reflexivity|]. now rewrite spaces_first_match. }
    simpl in Hn.
    pose proof (spaces_first_match p (c :: t)) as F.
    pose proof (take_drop uni_isspace (c :: t)) as TD.
    cbn [take_while drop_while squeeze] in *.
    destruct (uni_isspace c) eqn:E.
    + rewrite (@scan_hit _ _ _ _ (c :: take_while uni_isspace t) F);
        [| split; [symmetry; exact TD | reflexivity] | discriminate].
      cbn [flat_map render expand prev right caps app]. cbn [app]. f_equal.
      rewrite IH; [now rewrite squeeze_true_drop|].
      pose proof (drop_while_length uni_isspace t). lia.
    + rewrite (scan_nomatch _ _ _ _ F). cbn [flat_map render app]. f_equal.
      apply IH. lia.
Qed.

Lemma normalize_whitespace_eq s :
  RegexReplacer.normalize_whitespace s = Some (strip (squeeze false s)).
Proof.
  unfold RegexReplacer.normalize_whitespace, re_sub. rewrite compile_spaces.
  cbn [opt_bind]. unfold pat_sub, finditer. cbn [opt_bind].
  change (parse_template (lit " ") (ngroups spaces_re)) with (Some [TLit " "]).
  cbn [opt_bind]. now rewrite (@sub_spaces (length s)).
Qed.

Lemma sparse_squeeze s : forall b, sparse b (squeeze b s) = true.
Proof.
  induction s as [|c s IH]; intros b; simpl; [reflexivity|].
  destruct (uni_isspace c) eqn:E.
  - destruct b; [apply IH|]. simpl.
    change (uni_isspace " ") with true. cbv iota. simpl. apply IH.
  - simpl. rewrite E. apply IH.
Qed.

Lemma sparse_weaken s : sparse true s = true -> sparse false s = true.
Proof.
  destruct s as [|c s]; simpl; [auto|].
  destruct (uni_isspace c); [discriminate|auto].
Qed.

Lemma sparse_any s b : sparse b s = true -> sparse false s = true.
Proof. destruct b; [apply sparse_weaken|auto]. Qed.

Lemma sparse_suffix a : forall b s, sparse b (a ++ s) = true -> sparse false s = true.
Proof.
  induction a as [|c a IH]; intros b s; simpl.
  - apply sparse_any.
  - destruct (uni_isspace c).
    + intros H. apply andb_prop in H as [_ H]. eapply IH; eauto.
    + apply IH.
Qed.

Lemma sparse_prefix a : forall b s, sparse b (a ++ s) = true -> sparse b a = true.
Proof.
  induction a as [|c a IH]; intros b s; simpl; [reflexivity|].
  destruct (uni_isspace c).
  - intros H. apply andb_prop in H as [H1 H2]. rewrite H1. simpl. eapply IH; eauto.
  - apply IH.
Qed.

Lemma sparse_no_pair a : forall b c1 c2 s,
  sparse b (a ++ c1 :: c2 :: s) = true ->
  uni_isspace c1 = true -> uni_isspace c2 = true -> False.
Proof.
  induction a as [|c a IH]; intros b c1 c2 s; simpl.
  - intros H H1 H2. rewrite H1, H2 in H. simpl in H.
    rewrite andb_false_r in H. discriminate.
  - destruct (uni_isspace c).
    + intros H. apply andb_prop in H as [_ H]. eapply IH; eauto.
    + apply IH.
Qed.

Lemma sparse_fixed s : forall b, sparse b s = true -> squeeze b s = s.
Proof.
  induction s as [|c s IH]; intros b; simpl; [reflexivity|].
  destruct (uni_isspace c).
  - intros H. apply andb_prop in H as [H H3]. apply andb_prop in H as [H1 H2].
    destruct b; [discriminate|]. apply Ascii.eqb_eq in H2. subst c.
    f_equal. auto.
  - intros H. f_equal. auto.
Qed.

Lemma lstrip_suffix s : exists w, s = w ++ lstrip s.
Proof. exists (take_while uni_isspace s). symmetry. apply take_drop. Qed.

Lemma rstrip_prefix s : exists w, s = rstrip s ++ w /\ all_pass uni_isspace w.
Proof.
  unfold rstrip, lstrip. exists (rev (take_while uni_isspace (rev s))). split.
  - rewrite <- rev_app_distr, take_drop. symmetry. apply rev_involutive.
  - apply Forall_rev. apply take_while_pass.
Qed.

Lemma lstrip_stops s : stops uni_isspace s -> lstrip s = s.
Proof.
  unfold lstrip. destruct s as [|c s]; simpl; [reflexivity|]. now intros ->.
Qed.

Lemma strip_leading s : stops uni_isspace (strip s).
Proof.
  unfold strip. destruct (rstrip_prefix (lstrip s)) as (w & E & _).
  pose proof (drop_while_stops uni_isspace s) as H. fold (lstrip s) in H.
  rewrite E in H. destruct (rstrip (lstrip s)); simpl in *; [exact I|exact H].
Qed.

Lemma strip_trailing s : stops uni_isspace (rev (strip s)).
Proof.
  unfold strip, rstrip. rewrite rev_involutive. apply drop_while_stops.
Qed.

Lemma strip_fixed s :
  stops uni_isspace s -> stops uni_isspace (rev s) -> strip s = s.
Proof.
  intros H1 H2. unfold strip. rewrite (lstrip_stops _ H1).
  unfold rstrip. rewrite (lstrip_stops _ H2). apply rev_involutive.
Qed.

Lemma sparse_strip s : sparse false s = true -> sparse false (strip s) = true.
Proof.
  intros H. unfold strip.
  destruct (lstrip_suffix s) as (w & E).
  destruct (rstrip_prefix (lstrip s)) as (w' & E' & _).
  rewrite E in H. apply sparse_suffix in H. rewrite E' in H.
  eapply sparse_prefix; eauto.
Qed.

(** C6: for every string [s], [normalize_whitespace(s)] returns a string that
    holds no two consecutive spaces, that neither begins nor ends with white
    space, and that [normalize_whitespace] maps to itself. *)
Theorem normalize_whitespace_normal_form :
  forall s : str,
  exists t,
    RegexReplacer.normalize_whitespace s = Some t
    /\ (forall a b, t <> a ++ " " :: " " :: b)
    /\ stops uni_isspace t
    /\ stops uni_isspace (rev t)
    /\ RegexReplacer.normalize_whitespace t = Some t.
Proof.
  intros s. exists (strip (squeeze false s)).
  assert (Hs : sparse false (strip (squeeze false s)) = true).
  { apply sparse_strip, sparse_squeeze. }
  rewrite !normalize_whitespace_eq. split; [reflexivity|]. split.
  - intros a b E. rewrite E in Hs. eapply sparse_no_pair; eauto.
  - split; [apply strip_leading|]. split; [apply strip_trailing|].
    f_equal. rewrite (sparse_fixed _ _ Hs).
    apply strip_fixed; [apply strip_leading|apply strip_trailing].
Qed.

(** ** Subjects without a match *)

Lemma spaces_no_hits text : forall p,
  hits (scan spaces_re p text 0) = [] ->
  all_pass (fun c => negb (uni_isspace c)) text.
Proof.
  induction text as [|c t IH]; intros p H; [constructor|].
  pose proof (spaces_first_match p (c :: t)) as F. cbn [take_while drop_while] in F.
  cbn [scan] in H. destruct (uni_isspace c) eqn:E.
  - rewrite F in H. destruct (match_len _ _); discriminate H.
  - rewrite F in H. cbn [hits] in H. constructor; [now rewrite E|].
    exact (IH _ H).
Qed.

Lemma strip_no_space s :
  all_pass (fun c => negb (uni_isspace c)) s -> strip s = s.
Proof.
  intros H. apply strip_fixed.
  - destruct H as [|c s Hc _]; simpl; [exact I|]. now destruct (uni_isspace c).
  - apply Forall_rev in H. destruct H as [|c s' Hc _]; simpl; [exact I|].
    now destruct (uni_isspace c).
Qed.

Lemma normalize_whitespace_no_match s :
  pat_search spaces_re s = None -> RegexReplacer.normalize_whitespace s = Some s.
Proof.
  intros H. rewrite normalize_whitespace_eq. f_equal.
  assert (E : hits (finditer spaces_re s) = []).
  { unfold pat_search in H. destruct (hits (finditer spaces_re s)); [reflexivity|discriminate]. }
  rewrite <- (sub_spaces (length s) s None (le_n _)).
  unfold finditer in E. rewrite (scan_no_hits _ _ _ E).
  apply strip_no_space. eapply spaces_no_hits; eauto.
Qed.

Lemma censor_absent w text :
  (forall pre post, w <> [] -> text = pre ++ post -> starts_with_ci w post = false) ->
  censor_occurrences w text 0 = text.
Proof.
  induction text as [|c t IH]; intros H; [reflexivity|].
  cbn [censor_occurrences].
  destruct w as [|x w]; [cbn [is_nil negb andb]; f_equal; apply IH; intros; congruence|].
  cbn [is_nil negb andb].
  rewrite (H [] (c :: t)) by (discriminate || reflexivity).
  f_equal. apply IH. intros pre post Hw E. apply (H (c :: pre) post Hw).
  simpl. congruence.
Qed.

Lemma censor_profanity_absent words : forall text,
  occurs_nowhere words text ->
  RegexReplacer.censor_profanity text words = Some text.
Proof.
  induction words as [|w ws IH]; intros text H; [reflexivity|].
  cbn [RegexReplacer.censor_profanity].
  rewrite compile_escaped. cbn [opt_bind]. rewrite censor_step. cbn [opt_bind].
  rewrite censor_absent.
  - apply IH. intros w' pre post Hin. apply H. now right.
  - intros pre post Hw E. apply (H w pre post); auto. now left.
Qed.

(** C7: every operation returns a value for every string, and for every
    list of words: no pattern fails to compile, the patterns made from the
    words included, because [re.escape] turns every word into the literals
    of the word (an opening parenthesis alone, for one, is no pattern).
    When the pattern matches nowhere, a validator answers [False], an
    extractor returns the empty list and a replacer returns the text as it
    is; [censor_profanity] returns the text as it is when no word of the
    list occurs in it.  [validate_password] reports its five criteria. *)
Theorem operations_are_total :
  forall (s : str) (words : list str),
    Forall (fun rf => exists b, snd rf s = Some b /\
                                (pat_match (fst rf) s = None -> b = false))
           validators
    /\ (exists d, RegexValidator.validate_password s = Some d /\
                  map fst d = password_keys)
    /\ Forall (fun rf => exists l, snd rf s = Some l /\
                                   (pat_search (fst rf) s = None -> l = []))
              extractors
    /\ Forall (fun rf => exists t, snd rf s = Some t /\
                                   (pat_search (fst rf) s = None -> t = s))
              replacers
    /\ (exists t, RegexReplacer.censor_profanity s words = Some t /\
                  (occurs_nowhere words s -> t = s))
    /\ (forall w, re_compile (re_escape w) true = Some (litsI w))
    /\ re_compile (lit "(") true = None
    /\ RegexReplacer.censor_profanity (lit "a.c abc (x") [lit "a.c"; lit "("]
       = Some (lit "*** abc *x").
Proof.
  intros s words. split; [|split; [|split; [|split; [|split; [|split; [|split]]]]]].
  - unfold validators. repeat constructor; cbn [fst snd].
    + rewrite validate_email_eq. eexists. split; [reflexivity|]. now intros ->.
    + rewrite validate_phone_id_eq. eexists. split; [reflexivity|]. now intros ->.
    + rewrite validate_url_eq. eexists. split; [reflexivity|]. now intros ->.
    + rewrite validate_nik_eq. eexists. split; [reflexivity|]. now intros ->.
  - destruct (validate_password_eq s) as (up & lo & dg & sp & ->).
    eexists. split; reflexivity.
  - unfold extractors. repeat constructor; cbn [fst snd].
    + rewrite extract_emails_eq. eexists. split; [reflexivity|].
      intros H. now apply search_none.
    + rewrite extract_phone_numbers_eq. eexists. split; [reflexivity|].
      intros H. now apply search_none.
    + rewrite extract_urls_eq. eexists. split; [reflexivity|].
      intros H. now apply search_none.
    + rewrite extract_hashtags_eq. eexists. split; [reflexivity|].
      intros H. now apply search_none.
    + rewrite extract_mentions_eq. eexists. split; [reflexivity|].
      intros H. now apply search_none.
    + rewrite extract_dates_eq. eexists. split; [reflexivity|].
      intros H. now apply search_none.
  - unfold replacers. repeat constructor; cbn [fst snd].
    + rewrite mask_email_eq. eexists. split; [reflexivity|].
      intros H. now apply search_none.
    + rewrite mask_phone_eq. eexists. split; [reflexivity|].
      intros H. now apply search_none.
    + rewrite remove_html_tags_eq. eexists. split; [reflexivity|].
      intros H. now apply search_none.
    + rewrite normalize_whitespace_eq. eexists. split; [reflexivity|].
      intros H. apply normalize_whitespace_no_match in H.
      rewrite normalize_whitespace_eq in H. now injection H.
  - destruct (RegexReplacer.censor_profanity s words) as [t|] eqn:E.
    + exists t. split; [reflexivity|]. intros H.
      rewrite (censor_profanity_absent _ _ H) in E. now injection E.
    + exfalso. revert s E. induction words as [|w ws IH]; intros s E; [discriminate|].
      cbn [RegexReplacer.censor_profanity] in E.
      rewrite compile_escaped in E. cbn [opt_bind] in E.
      rewrite censor_step in E. cbn [opt_bind] in E. eauto.
  - apply compile_escaped.
  - reflexivity.
  - vm_compute. reflexivity.
Qed.

Lemma operations_are_total_witness :
  RegexValidator.validate_nik (lit "abc") = Some false
  /\ RegexExtractor.extract_dates (lit "abc") = Some []
  /\ RegexReplacer.mask_phone (lit "abc") = Some (lit "abc")
  /\ RegexReplacer.censor_profanity (lit "abc") [lit "x."] = Some (lit "abc").
Proof.
  destruct (operations_are_total (lit "abc") [lit "x."])
    as (V & _ & E & R & (t & Ht & Hc) & _).
  split; [|split; [|split]].
  - rewrite Forall_forall in V.
    destruct (V (nik_re, RegexValidator.validate_nik)) as (b & Hb & Hf).
    + simpl. tauto.
    + cbn [fst snd] in *. rewrite Hb, Hf; reflexivity.
  - rewrite Forall_forall in E.
    destruct (E (date_re, RegexExtractor.extract_dates)) as (l & Hl & Hf).
    + simpl. tauto.
    + cbn [fst snd] in *. rewrite Hl, Hf; reflexivity.
  - rewrite Forall_forall in R.
    destruct (R (phone_mask_re, RegexReplacer.mask_phone)) as (u & Hu & Hf).
    + simpl. tauto.
    + cbn [fst snd] in *. rewrite Hu, Hf; reflexivity.
  - rewrite Ht, Hc; [reflexivity|].
    intros w pre post [<-|[]] _ Hs.
    destruct pre as [|a [|b [|c [|d pre]]]]; cbv in Hs;
      inversion Hs; subst; reflexivity.
Defined.

(** ** Masking addresses *)

(** A match of the pattern with groups: the first group is the text before
    the sign, the second the text behind it. *)
Lemma email_mask_groups st st' :
  caps st = [] -> In st' (ms email_mask_re st) ->
  exists l d,
    consumed st st' = l ++ "@" :: d /\ caps st' = [(2, d); (1, l)] /\
    ~ In "@" l /\ ~ In "@" d.
Proof.
  intros Hcaps H. unfold email_mask_re, local_set, domain_set, letter_set in H.
  cbn [ms] in H.
  apply in_flat_map in H as (x0 & H0 & H). apply guard_inv in H0 as [_ ->].
  apply in_flat_map in H as (x1 & H1 & H).
  apply in_map_iff in H1 as (z1 & <- & H1). rewrite flat_map_unit in H1.
  apply rep_step_in in H1 as (l & R1 & P1 & _ & _ & C1).
  apply in_flat_map in H as (x2 & H2 & H).
  apply step_inv in H2 as (a & r2 & E2 & T2 & ->).
  apply Ascii.eqb_eq in T2. subst a.
  apply in_flat_map in H as (x3 & H3 & H).
  apply in_map_iff in H3 as (z3 & <- & H3).
  assert (HD : exists d, reaches (MState (Some "@") r2
                                    (caps (close_group (Some 1) st z1))) z3 d
                         /\ all_pass domain_test d
                         /\ caps z3 = caps (close_group (Some 1) st z1)).
  { apply in_flat_map in H3 as (y1 & Hy1 & H3).
    apply rep_step_in in Hy1 as (dd & Ry1 & Py1 & _ & _ & Cy1).
    apply in_flat_map in H3 as (y2 & Hy2 & H3).
    apply step_inv in Hy2 as (b & ry & Ey & Ty & ->).
    apply Ascii.eqb_eq in Ty. subst b.
    apply in_flat_map in H3 as (y3 & Hy3 & H3).
    apply rep_step_in in Hy3 as (t & Ry3 & Py3 & _ & _ & Cy3).
    destruct H3 as [<-|[]].
    exists (dd ++ "." :: t). split; [|split].
    - replace (dd ++ "." :: t) with (dd ++ ["."] ++ t) by reflexivity.
      eapply reaches_trans; [exact Ry1|].
      eapply reaches_trans; [|exact Ry3].
      split; [exact Ey|reflexivity].
    - apply Forall_app. split; [exact Py1|]. constructor; [reflexivity|].
      eapply Forall_impl; [|exact Py3]. apply letter_is_domain.
    - rewrite Cy3. cbn [caps]. exact Cy1. }
  destruct HD as (d & R3 & P3 & C3).
  apply in_flat_map in H as (x4 & H4 & H). apply guard_inv in H4 as [_ ->].
  destruct H as [<-|[]].
  exists l, d.
  pose proof (reaches_consumed _ _ _ R3) as HC3.
  pose proof (reaches_consumed _ _ _ R1) as HC1.
  cbn [close_group caps prev right] in *.
  split; [|split; [|split]].
  - apply reaches_consumed.
    replace (l ++ "@" :: d) with (l ++ ["@"] ++ d) by reflexivity.
    eapply reaches_trans; [exact R1|].
    apply (reaches_trans z1 (MState (Some "@") r2 ((1, consumed st z1) :: caps z1)));
      [split; [exact E2|reflexivity]|].
    destruct R3 as [Ra Rb]. split; [exact Ra|exact Rb].
  - rewrite C3, HC3, HC1, C1, Hcaps. reflexivity.
  - eapply all_pass_not_in; [exact P1|reflexivity].
  - eapply all_pass_not_in; [exact P3|reflexivity].
Qed.

Lemma hits_addresses evs :
  (forall m, In (Hit m) evs -> whole m = group m 1 ++ "@" :: group m 2) ->
  flat_map piece_address (map piece_of_event evs) = map whole (hits evs).
Proof.
  induction evs as [|[c|m] evs IH]; intros H; simpl; [reflexivity| |].
  - apply IH. intros m Hm. apply H. now right.
  - rewrite H by (left; reflexivity). f_equal. apply IH.
    intros m' Hm. apply H. now right.
Qed.

Lemma email_hit_groups text m :
  In (Hit m) (finditer email_mask_re text) ->
  whole m = group m 1 ++ "@" :: group m 2
  /\ ~ In "@" (group m 1) /\ ~ In "@" (group m 2).
Proof.
  intros H. apply in_hits in H. unfold finditer in H.
  apply scan_hits_inv in H as (pre & post & st' & _ & Hi & ->).
  apply email_mask_groups in Hi as (l & d & Hc & Hg & Hl & Hd); [|reflexivity].
  unfold mobj_of, group. cbn [whole groups]. rewrite Hc, Hg.
  cbn [lookup Nat.eqb]. auto.
Qed.

(** C8: [mask_email("user@gmail.com")] is ["user***@gmail.com"], and for
    every text, [mask_email] rewrites the addresses that stand in it between
    word boundaries, and nothing else: the text falls into pieces, single
    characters and addresses [local@domain], the addresses being the ones
    [extract_emails] finds; the result is the same pieces with every address
    turned into [local***@domain], the domain kept as it is. *)
Theorem mask_email_rewrites_addresses :
  RegexReplacer.mask_email (lit "user@gmail.com") = Some (lit "user***@gmail.com")
  /\ forall text : str,
     exists pieces : list piece,
       text = flat_map piece_text pieces
       /\ RegexExtractor.extract_emails text = Some (flat_map piece_address pieces)
       /\ RegexReplacer.mask_email text = Some (flat_map piece_masked pieces)
       /\ Forall single_at pieces.
Proof.
  split; [vm_compute; reflexivity|].
  intros text. exists (map piece_of_event (finditer email_mask_re text)).
  split; [|split; [|split]].
  - rewrite flat_map_map.
    etransitivity; [symmetry; apply (scan_text email_mask_re text None)|].
    unfold finditer. apply flat_map_ext_in. intros [c|m] Hm; [reflexivity|].
    cbn [piece_of_event piece_text]. now apply email_hit_groups in Hm.
  - rewrite extract_emails_eq. f_equal. rewrite hits_addresses.
    + unfold pat_findall. change (ngroups email_re) with 0.
      change email_re with (flatten email_mask_re). unfold finditer.
      rewrite scan_flatten. apply hits_erase.
    + intros m Hm. now apply email_hit_groups in Hm.
  - rewrite mask_email_eq. f_equal. rewrite flat_map_map.
    apply flat_map_ext. intros [c|m]; [reflexivity|].
    cbn [render piece_of_event piece_masked]. unfold expand, email_mask_template.
    cbn [flat_map]. rewrite app_nil_r. reflexivity.
  - apply Forall_forall. intros p Hp. apply in_map_iff in Hp as ([c|m] & <- & Hm).
    + exact I.
    + cbn [piece_of_event single_at]. now apply email_hit_groups in Hm.
Qed.

(** ** A line feed behind an accepted value *)

(** C9: the validators accept strings that are not, as a whole, an instance
    of the format.  Whenever a validator accepts a string that does not end
    with a line feed, it accepts the string followed by one line feed as
    well, because [$] holds just before a line feed that ends the string;
    for instance an address, a phone number, a URL and a 16-digit number,
    each followed by a line feed, are accepted although the patterns do not
    match them in full ([re.fullmatch] finds nothing). *)
Theorem validators_accept_trailing_newline :
  (forall v : str,
     ends_with_newline v = false ->
     (RegexValidator.validate_email v = Some true ->
      RegexValidator.validate_email (v ++ [nl]) = Some true) /\
     (RegexValidator.validate_phone_id v = Some true ->
      RegexValidator.validate_phone_id (v ++ [nl]) = Some true) /\
     (RegexValidator.validate_url v = Some true ->
      RegexValidator.validate_url (v ++ [nl]) = Some true) /\
     (RegexValidator.validate_nik v = Some true ->
      RegexValidator.validate_nik (v ++ [nl]) = Some true))
  /\ (RegexValidator.validate_email (lit "user@example.com" ++ [nl]) = Some true /\
      re_fullmatch (lit "^[a-zA-Z0-9._%+-]+@[a-zA-Z0-9.-]+\.[a-zA-Z]{2,}$")
                   (lit "user@example.com" ++ [nl]) = Some None)
  /\ (RegexValidator.validate_phone_id (lit "081234567890" ++ [nl]) = Some true /\
      re_fullmatch (lit "^(\+62|62|0)[0-9]{9,12}$")
                   (lit "081234567890" ++ [nl]) = Some None)
  /\ (RegexValidator.validate_url (lit "https://www.example.com" ++ [nl]) = Some true /\
      re_fullmatch (lit "^https?://(?:www\.)?[-a-zA-Z0-9@:%._\+~#=]{1,256}\.[a-zA-Z0-9()]{1,6}\b(?:[-a-zA-Z0-9()@:%_\+.~#?&/=]*)$")
                   (lit "https://www.example.com" ++ [nl]) = Some None)
  /\ (RegexValidator.validate_nik (lit "3201234567890123" ++ [nl]) = Some true /\
      re_fullmatch (lit "^\d{16}$") (lit "3201234567890123" ++ [nl]) = Some None).
Proof.
  split.
  - intros v Hn.
    rewrite !validate_email_eq, !validate_phone_id_eq, !validate_url_eq, !validate_nik_eq.
    repeat split; intros [= H]; f_equal; apply match_with_nl; auto.
  - repeat split; vm_compute; reflexivity.
Qed.

Lemma validators_accept_trailing_newline_witness :
  RegexValidator.validate_email (lit "test@domain.co.id" ++ [nl]) = Some true
  /\ RegexValidator.validate_phone_id (lit "+6281234567890" ++ [nl]) = Some true
  /\ RegexValidator.validate_url (lit "http://blog.example.com/a?b=1" ++ [nl]) = Some true
  /\ RegexValidator.validate_nik (lit "1234567890123456" ++ [nl]) = Some true.
Proof.
  split; [|split; [|split]].
  - apply (proj1 validators_accept_trailing_newline (lit "test@domain.co.id")); reflexivity.
  - apply (proj1 validators_accept_trailing_newline (lit "+6281234567890")); reflexivity.
  - apply (proj1 validators_accept_trailing_newline (lit "http://blog.example.com/a?b=1"));
      reflexivity.
  - apply (proj1 validators_accept_trailing_newline (lit "1234567890123456")); reflexivity.
Defined.

(** ** Hashtags and mentions *)

Section Tags.

Variable c0 : ascii.
Hypothesis Hc0 : uni_isword c0 = false.

(** What the engine finds at one position: the sign and the longest run of
    word characters behind it, which may not be empty. *)
Lemma tag_first_match p text :
  first_match (tag_re c0) false false (MState p text []) =
  match text with
  | c :: t =>
      if Ascii.eqb c0 c then
        match take_while word_test t with
        | [] => None
        | w => Some (MState (prev_after (Some c) w) (drop_while word_test t) [])
        end
      else None
  | [] => None
  end.
Proof.
  rewrite first_match_hd. unfold tag_re, word_set. cbn [ms].
  unfold step at 2. cbn [right caps].
  destruct text as [|c t]; [reflexivity|].
  destruct (Ascii.eqb c0 c) eqn:E; [|reflexivity].
  cbn [flat_map]. rewrite app_nil_r, flat_map_unit.
  unfold rep_bound. cbn [right].
  rewrite <- (take_drop word_test t) at 1 2.
  destruct (take_while word_test t) as [|x w] eqn:Ew.
  - rewrite rep_step_short; auto.
    + constructor.
    + apply drop_while_stops.
  - rewrite <- Ew. apply rep_step_hd.
    + apply take_while_pass.
    + apply drop_while_stops.
    + rewrite length_app, Ew. simpl. lia.
Qed.

Lemma tag_scan_indep text : forall p p' k,
  scan (tag_re c0) p text k = scan (tag_re c0) p' text k.
Proof.
  induction text as [|c t IH]; intros p p' k.
  - destruct k; [|reflexivity]. cbn [scan]. now rewrite !tag_first_match.
  - destruct k as [|k]; [|cbn [scan]; reflexivity].
    cbn [scan]. rewrite !tag_first_match. reflexivity.
Qed.

(** A match that starts in [pre] ends in [pre] when a character that is no
    word character comes next. *)
Lemma tag_scan_app n : forall pre p x,
  length pre <= n -> stops word_test x ->
  scan (tag_re c0) p (pre ++ x) 0 =
  scan (tag_re c0) p pre 0 ++ scan (tag_re c0) (prev_after p pre) x 0.
Proof.
  induction n as [|n IH]; intros pre p x Hn Hx.
  - destruct pre; [|simpl in Hn; lia]. cbn [app].
    rewrite (scan_nil_nomatch (tag_re c0) p); [reflexivity|apply tag_first_match].
  - destruct pre as [|c t].
    { cbn [app]. rewrite (scan_nil_nomatch (tag_re c0) p);
        [reflexivity|apply tag_first_match]. }
    simpl in Hn.
    pose proof (tag_first_match p (c :: t)) as F1.
    pose proof (tag_first_match p (c :: t ++ x)) as F2.
    cbv beta iota in F1, F2.
    rewrite take_while_app_stop, drop_while_app_stop in F2 by assumption.
    destruct (Ascii.eqb c0 c) eqn:E.
    2:{ cbn [app]. rewrite (scan_nomatch _ _ _ _ F1), (scan_nomatch _ _ _ _ F2).
        simpl. f_equal. apply IH; [lia|assumption]. }
    destruct (take_while word_test t) as [|y w] eqn:Ew.
    { cbn [app]. rewrite (scan_nomatch _ _ _ _ F1), (scan_nomatch _ _ _ _ F2).
      simpl. f_equal. apply IH; [lia|assumption]. }
    assert (Ht : t = (y :: w) ++ drop_while word_test t).
    { rewrite <- Ew. symmetry. apply take_drop. }
    assert (E1 : c :: t = (c :: y :: w) ++ drop_while word_test t).
    { simpl. f_equal. exact Ht. }
    assert (E2 : c :: t ++ x = (c :: y :: w) ++ drop_while word_test t ++ x).
    { simpl. f_equal. rewrite Ht at 1. simpl. now rewrite <- app_assoc. }
    cbn [app].
    rewrite (@scan_hit _ _ _ _ (c :: y :: w) F1);
      [| split; [exact E1 | reflexivity] | discriminate].
    rewrite (@scan_hit _ _ _ _ (c :: y :: w) F2);
      [| split; [exact E2 | reflexivity] | discriminate].
    cbn [prev right caps]. cbn [app]. f_equal.
    rewrite IH.
    + f_equal. f_equal. rewrite Ht at 2. simpl.
      rewrite <- prev_after_app. reflexivity.
    + pose proof (drop_while_length word_test t). lia.
    + assumption.
Qed.

(** The items found around an isolated tag. *)
Lemma tag_findall pre w post :
  w <> [] -> all_pass uni_isword w -> stops uni_isword post ->
  pat_findall (tag_re c0) (pre ++ c0 :: w ++ post) =
  pat_findall (tag_re c0) pre ++ (c0 :: w) :: pat_findall (tag_re c0) post.
Proof.
  intros Hw Hp Hs. unfold pat_findall, finditer.
  assert (Hp' : all_pass word_test w).
  { eapply all_pass_ext; [|exact Hp]. intros c. symmetry. apply in_set_word. }
  assert (Hs' : stops word_test post).
  { eapply stops_ext; [|exact Hs]. intros c. symmetry. apply in_set_word. }
  rewrite (@tag_scan_app (length pre)); [|lia|].
  2:{ simpl. unfold word_test. now rewrite in_set_word. }
  rewrite hits_app, map_app. f_equal.
  pose proof (tag_first_match (prev_after None pre) (c0 :: w ++ post)) as F.
  cbv beta iota in F. rewrite Ascii.eqb_refl in F.
  rewrite take_while_run, drop_while_run in F by assumption.
  destruct w as [|y w]; [congruence|].
  rewrite (@scan_hit _ _ _ _ (c0 :: y :: w) F);
    [| split; reflexivity | discriminate].
  cbn [prev right caps hits map]. f_equal.
  now rewrite (tag_scan_indep post _ None 0).
Qed.

End Tags.

(** C10: the mention pattern asks for nothing before the sign, so the sign
    and the word characters behind it are returned wherever they stand, also
    inside an e-mail address: [extract_mentions("info@company.com")] is
    [["@company"]]; for every text [pre ++ "@" ++ w ++ post] in which [w] is
    a maximal run of word characters, the result is what [pre] gives, then
    ["@" ++ w], then what [post] gives, whatever [pre] is.  The same holds
    for [extract_hashtags] and the sign [#]. *)
Theorem mentions_and_hashtags_ignore_context :
  RegexExtractor.extract_mentions (lit "info@company.com") = Some [lit "@company"]
  /\ (forall pre w post : str,
        w <> [] -> all_pass uni_isword w -> stops uni_isword post ->
        exists l1 l2,
          RegexExtractor.extract_mentions pre = Some l1 /\
          RegexExtractor.extract_mentions post = Some l2 /\
          RegexExtractor.extract_mentions (pre ++ "@" :: w ++ post)
          = Some (l1 ++ ("@" :: w) :: l2))
  /\ (forall pre w post : str,
        w <> [] -> all_pass uni_isword w -> stops uni_isword post ->
        exists l1 l2,
          RegexExtractor.extract_hashtags pre = Some l1 /\
          RegexExtractor.extract_hashtags post = Some l2 /\
          RegexExtractor.extract_hashtags (pre ++ "#" :: w ++ post)
          = Some (l1 ++ ("#" :: w) :: l2)).
Proof.
  split; [reflexivity|]. split; intros pre w post Hw Hp Hs.
  - exists (pat_findall (tag_re "@") pre), (pat_findall (tag_re "@") post).
    rewrite !extract_mentions_eq. repeat split.
    f_equal. apply tag_findall; auto.
  - exists (pat_findall (tag_re "#") pre), (pat_findall (tag_re "#") post).
    rewrite !extract_hashtags_eq. repeat split.
    f_equal. apply tag_findall; auto.
Qed.

Lemma mentions_and_hashtags_witness :
  (exists l1 l2,
     RegexExtractor.extract_mentions (lit "mail info") = Some l1 /\
     RegexExtractor.extract_mentions (lit ".com @x") = Some l2 /\
     RegexExtractor.extract_mentions (lit "mail info" ++ "@" :: lit "company" ++ lit ".com @x")
     = Some (l1 ++ ("@" :: lit "company") :: l2))
  /\ (exists l1 l2,
     RegexExtractor.extract_hashtags (lit "a#b c") = Some l1 /\
     RegexExtractor.extract_hashtags (lit "") = Some l2 /\
     RegexExtractor.extract_hashtags (lit "a#b c" ++ "#" :: lit "Regex" ++ lit "")
     = Some (l1 ++ ("#" :: lit "Regex") :: l2)).
Proof.
  split.
  - apply (proj1 (proj2 mentions_and_hashtags_ignore_context)
             (lit "mail info") (lit "company") (lit ".com @x")).
    + discriminate.
    + repeat constructor.
    + reflexivity.
  - apply (proj2 (proj2 mentions_and_hashtags_ignore_context)
             (lit "a#b c") (lit "Regex") (lit "")).
    + discriminate.
    + repeat constructor.
    + exact I.
Defined.

(** * Further properties of the engine *)

(** ** Patterns that begin with a character *)

Lemma close_group_prev gid p p' t cs x :
  close_group gid (MState p t cs) x = close_group gid (MState p' t cs) x.
Proof. destruct gid; reflexivity. Qed.

(** Such a pattern does not look at the character before the position. *)
Lemma ms_prev r :
  starts_with_char r = true ->
  forall p p' t cs, ms r (MState p t cs) = ms r (MState p' t cs).
Proof.
  induction r; cbn [starts_with_char]; intros H p p' t cs;
    try discriminate H; try reflexivity.
  - cbn [ms]. now rewrite (IHr1 H p p').
  - apply andb_prop in H as [H1 H2]. cbn [ms].
    now rewrite (IHr1 H1 p p'), (IHr2 H2 p p').
  - apply andb_prop in H as [H1 H2]. apply Nat.leb_le in H1.
    cbn [ms]. unfold rep_bound. cbn [right].
    destruct lo as [|lo]; [lia|].
    destruct (match hi with Some h => h | None => S lo + length t end) as [|n];
      cbn [rep Nat.eqb guard]; [reflexivity|].
    now rewrite (IHr H2 p p').
  - cbn [ms]. rewrite (IHr H p p'). apply map_ext. intros x.
    apply close_group_prev.
Qed.

Lemma first_match_prev r ma all p p' t :
  starts_with_char r = true ->
  first_match r ma all (MState p t []) = first_match r ma all (MState p' t []).
Proof.
  intros H. unfold first_match. rewrite (ms_prev r H p p'). reflexivity.
Qed.

Lemma scan_prev r text :
  starts_with_char r = true ->
  forall p p' k, scan r p text k = scan r p' text k.
Proof.
  intros H. induction text as [|c t IH]; intros p p' k.
  - destruct k; [|reflexivity]. cbn [scan].
    rewrite (first_match_prev r false false p p' [] H).
    rewrite (first_match_prev r true false p p' [] H). reflexivity.
  - destruct k as [|k]; [|reflexivity]. cbn [scan].
    rewrite (first_match_prev r false false p p' (c :: t) H).
    rewrite (first_match_prev r true false p p' (c :: t) H). reflexivity.
Qed.

(** ** Patterns that match no empty text *)

Lemma ms_shorter r st st' :
  In st' (ms r st) -> length (right st') <= length (right st).
Proof.
  intros H. apply ms_reaches in H as [w R]. apply reaches_len in R. lia.
Qed.

Lemma rep_shorter (body : mstate -> list mstate) :
  (forall st st', In st' (body st) -> length (right st') <= length (right st)) ->
  forall n lo st st',
    In st' (rep body n lo st) -> length (right st') <= length (right st).
Proof.
  intros Hb. induction n as [|n IH]; intros lo st st' H; cbn [rep] in H.
  - apply guard_inv in H as [_ ->]. lia.
  - apply in_app_or in H as [H|H].
    + apply in_flat_map in H as (y & Hy & H). apply Hb in Hy. apply IH in H. lia.
    + apply guard_inv in H as [_ ->]. lia.
Qed.

Lemma ms_nonempty r :
  nonempty_re r = true ->
  forall st st', In st' (ms r st) -> length (right st') < length (right st).
Proof.
  induction r; cbn [nonempty_re]; intros H st st' Hi; try discriminate H;
    try (cbn [ms] in Hi; apply step_inv in Hi as (x & rx & E & _ & ->);
         rewrite E; simpl; lia).
  - cbn [ms] in Hi. apply in_flat_map in Hi as (y & Hy & Hi).
    apply orb_prop in H as [H|H].
    + apply (IHr1 H) in Hy. apply ms_shorter in Hi. lia.
    + apply ms_shorter in Hy. apply (IHr2 H) in Hi. lia.
  - apply andb_prop in H as [H1 H2]. cbn [ms] in Hi.
    apply in_app_or in Hi as [Hi|Hi]; auto.
  - apply andb_prop in H as [H1 H2]. apply Nat.leb_le in H1.
    cbn [ms] in Hi. destruct (rep_bound lo hi st) as [|n]; cbn [rep] in Hi.
    + apply guard_inv in Hi as [E _]. apply Nat.eqb_eq in E. lia.
    + apply in_app_or in Hi as [Hi|Hi].
      * apply in_flat_map in Hi as (y & Hy & Hi). apply (IHr H2) in Hy.
        apply (rep_shorter (ms r) (ms_shorter r)) in Hi. lia.
      * apply guard_inv in Hi as [E _]. apply Nat.eqb_eq in E. lia.
  - cbn [ms] in Hi. apply in_map_iff in Hi as (y & <- & Hy).
    apply (IHr H) in Hy. destruct gid; exact Hy.
Qed.

(** ** The text, the items and the rest *)

Lemma chunks_text r text p :
  flat_map chunk_text (map chunk_of_event (scan r p text 0)) = text.
Proof.
  rewrite flat_map_map. rewrite <- (scan_text r text p) at 2.
  apply flat_map_ext. intros [c|m]; reflexivity.
Qed.

Lemma chunks_items evs :
  flat_map chunk_items (map chunk_of_event evs) = map whole (hits evs).
Proof. induction evs as [|[c|m] evs IH]; simpl; congruence. Qed.

Lemma chunks_gaps evs :
  flat_map chunk_gaps (map chunk_of_event evs) = flat_map (render []) evs.
Proof. induction evs as [|[c|m] evs IH]; simpl; congruence. Qed.

Lemma findall_whole r text :
  ngroups r = 0 -> pat_findall r text = map whole (hits (finditer r text)).
Proof. intros E. unfold pat_findall. rewrite E. reflexivity. Qed.

(** What a pattern without groups finds: pieces of the text, one behind the
    other, each of them a match of the pattern. *)
Lemma findall_found_in r text :
  ngroups r = 0 -> nonempty_re r = true -> found_in (pat_findall r text) text.
Proof.
  intros Hg Hn. exists (map chunk_of_event (finditer r text)).
  rewrite (findall_whole _ _ Hg). split; [|split].
  - symmetry. apply chunks_text.
  - symmetry. apply chunks_items.
  - apply Forall_forall. intros x Hx. apply in_map_iff in Hx as (m & <- & Hm).
    apply scan_hits_inv in Hm as (pre & post & st' & _ & Hi & ->).
    pose proof (ms_nonempty r Hn _ _ Hi) as Hl.
    destruct (ms_reaches _ _ _ Hi) as [w R].
    cbn [mobj_of whole]. rewrite (reaches_consumed _ _ _ R).
    apply reaches_len in R. intros ->. cbn [right length Nat.add] in *. lia.
Qed.

Lemma findall_item r text x :
  ngroups r = 0 -> In x (pat_findall r text) ->
  exists pre post st',
    text = pre ++ post /\
    In st' (ms r (MState (prev_after None pre) post [])) /\
    x = consumed (MState (prev_after None pre) post []) st'.
Proof.
  intros Hg Hx. rewrite (findall_whole _ _ Hg) in Hx.
  apply in_map_iff in Hx as (m & <- & Hm).
  apply scan_hits_inv in Hm as (pre & post & st' & E & Hi & ->).
  exists pre, post, st'. auto.
Qed.

(** ** Accepting a string *)

Lemma accepts_iff r s :
  truthy (pat_match r s) = true <-> exists z, In z (ms r (MState None s [])).
Proof.
  unfold pat_match. rewrite first_match_hd.
  destruct (ms r (MState None s [])) as [|z zs]; simpl.
  - split; [discriminate|intros [z []]].
  - split; [intros _; exists z; auto|reflexivity].
Qed.

Lemma accepts_hd r s z :
  hd_error (ms r (MState None s [])) = Some z -> truthy (pat_match r s) = true.
Proof.
  intros H. apply accepts_iff. exists z.
  destruct (ms r (MState None s [])); [discriminate|]. injection H as ->. now left.
Qed.

Lemma is_newline_nl c : is_newline c = true -> c = nl.
Proof. apply Ascii.eqb_eq. Qed.

(** Where [$] holds: at the end, or before one last line feed. *)
Lemma at_end_inv st : at_end st = true -> right st = [] \/ right st = [nl].
Proof.
  unfold at_end. destruct (right st) as [|c [|c' r]]; [auto| |discriminate].
  intros H. apply is_newline_nl in H. subst c. auto.
Qed.

Lemma at_end_tail p rest cs :
  rest = [] \/ rest = [nl] -> at_end (MState p rest cs) = true.
Proof. intros [->| ->]; reflexivity. Qed.

Lemma is_value_tail v s : is_value v s <-> exists rest, (rest = [] \/ rest = [nl]) /\ s = v ++ rest.
Proof.
  unfold is_value. split.
  - intros [->| ->]; [exists []|exists [nl]]; rewrite ?app_nil_r; auto.
  - intros (rest & [->| ->] & ->); rewrite ?app_nil_r; auto.
Qed.

(** Searching for one character of a set. *)
Lemma search_set items s : forall p,
  truthy (hd_error (hits (scan (Seq (InSet false items) Eps) p s 0)))
  = existsb (in_set false items) s.
Proof.
  induction s as [|c t IH]; intros p; [reflexivity|].
  assert (F : first_match (Seq (InSet false items) Eps) false false (MState p (c :: t) [])
              = if in_set false items c then Some (MState (Some c) t []) else None).
  { rewrite first_match_hd. cbn [ms]. unfold step. cbn [right caps].
    destruct (in_set false items c); reflexivity. }
  cbn [existsb]. destruct (in_set false items c) eqn:E.
  - rewrite (@scan_hit _ _ _ _ [c] F); [reflexivity|split; reflexivity|discriminate].
  - rewrite (scan_nomatch _ _ _ _ F). cbn [hits orb]. apply IH.
Qed.

Lemma existsb_pointwise {A} (f g : A -> bool) (l : list A) :
  (forall x, f x = g x) -> existsb f l = existsb g l.
Proof. intros E. induction l as [|a l IH]; simpl; [|rewrite E, IH]; reflexivity. Qed.

(** * Further properties of the program *)

(** ** The criteria of a password *)

Lemma compile_upper :
  re_compile (lit "[A-Z]") false = Some (Seq (InSet false [SRange "A" "Z"]) Eps).
Proof. reflexivity. Qed.

Lemma compile_lower :
  re_compile (lit "[a-z]") false = Some (Seq (InSet false [SRange "a" "z"]) Eps).
Proof. reflexivity. Qed.

Lemma compile_digit : re_compile (lit "\d") false = Some (Seq digit_set Eps).
Proof. reflexivity. Qed.

Lemma compile_special :
  re_compile RegexValidator.special_pattern false
  = Some (Seq (InSet false (map SChar password_specials)) Eps).
Proof. reflexivity. Qed.

Lemma in_set_chars l c : in_set false (map SChar l) c = existsb (Ascii.eqb c) l.
Proof.
  unfold in_set. cbn [xorb]. induction l as [|x l IH]; simpl; [reflexivity|].
  now rewrite IH.
Qed.

Lemma in_set_range lo hi c : in_set false [SRange lo hi] c = chr_range lo hi c.
Proof. unfold in_set. simpl. now rewrite orb_false_r. Qed.

(** X1: [validate_password] reports, under its five keys and in this order:
    that the password has eight characters or more, and that it holds a
    letter from [A] to [Z], a letter from [a] to [z], a decimal digit, and
    one of the special characters of the list; letters outside these two
    ranges count for nothing. *)
Theorem validate_password_criteria :
  forall s : str,
    RegexValidator.validate_password s
    = Some [ ("min_length"%string, Nat.leb 8 (length s));
             ("has_uppercase"%string, existsb is_upper s);
             ("has_lowercase"%string, existsb is_lower s);
             ("has_digit"%string, existsb uni_isdigit s);
             ("has_special"%string, existsb is_password_special s) ].
Proof.
  intros s. unfold RegexValidator.validate_password, re_search.
  rewrite compile_upper, compile_lower, compile_digit, compile_special.
  cbn [opt_bind]. unfold pat_search, finditer, digit_set.
  rewrite !search_set.
  rewrite (existsb_pointwise _ is_upper s (in_set_range "A" "Z")).
  rewrite (existsb_pointwise _ is_lower s (in_set_range "a" "z")).
  rewrite (existsb_pointwise _ uni_isdigit s in_set_digit).
  rewrite (existsb_pointwise _ is_password_special s (in_set_chars password_specials)).
  reflexivity.
Qed.

(** ** What the validators accept *)

Lemma stops_tail test rest :
  rest = [] \/ rest = [nl] -> test nl = false -> stops test rest.
Proof. intros [->| ->] H; simpl; auto. Qed.

(** X2: [validate_nik] accepts the strings of sixteen decimal digits, and these
    strings followed by one line feed; nothing else. *)
Theorem validate_nik_accepts :
  forall s : str,
    RegexValidator.validate_nik s = Some true
    <-> exists ds, all_pass uni_isdigit ds /\ length ds = 16 /\ is_value ds s.
Proof.
  intros s. rewrite validate_nik_eq. split.
  - intros [= H]. apply accepts_iff in H as [z H].
    unfold nik_re, digit_set in H. cbn [ms rep_bound] in H.
    apply in_flat_map in H as (x0 & H0 & H). apply guard_inv in H0 as [_ ->].
    apply in_flat_map in H as (x1 & H1 & H).
    apply rep_step_in in H1 as (ds & [R1 _] & P1 & L1 & L1' & _).
    apply in_flat_map in H as (x2 & H2 & _). apply guard_inv in H2 as [He _].
    cbn [right] in R1. exists ds. split; [now apply digits_of_set|].
    split; [lia|]. apply is_value_tail. exists (right x1).
    split; [now apply at_end_inv|exact R1].
  - intros (ds & Pd & Ld & Hv). apply is_value_tail in Hv as (rest & Hr & ->).
    f_equal. apply (accepts_hd _ _ (MState (prev_after None ds) rest [])).
    unfold nik_re, digit_set. cbn [ms guard prev flat_map]. rewrite app_nil_r.
    apply hd_error_flat_map with (x := MState (prev_after None ds) rest []).
    + apply rep_step_hd.
      * now apply all_digits_in_set.
      * now apply stops_tail.
      * unfold rep_bound. lia.
    + cbn [ms]. rewrite (at_end_tail _ _ _ Hr). reflexivity.
Qed.

Lemma validate_nik_accepts_witness :
  RegexValidator.validate_nik (lit "3201234567890123") = Some true.
Proof.
  apply (proj2 (validate_nik_accepts (lit "3201234567890123"))).
  exists (lit "3201234567890123"). split; [repeat constructor|].
  split; [reflexivity|left; reflexivity].
Defined.

Lemma in_set_digit_range c : in_set false [SRange "0" "9"] c = uni_isdigit c.
Proof. apply in_set_range. Qed.

(** Every match of the anchored pattern: a prefix, nine to twelve digits,
    and then the end of the string. *)
Lemma phone_v_shape s z :
  In z (ms phone_anchored_re (MState None s [])) ->
  exists prefix ds rest,
    In prefix phone_prefixes /\ all_pass uni_isdigit ds
    /\ 9 <= length ds <= 12 /\ (rest = [] \/ rest = [nl])
    /\ s = prefix ++ ds ++ rest.
Proof.
  intros H. unfold phone_anchored_re, digit_range in H. cbn [ms rep_bound] in H.
  apply in_flat_map in H as (x0 & H0 & H). apply guard_inv in H0 as [_ ->].
  apply in_flat_map in H as (y & Hy & H).
  apply in_map_iff in Hy as (z1 & <- & Hz).
  apply phone_prefix_in in Hz as (w & Hw & [R1 _] & _).
  apply in_flat_map in H as (x2 & H2 & H).
  apply rep_step_in in H2 as (ds & [R2 _] & P2 & L2 & L2' & _).
  apply in_flat_map in H as (x3 & H3 & _). apply guard_inv in H3 as [He _].
  cbn [close_group right] in *.
  exists w, ds, (right x2). split; [exact Hw|]. split.
  { eapply all_pass_ext; [|exact P2]. apply in_set_digit_range. }
  split; [lia|]. split; [now apply at_end_inv|]. now rewrite R1, R2.
Qed.

(** X3: [validate_phone_id] accepts one of the prefixes [+62], [62], [0]
    followed by nine to twelve decimal digits, and such a string followed by
    one line feed; nothing else. *)
Theorem validate_phone_id_accepts :
  forall s : str,
    RegexValidator.validate_phone_id s = Some true
    <-> exists prefix ds,
          In prefix phone_prefixes /\ all_pass uni_isdigit ds
          /\ 9 <= length ds <= 12 /\ is_value (prefix ++ ds) s.
Proof.
  intros s. rewrite validate_phone_id_eq. split.
  - intros [= H]. apply accepts_iff in H as [z H].
    apply phone_v_shape in H as (prefix & ds & rest & Hp & Pd & Ld & Hr & ->).
    exists prefix, ds. repeat (split; [assumption|]).
    apply is_value_tail. exists rest. split; [exact Hr|]. apply app_assoc.
  - intros (prefix & ds & Hp & Pd & Ld & Hv).
    apply is_value_tail in Hv as (rest & Hr & ->). f_equal.
    apply (accepts_hd _ _ (MState (prev_after (prev_after None prefix) ds) rest
                                  [(1, prefix)])).
    unfold phone_anchored_re.
    change (ms (Seq ?a ?b) ?st) with (flat_map (ms b) (ms a st)) at 1.
    change (ms Bol ?st)
      with (guard (match prev st with None => true | Some _ => false end) st).
    cbn [prev guard flat_map]. rewrite app_nil_r.
    change (ms (Seq ?a ?b) ?st) with (flat_map (ms b) (ms a st)) at 1.
    rewrite <- app_assoc. rewrite (phone_group_one _ _ _ _ Hp).
    cbn [flat_map]. rewrite app_nil_r.
    unfold digit_range. cbn [ms rep_bound].
    apply hd_error_flat_map
      with (x := MState (prev_after (prev_after None prefix) ds) rest [(1, prefix)]).
    + apply rep_step_hd.
      * eapply all_pass_ext; [|exact Pd]. intros c. symmetry.
        apply in_set_digit_range.
      * now apply stops_tail.
      * lia.
    + rewrite (at_end_tail _ _ _ Hr). reflexivity.
Qed.

Lemma validate_phone_id_accepts_witness :
  RegexValidator.validate_phone_id (lit "62" ++ lit "81234567890") = Some true.
Proof.
  apply (proj2 (validate_phone_id_accepts (lit "62" ++ lit "81234567890"))).
  exists (lit "62"), (lit "81234567890").
  split; [simpl; tauto|]. split; [repeat constructor|].
  split; [simpl; lia|left; reflexivity].
Defined.

(** The dot and the letters at the end of an address, before the end of the
    string. *)
Lemma email_v_tail_hd t rest p cs :
  all_pass letter_test t -> 2 <= length t -> rest = [] \/ rest = [nl] ->
  hd_error (ms (Seq (Lit ".") (Seq (Rep 2 None letter_set) (Seq Eol Eps)))
               (MState p ("." :: t ++ rest) cs))
  = Some (MState (prev_after (Some ".") t) rest cs).
Proof.
  intros Pt Lt Hr. unfold letter_set. cbn [ms]. unfold step at 2.
  cbn [right caps]. change (Ascii.eqb "." ".") with true. cbv iota.
  cbn [flat_map]. rewrite app_nil_r.
  apply hd_error_flat_map with (x := MState (prev_after (Some ".") t) rest cs).
  - apply rep_step_hd; [exact Pt|now apply stops_tail|].
    unfold rep_bound. cbn [right]. rewrite length_app. lia.
  - rewrite (at_end_tail _ _ _ Hr). reflexivity.
Qed.

Lemma email_v_tail_fail b rest p cs :
  all_pass letter_test b -> rest = [] \/ rest = [nl] ->
  ms (Seq (Lit ".") (Seq (Rep 2 None letter_set) (Seq Eol Eps)))
     (MState p (b ++ rest) cs) = [].
Proof.
  intros Pb Hr. cbn [ms]. unfold step. cbn [right].
  destruct b as [|c b].
  - destruct Hr as [->| ->]; reflexivity.
  - inversion Pb as [|? ? Hc _]; subst. cbn [app].
    now rewrite (letter_not_dot _ Hc).
Qed.

Lemma email_v_domain_hd dd t rest p cs :
  all_pass domain_test dd -> 1 <= length dd ->
  all_pass letter_test t -> 2 <= length t -> rest = [] \/ rest = [nl] ->
  hd_error
    (ms (Seq (Rep 1 None domain_set)
          (Seq (Lit ".") (Seq (Rep 2 None letter_set) (Seq Eol Eps))))
        (MState p ((dd ++ "." :: t) ++ rest) cs))
  = Some (MState (prev_after (Some ".") t) rest cs).
Proof.
  intros Pd Ld Pt Lt Hr.
  change (ms (Seq ?a ?b) ?st) with (flat_map (ms b) (ms a st)) at 1.
  unfold domain_set at 1. cbn [ms rep_bound right].
  assert (Pw : all_pass domain_test (dd ++ "." :: t)).
  { apply Forall_app. split; [exact Pd|]. constructor; [reflexivity|].
    eapply Forall_impl; [|exact Pt]. apply letter_is_domain. }
  apply (rep_step_first_greedy domain_test _ rest cs _ (dd ++ "." :: t) p 1 _
           dd ("." :: t)); auto.
  - now apply stops_tail.
  - rewrite !length_app. lia.
  - intros a b E Hl.
    apply app_split_longer in E as (m & _ & E & Hm); [|exact Hl].
    destruct m as [|x m]; [congruence|]. injection E as _ E.
    apply email_v_tail_fail; [|exact Hr].
    rewrite E in Pt. eapply all_pass_suffix; eauto.
  - now apply email_v_tail_hd.
Qed.

Lemma email_v_hd l dd t rest :
  all_pass local_test l -> 1 <= length l ->
  all_pass domain_test dd -> 1 <= length dd ->
  all_pass letter_test t -> 2 <= length t -> rest = [] \/ rest = [nl] ->
  hd_error (ms email_anchored_re
              (MState None ((l ++ "@" :: dd ++ "." :: t) ++ rest) []))
  = Some (MState (prev_after (Some ".") t) rest []).
Proof.
  intros Pl Ll Pd Ld Pt Lt Hr. unfold email_anchored_re.
  change (ms (Seq ?a ?b) ?st) with (flat_map (ms b) (ms a st)) at 1.
  change (ms Bol ?st)
    with (guard (match prev st with None => true | Some _ => false end) st).
  cbn [prev guard flat_map]. rewrite app_nil_r.
  change (ms (Seq ?a ?b) ?st) with (flat_map (ms b) (ms a st)) at 1.
  rewrite <- app_assoc. cbn [app].
  apply hd_error_flat_map
    with (x := MState (prev_after None l) ("@" :: (dd ++ "." :: t) ++ rest) []).
  - unfold local_set. cbn [ms]. apply (rep_step_hd local_test); auto.
    + reflexivity.
    + unfold rep_bound. cbn [right]. rewrite length_app. lia.
  - change (ms (Seq ?a ?b) ?st) with (flat_map (ms b) (ms a st)) at 1.
    change (ms (Lit ?c) ?st) with (step (Ascii.eqb c) st).
    unfold step. cbn [right caps].
    change (Ascii.eqb "@" "@") with true. cbv iota.
    cbn [flat_map]. rewrite app_nil_r. now apply email_v_domain_hd.
Qed.

(** Every match of the anchored pattern: a local part, the sign, a domain, a
    dot and letters, and then the end of the string. *)
Lemma email_v_shape s z :
  In z (ms email_anchored_re (MState None s [])) ->
  exists l dd t,
    all_pass local_test l /\ 1 <= length l
    /\ all_pass domain_test dd /\ 1 <= length dd
    /\ all_pass letter_test t /\ 2 <= length t
    /\ is_value (l ++ "@" :: dd ++ "." :: t) s.
Proof.
  intros H. unfold email_anchored_re, local_set, domain_set, letter_set in H.
  cbn [ms] in H.
  apply in_flat_map in H as (x0 & H0 & H). apply guard_inv in H0 as [_ ->].
  apply in_flat_map in H as (x1 & H1 & H).
  apply rep_step_in in H1 as (l & [R1 _] & P1 & L1 & _ & _).
  apply in_flat_map in H as (x2 & H2 & H).
  apply step_inv in H2 as (a & r2 & E2 & T2 & ->).
  apply Ascii.eqb_eq in T2. subst a.
  apply in_flat_map in H as (x3 & H3 & H).
  apply rep_step_in in H3 as (dd & [R3 _] & P3 & L3 & _ & _).
  apply in_flat_map in H as (x4 & H4 & H).
  apply step_inv in H4 as (b & r4 & E4 & T4 & ->).
  apply Ascii.eqb_eq in T4. subst b.
  apply in_flat_map in H as (x5 & H5 & H).
  apply rep_step_in in H5 as (t & [R5 _] & P5 & L5 & _ & _).
  apply in_flat_map in H as (x6 & H6 & _). apply guard_inv in H6 as [He ->].
  cbn [right] in *.
  exists l, dd, t. repeat (split; [assumption || lia|]).
  apply is_value_tail. exists (right x5). split; [now apply at_end_inv|].
  rewrite R1, E2, R3, E4, R5. rewrite <- !app_assoc. cbn [app].
  rewrite <- !app_assoc. reflexivity.
Qed.

(** X4: [validate_email] accepts a local part, the sign [@], a domain, a dot and
    two letters or more, and such a string followed by one line feed;
    nothing else.  The local part is one character or more of
    [a-zA-Z0-9._%+-], the domain one character or more of [a-zA-Z0-9.-],
    the letters are of [a-zA-Z]. *)
Theorem validate_email_accepts :
  forall s : str,
    RegexValidator.validate_email s = Some true
    <-> exists l dd t,
          all_pass local_test l /\ 1 <= length l
          /\ all_pass domain_test dd /\ 1 <= length dd
          /\ all_pass letter_test t /\ 2 <= length t
          /\ is_value (l ++ "@" :: dd ++ "." :: t) s.
Proof.
  intros s. rewrite validate_email_eq. split.
  - intros [= H]. apply accepts_iff in H as [z H]. eapply email_v_shape; eauto.
  - intros (l & dd & t & Pl & Ll & Pd & Ld & Pt & Lt & Hv).
    apply is_value_tail in Hv as (rest & Hr & ->). f_equal.
    eapply accepts_hd. now apply email_v_hd.
Qed.

Lemma validate_email_accepts_witness :
  RegexValidator.validate_email (lit "a.b" ++ "@" :: lit "mail.example" ++ "." :: lit "org")
  = Some true.
Proof.
  apply (proj2 (validate_email_accepts
                  (lit "a.b" ++ "@" :: lit "mail.example" ++ "." :: lit "org"))).
  exists (lit "a.b"), (lit "mail.example"), (lit "org").
  split; [repeat constructor|]. split; [simpl; lia|].
  split; [repeat constructor|]. split; [simpl; lia|].
  split; [repeat constructor|]. split; [simpl; lia|].
  left. reflexivity.
Defined.

(** ** Addresses found in a text *)

(** Every match of the pattern of the extractor: a local part, the sign, a
    domain, a dot and letters. *)
Lemma email_match_shape st st' :
  In st' (ms email_re st) ->
  exists l dd t,
    reaches st st' (l ++ "@" :: dd ++ "." :: t)
    /\ all_pass local_test l /\ 1 <= length l
    /\ all_pass domain_test dd /\ 1 <= length dd
    /\ all_pass letter_test t /\ 2 <= length t.
Proof.
  intros H. unfold email_re, local_set, domain_set, letter_set in H.
  cbn [ms] in H.
  apply in_flat_map in H as (x0 & H0 & H). apply guard_inv in H0 as [_ ->].
  apply in_flat_map in H as (x1 & H1 & H).
  apply rep_step_in in H1 as (l & R1 & P1 & L1 & _ & _).
  apply in_flat_map in H as (x2 & H2 & H).
  apply step_inv in H2 as (a & r2 & E2 & T2 & ->).
  apply Ascii.eqb_eq in T2. subst a.
  apply in_flat_map in H as (x3 & H3 & H).
  apply rep_step_in in H3 as (dd & R3 & P3 & L3 & _ & _).
  apply in_flat_map in H as (x4 & H4 & H).
  apply step_inv in H4 as (b & r4 & E4 & T4 & ->).
  apply Ascii.eqb_eq in T4. subst b.
  apply in_flat_map in H as (x5 & H5 & H).
  apply rep_step_in in H5 as (t & R5 & P5 & L5 & _ & _).
  apply in_flat_map in H as (x6 & H6 & H). apply guard_inv in H6 as [_ ->].
  destruct H as [<-|[]].
  exists l, dd, t. split; [|repeat (split; [assumption || lia|]); lia].
  replace (l ++ "@" :: dd ++ "." :: t) with (l ++ ["@"] ++ dd ++ ["."] ++ t)
    by reflexivity.
  assert (R2 : reaches x1 (MState (Some "@") r2 (caps x1)) ["@"])
    by (split; [exact E2|reflexivity]).
  assert (R4 : reaches x3 (MState (Some ".") r4 (caps x3)) ["."])
    by (split; [exact E4|reflexivity]).
  exact (reaches_trans _ _ _ _ _ R1
           (reaches_trans _ _ _ _ _ R2
              (reaches_trans _ _ _ _ _ R3 (reaches_trans _ _ _ _ _ R4 R5)))).
Qed.

(** X5: whatever [extract_emails] returns for a text, [validate_email] accepts. *)
Theorem extracted_emails_are_valid :
  forall (text : str) (l : list str) (x : str),
    RegexExtractor.extract_emails text = Some l ->
    In x l ->
    RegexValidator.validate_email x = Some true.
Proof.
  intros text l x E Hx. rewrite extract_emails_eq in E. injection E as <-.
  apply findall_item in Hx as (pre & post & st' & _ & Hi & ->); [|reflexivity].
  apply email_match_shape in Hi as (lp & dd & t & R & Pl & Ll & Pd & Ld & Pt & Lt).
  rewrite (reaches_consumed _ _ _ R), validate_email_eq. f_equal.
  eapply accepts_hd.
  rewrite <- (app_nil_r (lp ++ "@" :: dd ++ "." :: t)).
  apply email_v_hd; auto.
Qed.

Lemma extracted_emails_are_valid_witness :
  RegexValidator.validate_email (lit "info@company.com") = Some true.
Proof.
  apply (extracted_emails_are_valid
           (lit "Hubungi info@company.com atau support@company.co.id.")
           [lit "info@company.com"; lit "support@company.co.id"]
           (lit "info@company.com")).
  - vm_compute. reflexivity.
  - left. reflexivity.
Defined.

(** ** The shape of a URL *)

Lemma in_seq a b st y z :
  In y (ms a st) -> In z (ms b y) -> In z (ms (Seq a b) st).
Proof. intros Hy Hz. cbn [ms]. apply in_flat_map. eauto. Qed.

Lemma in_lit c p r cs :
  In (MState (Some c) r cs) (ms (Lit c) (MState p (c :: r) cs)).
Proof.
  cbn [ms]. unfold step. cbn [right caps]. rewrite Ascii.eqb_refl. now left.
Qed.

(** A repeat of a one-character test can stop behind every admissible
    number of characters. *)
Lemma rep_step_complete test w : forall rest p cs n lo,
  all_pass test w -> lo <= length w <= n ->
  In (MState (prev_after p w) rest cs)
     (rep (step test) n lo (MState p (w ++ rest) cs)).
Proof.
  induction w as [|c w IH]; intros rest p cs n lo Hw Hn; simpl in Hn.
  - assert (lo = 0) as -> by lia. cbn [app prev_after fold_left].
    destruct n as [|n]; cbn [rep Nat.eqb guard]; [now left|].
    apply in_or_app. right. now left.
  - inversion Hw as [|? ? Hc Hw']; subst.
    destruct n as [|n]; [lia|]. cbn [rep app].
    apply in_or_app. left. unfold step at 2. cbn [right caps]. rewrite Hc.
    cbn [flat_map]. rewrite app_nil_r. rewrite prev_after_cons.
    apply IH; [assumption|lia].
Qed.

Lemma prev_after_nonempty w p p' : w <> [] -> prev_after p w = prev_after p' w.
Proof. destruct w as [|c w]; [congruence|reflexivity]. Qed.

Lemma word_at_tail q rest :
  rest = [] \/ rest = [nl] ->
  word_at (hd_error (q ++ rest)) = word_at (hd_error q).
Proof. destruct q as [|c q]; [|reflexivity]. intros [->| ->]; reflexivity. Qed.

(** The optional letter of the scheme. *)
Lemma url_s_inv st x :
  In x (ms (Rep 0 (Some 1) (Lit "s")) st) ->
  exists w, In w [[]; ["s"]] /\ reaches st x w /\ caps x = caps st.
Proof.
  cbn [ms rep_bound]. intros H.
  apply rep_step_in in H as (w & R & P & _ & L & C).
  exists w. split; [|auto].
  destruct w as [|c [|c' w]]; [simpl; auto| |simpl in L; lia].
  inversion P as [|? ? Hc _]; subst. apply Ascii.eqb_eq in Hc. subst c.
  simpl. auto.
Qed.

(** The optional beginning of the host. *)
Lemma url_www_inv st x :
  In x (ms (Rep 0 (Some 1) (Group None (lits (lit "www.")))) st) ->
  exists w, In w url_www /\ reaches st x w /\ caps x = caps st.
Proof.
  cbn [ms rep_bound rep pred Nat.eqb guard close_group]. intros H.
  apply in_app_or in H as [H|H].
  - apply in_flat_map in H as (y & Hy & H). destruct H as [<-|[]].
    apply in_map_iff in Hy as (y' & <- & Hy).
    apply ms_lits_reaches in Hy as [R C].
    exists (lit "www."). split; [simpl; auto|auto].
  - destruct H as [<-|[]]. exists []. split; [simpl; auto|].
    split; [apply reaches_refl|reflexivity].
Qed.

Lemma url_www_complete www p r cs :
  In www url_www ->
  In (MState (prev_after p www) r cs)
     (ms (Rep 0 (Some 1) (Group None (lits (lit "www.")))) (MState p (www ++ r) cs)).
Proof.
  intros [<-|[<-|[]]].
  - cbn [ms rep_bound rep pred Nat.eqb guard app]. apply in_or_app. right. now left.
  - cbn [ms rep_bound rep pred Nat.eqb guard]. apply in_or_app. left.
    simpl. now left.
Qed.

Lemma url_s_complete w p r cs :
  In w [[]; ["s"]] ->
  In (MState (prev_after p w) r cs)
     (ms (Rep 0 (Some 1) (Lit "s")) (MState p (w ++ r) cs)).
Proof.
  intros Hw. cbn [ms rep_bound]. apply rep_step_complete.
  - destruct Hw as [<-|[<-|[]]]; repeat constructor.
  - destruct Hw as [<-|[<-|[]]]; simpl; lia.
Qed.

Lemma in_seq_inv a b st z :
  In z (ms (Seq a b) st) -> exists y, In y (ms a st) /\ In z (ms b y).
Proof. cbn [ms]. intros H. apply in_flat_map in H. exact H. Qed.

Lemma lit_inv c st y : In y (ms (Lit c) st) -> reaches st y [c].
Proof.
  cbn [ms]. intros H. apply step_inv in H as (x & r & E & T & ->).
  apply Ascii.eqb_eq in T. subst x. split; [exact E|reflexivity].
Qed.

Lemma set_inv items n lo hi st y :
  rep_bound lo hi st <= n ->
  In y (ms (Rep lo hi (InSet false items)) st) ->
  exists w, reaches st y w /\ all_pass (in_set false items) w
            /\ lo <= length w <= n.
Proof.
  cbn [ms]. intros Hn H.
  apply rep_step_in in H as (w & R & P & L & L' & _).
  exists w. split; [exact R|]. split; [exact P|]. lia.
Qed.

(** Every match of the pattern of a URL, up to what follows the path. *)
Lemma url_shape tail st z :
  In z (ms (url_from_http tail) st) ->
  exists scheme www h d q mid,
    In scheme url_schemes /\ In www url_www
    /\ all_pass host_test h /\ 1 <= length h <= 256
    /\ all_pass tld_test d /\ 1 <= length d <= 6
    /\ all_pass path_test q
    /\ reaches st mid (scheme ++ www ++ h ++ "." :: d ++ q)
    /\ xorb (word_at (prev_after None d)) (word_at (hd_error (q ++ right mid))) = true
    /\ In z (ms tail mid).
Proof.
  intros H. unfold url_from_http in H.
  apply in_seq_inv in H as (y1 & H1 & H). apply lit_inv in H1.
  apply in_seq_inv in H as (y2 & H2 & H). apply lit_inv in H2.
  apply in_seq_inv in H as (y3 & H3 & H). apply lit_inv in H3.
  apply in_seq_inv in H as (y4 & H4 & H). apply lit_inv in H4.
  apply in_seq_inv in H as (y5 & H5 & H).
  apply url_s_inv in H5 as (ws & Hs & H5 & _).
  apply in_seq_inv in H as (y6 & H6 & H). apply lit_inv in H6.
  apply in_seq_inv in H as (y7 & H7 & H). apply lit_inv in H7.
  apply in_seq_inv in H as (y8 & H8 & H). apply lit_inv in H8.
  unfold url_after_scheme in H.
  apply in_seq_inv in H as (y9 & H9 & H).
  apply url_www_inv in H9 as (www & Hw & H9 & _).
  apply in_seq_inv in H as (y10 & H10 & H).
  apply (set_inv host_items 256) in H10 as (h & H10 & Ph & Lh); [|reflexivity].
  apply in_seq_inv in H as (y11 & H11 & H). apply lit_inv in H11.
  apply in_seq_inv in H as (y12 & H12 & H).
  apply (set_inv tld_items 6) in H12 as (d & H12 & Pd & Ld); [|reflexivity].
  apply in_seq_inv in H as (y13 & H13 & H).
  cbn [ms] in H13. apply guard_inv in H13 as [Hb ->].
  apply in_seq_inv in H as (mid & H14 & H).
  cbn [ms] in H14. apply in_map_iff in H14 as (y15 & <- & H14).
  rewrite flat_map_unit in H14.
  apply rep_step_in in H14 as (q & H14 & Pq & _ & _ & _).
  cbn [close_group] in *.
  exists ((lit "http" ++ ws) ++ lit "://"), www, h, d, q, y15.
  split. { destruct Hs as [<-|[<-|[]]]; simpl; auto. }
  split; [exact Hw|]. split; [exact Ph|]. split; [exact Lh|].
  split; [exact Pd|]. split; [exact Ld|]. split; [exact Pq|].
  split; [|split; [|exact H]].
  - pose proof (reaches_trans _ _ _ _ _ H1 (reaches_trans _ _ _ _ _ H2
        (reaches_trans _ _ _ _ _ H3 (reaches_trans _ _ _ _ _ H4
        (reaches_trans _ _ _ _ _ H5 (reaches_trans _ _ _ _ _ H6
        (reaches_trans _ _ _ _ _ H7 (reaches_trans _ _ _ _ _ H8
        (reaches_trans _ _ _ _ _ H9 (reaches_trans _ _ _ _ _ H10
        (reaches_trans _ _ _ _ _ H11 (reaches_trans _ _ _ _ _ H12 H14)))))))))))) as R.
    cbn [app] in R. rewrite <- !app_assoc. exact R.
  - unfold at_boundary in Hb. destruct H12 as [_ E12]. rewrite E12 in Hb.
    destruct H14 as [E14 _]. rewrite E14 in Hb.
    rewrite (prev_after_nonempty d _ None) in Hb; [exact Hb|].
    intros ->. simpl in Ld. lia.
Qed.

(** Conversely, a string of this shape is matched. *)
Lemma url_complete tail scheme www h d q rest p cs z :
  In scheme url_schemes -> In www url_www ->
  all_pass host_test h -> 1 <= length h <= 256 ->
  all_pass tld_test d -> 1 <= length d <= 6 ->
  all_pass path_test q ->
  xorb (word_at (prev_after None d)) (word_at (hd_error (q ++ rest))) = true ->
  In z (ms tail (MState (prev_after (prev_after None d) q) rest cs)) ->
  In z (ms (url_from_http tail)
           (MState p (scheme ++ www ++ h ++ "." :: d ++ q ++ rest) cs)).
Proof.
  intros Hs Hw Ph Lh Pd Ld Pq Hb Hz.
  assert (Hd : d <> []) by (intros ->; simpl in Ld; lia).
  assert (Hafter : forall p0,
            In z (ms (url_after_scheme tail)
                     (MState p0 (www ++ h ++ "." :: d ++ q ++ rest) cs))).
  { intros p0. unfold url_after_scheme.
    eapply in_seq; [apply url_www_complete; exact Hw|].
    eapply in_seq.
    { unfold host_set. cbn [ms rep_bound]. apply rep_step_complete; [exact Ph|lia]. }
    eapply in_seq; [apply in_lit|].
    eapply in_seq.
    { unfold tld_set. cbn [ms rep_bound]. apply rep_step_complete; [exact Pd|lia]. }
    rewrite (prev_after_nonempty d _ None Hd).
    eapply in_seq.
    { cbn [ms]. unfold at_boundary. cbn [prev right]. rewrite Hb. now left. }
    eapply in_seq; [|exact Hz].
    cbn [ms]. apply in_map_iff.
    exists (MState (prev_after (prev_after None d) q) rest cs).
    split; [reflexivity|]. rewrite flat_map_unit.
    apply rep_step_complete; [exact Pq|].
    unfold rep_bound. cbn [right]. rewrite length_app. lia. }
  unfold url_from_http.
  destruct Hs as [<-|[<-|[]]]; cbn [lit list_ascii_of_string app].
  - do 4 (eapply in_seq; [apply in_lit|]).
    eapply in_seq; [apply (url_s_complete []); simpl; auto|].
    do 3 (eapply in_seq; [apply in_lit|]). apply Hafter.
  - do 4 (eapply in_seq; [apply in_lit|]).
    eapply in_seq; [apply (url_s_complete ["s"]); simpl; auto|].
    do 3 (eapply in_seq; [apply in_lit|]). apply Hafter.
Qed.

(** X6: [validate_url] accepts: one of the two schemes; then, optionally,
    [www.]; then a host of 1 to 256 characters of [-a-zA-Z0-9@:%._+~#=], a
    dot, and 1 to 6 characters of [a-zA-Z0-9()]; then a path of characters
    of [-a-zA-Z0-9()@:%_+.~#?&/=], with a word boundary before the path;
    and such a string followed by one line feed.  It accepts nothing
    else. *)
Theorem validate_url_accepts :
  forall s : str,
    RegexValidator.validate_url s = Some true
    <-> exists scheme www h d q,
          In scheme url_schemes /\ In www url_www
          /\ all_pass host_test h /\ 1 <= length h <= 256
          /\ all_pass tld_test d /\ 1 <= length d <= 6
          /\ all_pass path_test q /\ word_edge d q = true
          /\ is_value (scheme ++ www ++ h ++ "." :: d ++ q) s.
Proof.
  intros s. rewrite validate_url_eq. split.
  - intros [= H]. apply accepts_iff in H as [z H].
    unfold url_anchored_re in H.
    apply in_seq_inv in H as (y0 & H0 & H). cbn [ms] in H0.
    apply guard_inv in H0 as [_ ->].
    apply url_shape in H
      as (scheme & www & h & d & q & mid & Hs & Hw & Ph & Lh & Pd & Ld & Pq & R & Hb & H).
    cbn [ms] in H. apply in_flat_map in H as (y & Hy & _).
    apply guard_inv in Hy as [He _]. apply at_end_inv in He.
    exists scheme, www, h, d, q. repeat (split; [assumption|]). split.
    + unfold word_edge. now rewrite <- (word_at_tail q (right mid) He).
    + apply is_value_tail. exists (right mid). split; [exact He|].
      destruct R as [R _]. cbn [right] in R. rewrite R.
      rewrite <- !app_assoc. cbn [app]. now rewrite <- !app_assoc.
  - intros (scheme & www & h & d & q & Hs & Hw & Ph & Lh & Pd & Ld & Pq & Hb & Hv).
    apply is_value_tail in Hv as (rest & Hr & ->). f_equal.
    apply accepts_iff.
    exists (MState (prev_after (prev_after None d) q) rest []).
    unfold url_anchored_re. eapply in_seq; [cbn [ms prev guard]; now left|].
    replace ((scheme ++ www ++ h ++ "." :: d ++ q) ++ rest)
      with (scheme ++ www ++ h ++ "." :: d ++ q ++ rest)
      by (rewrite <- !app_assoc; cbn [app]; now rewrite <- !app_assoc).
    apply url_complete; auto.
    + unfold word_edge in Hb. now rewrite (word_at_tail q rest Hr).
    + cbn [ms]. rewrite (at_end_tail _ _ _ Hr). now left.
Qed.

Lemma validate_url_accepts_witness :
  RegexValidator.validate_url
    (lit "https://" ++ lit "www." ++ lit "example" ++ "." :: lit "com" ++ lit "/a?b=1")
  = Some true.
Proof.
  apply (proj2 (validate_url_accepts
    (lit "https://" ++ lit "www." ++ lit "example" ++ "." :: lit "com" ++ lit "/a?b=1"))).
  exists (lit "https://"), (lit "www."), (lit "example"), (lit "com"), (lit "/a?b=1").
  split; [simpl; tauto|]. split; [simpl; tauto|].
  split; [repeat constructor|]. split; [simpl; lia|].
  split; [repeat constructor|]. split; [simpl; lia|].
  split; [repeat constructor|]. split; [reflexivity|].
  left. reflexivity.
Defined.

(** X7: every item [extract_urls] returns begins with one of the two schemes,
    which a host, a dot, a suffix and a path follow, as in the strings
    [validate_url] accepts. *)
Theorem extracted_urls_have_scheme :
  forall (text : str) (l : list str) (x : str),
    RegexExtractor.extract_urls text = Some l ->
    In x l ->
    exists scheme www h d q,
      In scheme url_schemes /\ In www url_www
      /\ all_pass host_test h /\ 1 <= length h <= 256
      /\ all_pass tld_test d /\ 1 <= length d <= 6
      /\ all_pass path_test q
      /\ x = scheme ++ www ++ h ++ "." :: d ++ q.
Proof.
  intros text l x E Hx. rewrite extract_urls_eq in E. injection E as <-.
  apply findall_item in Hx as (pre & post & st' & _ & Hi & ->); [|reflexivity].
  unfold url_re in Hi.
  apply url_shape in Hi
    as (scheme & www & h & d & q & mid & Hs & Hw & Ph & Lh & Pd & Ld & Pq & R & _ & H).
  destruct H as [<-|[]].
  exists scheme, www, h, d, q. repeat (split; [assumption|]).
  now apply reaches_consumed.
Qed.

Lemma extracted_urls_have_scheme_witness :
  exists scheme www h d q,
    In scheme url_schemes /\ In www url_www
    /\ all_pass host_test h /\ 1 <= length h <= 256
    /\ all_pass tld_test d /\ 1 <= length d <= 6
    /\ all_pass path_test q
    /\ lit "http://blog.example.com" = scheme ++ www ++ h ++ "." :: d ++ q.
Proof.
  apply (extracted_urls_have_scheme
           (lit "Website: https://www.example.com dan http://blog.example.com")
           [lit "https://www.example.com"; lit "http://blog.example.com"]).
  - vm_compute. reflexivity.
  - right. left. reflexivity.
Defined.

(** ** What the extractors return *)

(** X8: the items [extract_emails], [extract_urls], [extract_hashtags],
    [extract_mentions] and [extract_dates] return are pieces of the text,
    in the order of the text and without overlap; no item is empty. *)
Theorem extractors_return_pieces :
  forall text : str,
  exists e u h m d,
    RegexExtractor.extract_emails text = Some e /\ found_in e text
    /\ RegexExtractor.extract_urls text = Some u /\ found_in u text
    /\ RegexExtractor.extract_hashtags text = Some h /\ found_in h text
    /\ RegexExtractor.extract_mentions text = Some m /\ found_in m text
    /\ RegexExtractor.extract_dates text = Some d /\ found_in d text.
Proof.
  intros text.
  exists (pat_findall email_re text), (pat_findall url_re text),
         (pat_findall (tag_re "#") text), (pat_findall (tag_re "@") text),
         (pat_findall date_re text).
  rewrite extract_emails_eq, extract_urls_eq, extract_hashtags_eq,
    extract_mentions_eq, extract_dates_eq.
  repeat split; apply findall_found_in; reflexivity.
Qed.

(** Every match of the pattern of a tag: the sign and one word character or
    more. *)
Lemma tag_match_shape c0 st st' :
  In st' (ms (tag_re c0) st) ->
  exists w, reaches st st' (c0 :: w) /\ w <> [] /\ all_pass uni_isword w.
Proof.
  unfold tag_re, word_set. intros H.
  apply in_seq_inv in H as (y & Hy & H). apply lit_inv in Hy.
  apply in_seq_inv in H as (y' & H1 & H).
  apply (set_inv _ (rep_bound 1 None y)) in H1 as (w & R & P & L); [|lia].
  destruct H as [<-|[]]. exists w. split; [|split].
  - exact (reaches_trans _ _ _ _ _ Hy R).
  - intros ->. simpl in L. lia.
  - eapply all_pass_ext; [|exact P]. apply in_set_word.
Qed.

(** X9: every hashtag returned is the sign [#] and one word character or more
    behind it; every mention the sign [@] and one word character or more. *)
Theorem tags_are_a_sign_and_a_word :
  forall (text : str) (x : str),
    (forall l, RegexExtractor.extract_hashtags text = Some l -> In x l ->
               exists w, x = "#" :: w /\ w <> [] /\ all_pass uni_isword w)
    /\ (forall l, RegexExtractor.extract_mentions text = Some l -> In x l ->
                  exists w, x = "@" :: w /\ w <> [] /\ all_pass uni_isword w).
Proof.
  intros text x. split; intros l E Hx.
  - rewrite extract_hashtags_eq in E. injection E as <-.
    apply findall_item in Hx as (pre & post & st' & _ & Hi & ->); [|reflexivity].
    apply tag_match_shape in Hi as (w & R & Hw & Pw).
    exists w. rewrite (reaches_consumed _ _ _ R). auto.
  - rewrite extract_mentions_eq in E. injection E as <-.
    apply findall_item in Hx as (pre & post & st' & _ & Hi & ->); [|reflexivity].
    apply tag_match_shape in Hi as (w & R & Hw & Pw).
    exists w. rewrite (reaches_consumed _ _ _ R). auto.
Qed.

Lemma tags_are_a_sign_and_a_word_witness :
  exists w, lit "#Regex" = "#" :: w /\ w <> [] /\ all_pass uni_isword w.
Proof.
  apply (proj1 (tags_are_a_sign_and_a_word (lit "Follow us #Python #Regex @username")
                  (lit "#Regex"))
               [lit "#Python"; lit "#Regex"]).
  - vm_compute. reflexivity.
  - right. left. reflexivity.
Defined.

(** ** Tags *)

Lemma not_gt_spec c : not_gt c = negb (Ascii.eqb c ">").
Proof. unfold not_gt, in_set. simpl. now rewrite orb_false_r. Qed.

Lemma not_gt_false c : not_gt c = false -> c = ">".
Proof.
  rewrite not_gt_spec. intros H. apply negb_false_iff in H.
  now apply Ascii.eqb_eq in H.
Qed.

Lemma not_gt_pass w : ~ In ">" w <-> all_pass not_gt w.
Proof.
  induction w as [|c w IH]; simpl.
  - split; [constructor|tauto].
  - split.
    + intros H. constructor.
      * rewrite not_gt_spec. destruct (Ascii.eqb c ">") eqn:E; [|reflexivity].
        apply Ascii.eqb_eq in E. subst c. tauto.
      * apply IH. tauto.
    + intros H. inversion H as [|? ? Hc Hw]; subst. intros [E|Hi].
      * subst c. discriminate Hc.
      * apply IH in Hw. tauto.
Qed.

Lemma drop_while_nil_pass test w : drop_while test w = [] <-> all_pass test w.
Proof.
  induction w as [|c w IH]; simpl.
  - split; [constructor|reflexivity].
  - destruct (test c) eqn:E.
    + rewrite IH. split; [now constructor|]. intros H. now inversion H.
    + split; [discriminate|]. intros H. inversion H. congruence.
Qed.

(** What the engine finds at one position: an opening bracket, the longest
    text without closing bracket behind it, which may not be empty, and the
    closing bracket. *)
Lemma html_first_match p text :
  first_match html_tag_re false false (MState p text []) =
  match text with
  | c :: t =>
      if Ascii.eqb "<" c then
        match take_while not_gt t, drop_while not_gt t with
        | _ :: _, _ :: rest => Some (MState (Some ">") rest [])
        | _, _ => None
        end
      else None
  | [] => None
  end.
Proof.
  rewrite first_match_hd. unfold html_tag_re. cbn [ms]. unfold step at 3.
  cbn [right caps]. destruct text as [|c t]; [reflexivity|].
  destruct (Ascii.eqb "<" c); [|reflexivity].
  cbn [flat_map]. rewrite app_nil_r. unfold rep_bound. cbn [right].
  fold not_gt.
  pose proof (take_drop not_gt t) as TD.
  pose proof (take_while_pass not_gt t) as TP.
  pose proof (drop_while_stops not_gt t) as DS.
  remember (take_while not_gt t) as w eqn:Ew.
  remember (drop_while not_gt t) as rest eqn:Er.
  clear Ew Er. subst t.
  destruct w as [|x w].
  - rewrite rep_step_short; [reflexivity|exact TP|exact DS|simpl; lia].
  - destruct rest as [|g rest].
    + rewrite rep_step_none_greedy; [reflexivity|exact TP|exact I|].
      intros a b E _. rewrite app_nil_r. unfold step. cbn [right].
      destruct b as [|y b]; [reflexivity|].
      assert (Hy : not_gt y = true).
      { rewrite E in TP. apply Forall_app in TP as [_ TP]. now inversion TP. }
      rewrite not_gt_spec in Hy. apply negb_true_iff in Hy.
      rewrite Ascii.eqb_sym in Hy. now rewrite Hy.
    + simpl in DS. apply not_gt_false in DS. subst g.
      apply hd_error_flat_map
        with (x := MState (prev_after (Some c) (x :: w)) (">" :: rest) []).
      * apply rep_step_hd; [exact TP|simpl; now rewrite not_gt_spec|].
        rewrite length_app. simpl. lia.
      * unfold step. cbn [right caps]. reflexivity.
Qed.

Lemma html_first_match_other p c t :
  Ascii.eqb "<" c = false ->
  first_match html_tag_re false false (MState p (c :: t) []) = None.
Proof. intros E. rewrite html_first_match. now rewrite E. Qed.

(** Text without opening bracket is copied. *)
Lemma html_scan_plain a : forall p rest,
  ~ In "<" a ->
  scan html_tag_re p (a ++ rest) 0 =
  map Copy a ++ scan html_tag_re (prev_after p a) rest 0.
Proof.
  induction a as [|c a IH]; intros p rest Ha; [reflexivity|].
  cbn [app map]. rewrite scan_nomatch.
  - f_equal. apply IH. simpl in Ha. tauto.
  - apply html_first_match_other. destruct (Ascii.eqb "<" c) eqn:E; [|reflexivity].
    apply Ascii.eqb_eq in E. subst c. simpl in Ha. tauto.
Qed.

(** A tag is one match. *)
Lemma html_scan_tag body b p :
  body <> [] -> ~ In ">" body ->
  scan html_tag_re p ("<" :: body ++ ">" :: b) 0 =
  Hit (MObj ("<" :: body ++ [">"]) []) :: scan html_tag_re (Some ">") b 0.
Proof.
  intros Hb Hn. apply not_gt_pass in Hn.
  assert (F : first_match html_tag_re false false (MState p ("<" :: body ++ ">" :: b) [])
              = Some (MState (Some ">") b [])).
  { rewrite html_first_match. change (Ascii.eqb "<" "<") with true. cbv iota.
    rewrite take_while_run, drop_while_run; try assumption; try reflexivity.
    destruct body; [congruence|reflexivity]. }
  rewrite (@scan_hit _ _ _ _ ("<" :: body ++ [">"]) F); [reflexivity| |discriminate].
  split; cbn [right prev].
  - cbn [app]. now rewrite <- app_assoc.
  - rewrite prev_after_cons, prev_after_app. reflexivity.
Qed.

(** In a text without tag nothing is found. *)
Lemma tagless_tail c t : tagless (c :: t) -> tagless t.
Proof. intros H pre post E. apply (H (c :: pre) post). simpl. now rewrite E. Qed.

Lemma html_scan_tagless text : forall p,
  tagless text -> scan html_tag_re p text 0 = map Copy text.
Proof.
  induction text as [|c t IH]; intros p H.
  - apply scan_nil_nomatch. apply html_first_match.
  - cbn [map]. rewrite scan_nomatch.
    + f_equal. apply IH. eapply tagless_tail; eauto.
    + rewrite html_first_match. destruct (Ascii.eqb "<" c) eqn:E; [|reflexivity].
      apply Ascii.eqb_eq in E. subst c.
      destruct (H [] t eq_refl) as [-> | ->]; [reflexivity|].
      now destruct (take_while not_gt t).
Qed.

Lemma render_copies tmpl w : flat_map (render tmpl) (map Copy w) = w.
Proof. induction w as [|c w IH]; simpl; congruence. Qed.

(** The characters copied are characters of the text. *)
Lemma scan_copy_in r text : forall p k c,
  In (Copy c) (scan r p text k) -> In c text.
Proof.
  induction text as [|x t IH]; intros p k c H.
  - destruct k; [|destruct H]. cbn [scan] in H.
    destruct (first_match r false false (MState p [] [])); [|destruct H].
    destruct (match_len _ _).
    + destruct H as [H|H]; [discriminate|].
      destruct (first_match r true false (MState p [] [])); [|destruct H].
      destruct H as [H|[]]; discriminate.
    + destruct H as [H|[]]; discriminate.
  - destruct k as [|k]; cbn [scan] in H; [|right; eauto].
    destruct (first_match r false false (MState p (x :: t) [])).
    + destruct (match_len _ _).
      * destruct H as [H|H]; [discriminate|].
        destruct (first_match r true false (MState p (x :: t) [])).
        -- destruct H as [H|H]; [discriminate|].
           destruct (match_len _ _).
           ++ destruct H as [H|H]; [injection H as ->; now left|right; eauto].
           ++ right; eauto.
        -- destruct H as [H|H]; [injection H as ->; now left|right; eauto].
      * destruct H as [H|H]; [discriminate|right; eauto].
    + destruct H as [H|H]; [injection H as ->; now left|right; eauto].
Qed.

Lemma removed_in r text p c :
  In c (flat_map (render []) (scan r p text 0)) -> In c text.
Proof.
  intros H. apply in_flat_map in H as ([x|m] & He & Hc).
  - destruct Hc as [<-|[]]. eapply scan_copy_in; eauto.
  - destruct Hc.
Qed.

(** What [remove_html_tags] leaves holds no tag. *)
Lemma html_tagless n : forall text p,
  length text <= n ->
  tagless (flat_map (render []) (scan html_tag_re p text 0)).
Proof.
  induction n as [|n IH]; intros text p Hn.
  - destruct text; [|simpl in Hn; lia].
    rewrite scan_nil_nomatch by apply html_first_match.
    intros [|? ?] post E; discriminate E.
  - destruct text as [|c t].
    { rewrite scan_nil_nomatch by apply html_first_match.
      intros [|? ?] post E; discriminate E. }
    simpl in Hn.
    pose proof (html_first_match p (c :: t)) as F. cbv beta iota in F.
    pose proof (take_drop not_gt t) as TD.
    destruct (Ascii.eqb "<" c) eqn:Ec.
    2:{ rewrite (scan_nomatch _ _ _ _ F). cbn [flat_map render app].
        intros [|y pre] post E.
        - injection E as -> _. discriminate Ec.
        - injection E as _ E. eapply (IH t (Some c)); [lia|exact E]. }
    apply Ascii.eqb_eq in Ec. subst c.
    destruct (take_while not_gt t) as [|x w] eqn:Ew.
    { (* the bracket is followed by a closing bracket, or by nothing *)
      rewrite (scan_nomatch _ _ _ _ F). cbn [flat_map render app].
      intros [|y pre] post E.
      - injection E as <-. left. cbn [app] in TD.
        destruct t as [|g t']; [reflexivity|].
        pose proof (drop_while_stops not_gt (g :: t')) as DS.
        rewrite TD in DS. simpl in DS.
        rewrite scan_nomatch.
        + cbn [flat_map render app take_while]. now rewrite DS.
        + apply html_first_match_other. apply not_gt_false in DS. now subst g.
      - injection E as _ E. eapply (IH t (Some "<")); [lia|exact E]. }
    destruct (drop_while not_gt t) as [|g rest] eqn:Ed.
    { (* no closing bracket behind the bracket *)
      rewrite (scan_nomatch _ _ _ _ F). cbn [flat_map render app].
      intros [|y pre] post E.
      - injection E as <-. right. apply drop_while_nil_pass.
        apply Forall_forall. intros z Hz. apply removed_in in Hz.
        apply drop_while_nil_pass in Ed. unfold all_pass in Ed.
        rewrite Forall_forall in Ed. now apply Ed.
      - injection E as _ E. eapply (IH t (Some "<")); [lia|exact E]. }
    (* a tag *)
    pose proof (drop_while_stops not_gt t) as DS. rewrite Ed in DS. simpl in DS.
    apply not_gt_false in DS. subst g.
    rewrite (@scan_hit _ _ _ _ ("<" :: (x :: w) ++ [">"]) F);
      [| |discriminate].
    + cbn [flat_map render expand prev right app]. apply IH.
      apply (f_equal (@length ascii)) in TD. rewrite length_app in TD.
      simpl in TD. lia.
    + split; cbn [right prev].
      * cbn [app]. f_equal. rewrite <- TD. cbn [app]. f_equal.
        now rewrite <- app_assoc.
      * rewrite prev_after_cons.
        change (x :: w ++ [">"]) with ((x :: w) ++ [">"]).
        rewrite prev_after_app. reflexivity.
Qed.

Lemma tagless_no_tag text : tagless text <-> holds_no_tag text.
Proof.
  split.
  - intros H pre x post (body & -> & Hb & Hn) E.
    apply not_gt_pass in Hn.
    destruct (H pre (body ++ ">" :: post)) as [E1|E1].
    + rewrite E. cbn [app]. now rewrite <- app_assoc.
    + rewrite take_while_run in E1; [congruence|exact Hn|reflexivity].
    + rewrite drop_while_run in E1; [discriminate|exact Hn|reflexivity].
  - intros H pre post E.
    pose proof (take_drop not_gt post) as TD.
    pose proof (take_while_pass not_gt post) as TP.
    pose proof (drop_while_stops not_gt post) as DS.
    destruct (take_while not_gt post) as [|x w]; [now left|].
    destruct (drop_while not_gt post) as [|g rest]; [now right|].
    exfalso. simpl in DS. apply not_gt_false in DS. subst g.
    apply (H pre ("<" :: (x :: w) ++ [">"]) rest).
    + exists (x :: w). split; [reflexivity|]. split; [discriminate|].
      now apply not_gt_pass.
    + rewrite E, <- TD. cbn [app]. now rewrite <- !app_assoc.
Qed.

Lemma remove_tagless text :
  tagless text -> RegexReplacer.remove_html_tags text = Some text.
Proof.
  intros H. rewrite remove_html_tags_eq. unfold finditer.
  rewrite (html_scan_tagless _ _ H). now rewrite render_copies.
Qed.

(** X10: whatever the text, what [remove_html_tags] returns holds no tag, and
    [remove_html_tags] leaves it as it is. *)
Theorem remove_html_tags_leaves_no_tag :
  forall text : str,
  exists t,
    RegexReplacer.remove_html_tags text = Some t
    /\ holds_no_tag t
    /\ RegexReplacer.remove_html_tags t = Some t.
Proof.
  intros text. rewrite remove_html_tags_eq. eexists. split; [reflexivity|].
  pose proof (html_tagless (length text) text None (le_n _)) as H.
  split; [now apply tagless_no_tag|now apply remove_tagless].
Qed.

(** X11: [remove_html_tags] returns the text as it is exactly when the text
    holds no tag: an opening bracket without a closing bracket behind it,
    and the empty pair [<>], are kept. *)
Theorem remove_html_tags_keeps_text_without_tag :
  forall text : str,
    RegexReplacer.remove_html_tags text = Some text <-> holds_no_tag text.
Proof.
  intros text. split.
  - intros E. rewrite remove_html_tags_eq in E. injection E as E.
    apply tagless_no_tag. rewrite <- E at 1.
    apply (html_tagless (length text) text None (le_n _)).
  - intros H. apply remove_tagless. now apply tagless_no_tag.
Qed.

Lemma remove_html_tags_keeps_text_without_tag_witness :
  holds_no_tag (lit "a <> b < c").
Proof.
  apply (proj1 (remove_html_tags_keeps_text_without_tag (lit "a <> b < c"))).
  vm_compute. reflexivity.
Defined.

(** X12: a tag behind a text without opening bracket is removed, and the rest is
    treated on its own. *)
Theorem remove_html_tags_removes_a_tag :
  forall a body b : str,
    ~ In "<" a -> body <> [] -> ~ In ">" body ->
    exists r,
      RegexReplacer.remove_html_tags b = Some r
      /\ RegexReplacer.remove_html_tags (a ++ "<" :: body ++ ">" :: b)
         = Some (a ++ r).
Proof.
  intros a body b Ha Hb Hn. rewrite !remove_html_tags_eq.
  eexists. split; [reflexivity|]. f_equal. unfold finditer.
  rewrite html_scan_plain by exact Ha.
  rewrite (html_scan_tag body b _ Hb Hn).
  rewrite flat_map_app, render_copies. cbn [flat_map render expand app].
  f_equal. f_equal. apply scan_prev. reflexivity.
Qed.

Lemma remove_html_tags_removes_a_tag_witness :
  exists r,
    RegexReplacer.remove_html_tags (lit "teks</b>") = Some r
    /\ RegexReplacer.remove_html_tags
         (lit "Ini " ++ "<" :: lit "b class='x'" ++ ">" :: lit "teks</b>")
       = Some (lit "Ini " ++ r).
Proof.
  apply (remove_html_tags_removes_a_tag (lit "Ini ") (lit "b class='x'") (lit "teks</b>")).
  - simpl. intros [H|[H|[H|[H|[]]]]]; discriminate H.
  - discriminate.
  - simpl. intuition discriminate.
Defined.

(** Every match of the pattern is a tag. *)
Lemma html_match_shape st st' :
  In st' (ms html_tag_re st) -> is_tag (consumed st st').
Proof.
  unfold html_tag_re. intros H.
  apply in_seq_inv in H as (y1 & H1 & H). apply lit_inv in H1.
  apply in_seq_inv in H as (y2 & H2 & H).
  cbn [ms] in H2. apply rep_step_in in H2 as (body & R2 & P2 & L2 & _ & _).
  apply in_seq_inv in H as (y3 & H3 & H). apply lit_inv in H3.
  destruct H as [<-|[]].
  pose proof (reaches_trans _ _ _ _ _ H1 (reaches_trans _ _ _ _ _ R2 H3)) as R.
  rewrite (reaches_consumed _ _ _ R). exists body. split; [reflexivity|].
  split; [intros ->; simpl in L2; lia|]. now apply not_gt_pass.
Qed.

(** X13: [remove_html_tags] removes tags and nothing else: the text falls into
    tags and single characters, and the result is made of these
    characters. *)
Theorem remove_html_tags_removes_only_tags :
  forall text : str,
  exists chunks : list chunk,
    text = flat_map chunk_text chunks
    /\ RegexReplacer.remove_html_tags text = Some (flat_map chunk_gaps chunks)
    /\ Forall is_tag (flat_map chunk_items chunks).
Proof.
  intros text. exists (map chunk_of_event (finditer html_tag_re text)).
  split; [|split].
  - symmetry. apply chunks_text.
  - rewrite remove_html_tags_eq. f_equal. symmetry. apply chunks_gaps.
  - rewrite chunks_items. apply Forall_forall. intros x Hx.
    apply in_map_iff in Hx as (m & <- & Hm).
    apply scan_hits_inv in Hm as (pre & post & st' & _ & Hi & ->).
    cbn [mobj_of whole]. now apply html_match_shape.
Qed.

(** ** White space, once more *)

Lemma filter_black_squeeze s : forall b,
  filter is_black (squeeze b s) = filter is_black s.
Proof.
  induction s as [|c s IH]; intros b; simpl; [reflexivity|].
  unfold is_black at 2. destruct (uni_isspace c) eqn:E; simpl.
  - destruct b; simpl; apply IH.
  - unfold is_black at 1. rewrite E. simpl. f_equal. apply IH.
Qed.

Lemma filter_black_spaces w : all_pass uni_isspace w -> filter is_black w = [].
Proof.
  induction 1 as [|c w Hc _ IH]; simpl; [reflexivity|].
  unfold is_black at 1. now rewrite Hc.
Qed.

Lemma filter_black_strip s : filter is_black (strip s) = filter is_black s.
Proof.
  unfold strip.
  destruct (rstrip_prefix (lstrip s)) as (w & E & Pw).
  transitivity (filter is_black (lstrip s)).
  - rewrite E at 2. rewrite filter_app, (filter_black_spaces _ Pw).
    now rewrite app_nil_r.
  - unfold lstrip. rewrite <- (take_drop uni_isspace s) at 2.
    rewrite filter_app, (filter_black_spaces _ (take_while_pass _ _)).
    reflexivity.
Qed.

Lemma squeeze_spaces s : forall b c,
  In c (squeeze b s) -> uni_isspace c = true -> c = " ".
Proof.
  induction s as [|x s IH]; intros b c; simpl; [tauto|].
  destruct (uni_isspace x) eqn:E.
  - destruct b; simpl; [apply IH|]. intros [<-|H]; [reflexivity|]. exact (IH true c H).
  - simpl. intros [<-|H]; [congruence|]. exact (IH false c H).
Qed.

Lemma strip_in s c : In c (strip s) -> In c s.
Proof.
  unfold strip. intros H.
  destruct (rstrip_prefix (lstrip s)) as (w & E & _).
  destruct (lstrip_suffix s) as (w' & E').
  rewrite E'. apply in_or_app. right. rewrite E. apply in_or_app. now left.
Qed.

Lemma filter_black_nil s : filter is_black s = [] <-> all_pass uni_isspace s.
Proof.
  induction s as [|c s IH]; simpl.
  - split; [constructor|reflexivity].
  - unfold is_black at 1. destruct (uni_isspace c) eqn:E; simpl.
    + rewrite IH. split; [now constructor|]. intros H. now inversion H.
    + split; [discriminate|]. intros H. inversion H. congruence.
Qed.

(** X14: [normalize_whitespace] keeps the characters that are no white space, in
    their order; the white space left is made of spaces only, whatever it
    was made of (tabs, line feeds, no-break spaces); and the result is empty
    exactly when the string holds nothing but white space. *)
Theorem normalize_whitespace_keeps_words :
  forall s : str,
  exists t,
    RegexReplacer.normalize_whitespace s = Some t
    /\ filter is_black t = filter is_black s
    /\ (forall c, In c t -> uni_isspace c = true -> c = " ")
    /\ (t = [] <-> all_pass uni_isspace s).
Proof.
  intros s. rewrite normalize_whitespace_eq. eexists. split; [reflexivity|].
  assert (F : filter is_black (strip (squeeze false s)) = filter is_black s)
    by (now rewrite filter_black_strip, filter_black_squeeze).
  split; [exact F|]. split.
  - intros c Hc. apply strip_in in Hc. exact (squeeze_spaces s false c Hc).
  - rewrite <- filter_black_nil, <- F. split; [now intros ->|].
    intros H. apply filter_black_nil in H.
    pose proof (strip_leading (squeeze false s)) as L.
    destruct (strip (squeeze false s)) as [|c t]; [reflexivity|].
    simpl in L. inversion H. congruence.
Qed.

Lemma normalize_whitespace_keeps_words_witness :
  exists t,
    RegexReplacer.normalize_whitespace (" " :: "a" :: ascii_of_nat 9 :: lit " b ") = Some t
    /\ filter is_black t
       = filter is_black (" " :: "a" :: ascii_of_nat 9 :: lit " b ")
    /\ (forall c, In c t -> uni_isspace c = true -> c = " ")
    /\ (t = [] <-> all_pass uni_isspace (" " :: "a" :: ascii_of_nat 9 :: lit " b ")).
Proof.
  apply (normalize_whitespace_keeps_words (" " :: "a" :: ascii_of_nat 9 :: lit " b ")).
Defined.

(** ** Censoring, once more *)

Lemma censor_profanity_run words : forall text,
  RegexReplacer.censor_profanity text words
  = Some (fold_left (fun t w => censor_occurrences w t 0) words text).
Proof.
  induction words as [|w ws IH]; intros text; [reflexivity|].
  cbn [RegexReplacer.censor_profanity fold_left].
  rewrite compile_escaped. cbn [opt_bind].
  rewrite censor_step. cbn [opt_bind]. apply IH.
Qed.

Lemma censor_starred w text : forall k, starred text (censor_occurrences w text k).
Proof.
  induction text as [|c t IH]; intros k; cbn [censor_occurrences]; [constructor|].
  destruct k as [|k].
  - destruct (negb (is_nil w) && starts_with_ci w (c :: t))%bool;
      constructor; auto; apply IH.
  - constructor; auto; apply IH.
Qed.

Lemma starred_refl s : starred s s.
Proof. induction s; constructor; auto. Qed.

Lemma starred_trans s t u : starred s t -> starred t u -> starred s u.
Proof.
  intros H. revert u. induction H as [|x y s t Hxy _ IH]; intros u Hu.
  - inversion Hu. constructor.
  - inversion Hu as [|? z ? u' Hyz Hu']; subst. constructor; [|exact (IH _ Hu')].
    destruct Hyz as [->| ->]; auto.
Qed.

Lemma fold_starred words : forall text,
  starred text (fold_left (fun t w => censor_occurrences w t 0) words text).
Proof.
  induction words as [|w ws IH]; intros text; cbn [fold_left].
  - apply starred_refl.
  - eapply starred_trans; [apply censor_starred|apply IH].
Qed.

(** X15: [censor_profanity] puts asterisks in the place of characters and does
    nothing else: the result has the length of the text, and each of its
    characters is the character of the text at the same place, or an
    asterisk. *)
Theorem censor_profanity_keeps_places :
  forall (text : str) (words : list str),
  exists t,
    RegexReplacer.censor_profanity text words = Some t
    /\ length t = length text
    /\ starred text t.
Proof.
  intros text words. rewrite censor_profanity_run. eexists.
  split; [reflexivity|].
  pose proof (fold_starred words text) as H.
  split; [|exact H]. symmetry. eapply Forall2_length; eauto.
Qed.

(** X16: the empty word, which [re.escape] turns into the pattern that matches
    everywhere, changes nothing: a list of words gives what the list without
    its empty words gives. *)
Theorem censor_profanity_ignores_empty_words :
  forall (text : str) (words : list str),
    RegexReplacer.censor_profanity text words
    = RegexReplacer.censor_profanity text (filter (fun w => negb (is_nil w)) words).
Proof.
  intros text words. rewrite !censor_profanity_run. f_equal. revert text.
  induction words as [|w ws IH]; intros text; [reflexivity|].
  cbn [fold_left filter]. destruct w as [|c w]; cbn [is_nil negb].
  - rewrite censor_empty_word. apply IH.
  - cbn [fold_left]. apply IH.
Qed.

Lemma ci_star c : c <> "*" -> ci_eq c "*" = false.
Proof.
  destruct c as [[] [] [] [] [] [] [] []]; intros H;
    first [reflexivity | exfalso; apply H; reflexivity].
Qed.

(** Where a word without asterisk stands in the censored text, it stands in
    the text. *)
Lemma censor_agree w text : forall w' k,
  ~ In "*" w' ->
  starts_with_ci w' (censor_occurrences w text k) = true ->
  starts_with_ci w' text = true.
Proof.
  induction text as [|x t IH]; intros w' k Hw H; [exact H|].
  destruct w' as [|c w']; [reflexivity|].
  assert (Hc : ci_eq c "*" = false) by (apply ci_star; intros ->; apply Hw; now left).
  assert (Hw' : ~ In "*" w') by (intros Hi; apply Hw; now right).
  cbn [censor_occurrences] in H. cbn [starts_with_ci].
  destruct k as [|k].
  - destruct (negb (is_nil w) && starts_with_ci w (x :: t))%bool;
      cbn [starts_with_ci] in H.
    + now rewrite Hc in H.
    + apply andb_prop in H as [H1 H2]. rewrite H1. cbn [andb]. eapply IH; eauto.
  - cbn [starts_with_ci] in H. now rewrite Hc in H.
Qed.

(** The censored word does not stand at the head of what is left. *)
Lemma censor_head w text k :
  w <> [] -> ~ In "*" w ->
  starts_with_ci w (censor_occurrences w text k) = false.
Proof.
  intros Hn Hw.
  destruct (starts_with_ci w (censor_occurrences w text k)) eqn:E; [|reflexivity].
  pose proof (censor_agree w text w k Hw E) as S.
  destruct w as [|c w]; [congruence|].
  assert (Hc : ci_eq c "*" = false) by (apply ci_star; intros ->; apply Hw; now left).
  destruct text as [|x t]; [discriminate S|].
  cbn [censor_occurrences] in E. destruct k as [|k].
  - rewrite S in E. cbn [is_nil negb andb starts_with_ci] in E. now rewrite Hc in E.
  - cbn [starts_with_ci] in E. now rewrite Hc in E.
Qed.

Lemma censor_suffix w pre : forall text k post,
  censor_occurrences w text k = pre ++ post ->
  exists pre' text' k', text = pre' ++ text' /\ post = censor_occurrences w text' k'.
Proof.
  induction pre as [|y pre IH]; intros text k post E.
  - exists [], text, k. auto.
  - destruct text as [|x t]; [discriminate E|].
    cbn [censor_occurrences] in E.
    assert (H : exists k', censor_occurrences w t k' = pre ++ post).
    { destruct k as [|k].
      - destruct (negb (is_nil w) && starts_with_ci w (x :: t))%bool;
          injection E as _ E; eauto.
      - injection E as _ E. eauto. }
    destruct H as [k' H]. apply IH in H as (pre' & text' & k'' & -> & ->).
    exists (x :: pre'), text', k''. auto.
Qed.

Lemma censor_absent_self w text :
  w <> [] -> ~ In "*" w -> absent w (censor_occurrences w text 0).
Proof.
  intros Hn Hw pre post E. apply censor_suffix in E as (pre' & text' & k' & _ & ->).
  now apply censor_head.
Qed.

Lemma censor_absent_other w w' text :
  ~ In "*" w' -> absent w' text -> absent w' (censor_occurrences w text 0).
Proof.
  intros Hw H pre post E. apply censor_suffix in E as (pre' & text' & k' & Et & ->).
  destruct (starts_with_ci w' (censor_occurrences w text' k')) eqn:S; [|reflexivity].
  apply censor_agree in S; [|exact Hw]. rewrite (H pre' text' Et) in S. discriminate S.
Qed.

Lemma fold_absent words : forall text w,
  ~ In "*" w -> absent w text ->
  absent w (fold_left (fun t w0 => censor_occurrences w0 t 0) words text).
Proof.
  induction words as [|w0 ws IH]; intros text w Hw H; cbn [fold_left]; [exact H|].
  apply IH; [exact Hw|]. now apply censor_absent_other.
Qed.

(** X17: when no word of the list holds an asterisk, none of the words that are
    not empty occurs in what [censor_profanity] returns, whatever the letter
    case and whatever the order of the list. *)
Theorem censor_profanity_leaves_no_word :
  forall (text : str) (words : list str),
    (forall w, In w words -> ~ In "*" w) ->
    exists t,
      RegexReplacer.censor_profanity text words = Some t
      /\ occurs_nowhere words t.
Proof.
  intros text words Hw. rewrite censor_profanity_run. eexists.
  split; [reflexivity|]. revert text.
  induction words as [|w0 ws IH]; intros text w pre post Hin Hn E; [destruct Hin|].
  cbn [fold_left] in E. destruct Hin as [->|Hin].
  - refine (fold_absent ws _ w _ _ pre post E); [apply Hw; now left|].
    apply censor_absent_self; [exact Hn|apply Hw; now left].
  - apply (IH (fun w' H' => Hw w' (or_intror H')) _ w pre post Hin Hn E).
Qed.

Lemma censor_profanity_leaves_no_word_witness :
  exists t,
    RegexReplacer.censor_profanity (lit "Kata BadWord dan badwords") [lit "bad"; lit "word"]
    = Some t
    /\ occurs_nowhere [lit "bad"; lit "word"] t.
Proof.
  apply (censor_profanity_leaves_no_word (lit "Kata BadWord dan badwords")
           [lit "bad"; lit "word"]).
  intros w [<-|[<-|[]]]; simpl; intuition discriminate.
Defined.

(** ** Phone numbers in a text, masked *)

(** A repeat of a one-character test takes as many characters as it may
    when they all pass. *)
Lemma rep_step_full test w : forall rest p cs n lo,
  all_pass test w -> length w = n -> lo <= n ->
  hd_error (rep (step test) n lo (MState p (w ++ rest) cs)) =
  Some (MState (prev_after p w) rest cs).
Proof.
  induction w as [|c w IH]; intros rest p cs n lo Hw Hn Hlo; simpl in Hn; subst n.
  - assert (lo = 0) as -> by lia. reflexivity.
  - inversion Hw as [|? ? Hc Hw']; subst. cbn [rep app].
    unfold step at 2. cbn [right caps]. rewrite Hc. cbn [flat_map].
    rewrite app_nil_r. apply hd_error_app_some. apply IH; auto. lia.
Qed.

(** The two groups of digits, with text behind the number: the second group
    takes four digits, the first what stands before them, eight digits at
    most. *)
Lemma mask_digits_rest a b rest p cs :
  all_pass uni_isdigit (a ++ b) -> 5 <= length a <= 8 -> length b = 4 ->
  length a = 8 \/ stops uni_isdigit rest ->
  hd_error
    (ms (Seq (Group (Some 2) (Seq (Rep 5 (Some 8) digit_set) Eps))
          (Seq (Group (Some 3) (Seq (Rep 4 (Some 4) digit_set) Eps)) Eps))
        (MState p ((a ++ b) ++ rest) cs))
  = Some (MState (prev_after (prev_after p a) b) rest
                 ((3, b) :: (2, a) :: cs)).
Proof.
  intros Hd Ha Hb Hr. unfold digit_set. cbn [ms rep_bound].
  rewrite !flat_map_unit, flat_map_map.
  apply all_digits_in_set in Hd.
  apply (rep_step_first _ _ rest cs _ 8 (a ++ b) p 5 a b); auto.
  - rewrite length_app. lia.
  - intros a' b' E Hlen. cbn [close_group prev right caps].
    rewrite flat_map_unit.
    destruct Hr as [Hr|Hr]; [lia|].
    rewrite rep_step_short; [reflexivity| | |].
    + rewrite E in Hd. apply Forall_app in Hd. tauto.
    + eapply stops_ext; [|exact Hr]. intros c. symmetry. apply in_set_digit.
    + apply (f_equal (@length ascii)) in E. rewrite !length_app in E. lia.
  - cbn [close_group prev right caps].
    rewrite flat_map_unit, hd_error_map, flat_map_unit.
    rewrite rep_step_full.
    + cbn [option_map close_group prev right caps].
      rewrite <- app_assoc. now rewrite !consumed_app.
    + apply Forall_app in Hd. tauto.
    + exact Hb.
    + lia.
Qed.

Lemma phone_mask_match_rest prefix a b rest p :
  In prefix phone_prefixes ->
  all_pass uni_isdigit (a ++ b) -> 5 <= length a <= 8 -> length b = 4 ->
  length a = 8 \/ stops uni_isdigit rest ->
  first_match phone_mask_re false false (MState p (prefix ++ (a ++ b) ++ rest) [])
  = Some (MState (prev_after (prev_after (prev_after p prefix) a) b) rest
                 [(3, b); (2, a); (1, prefix)]).
Proof.
  intros Hp Hd Ha Hb Hr. rewrite first_match_hd. unfold phone_mask_re.
  change (ms (Seq ?a ?b) ?st) with (flat_map (ms b) (ms a st)) at 1.
  rewrite (phone_group_one _ _ _ _ Hp). cbn [flat_map]. rewrite app_nil_r.
  now apply mask_digits_rest.
Qed.

(** X18: a phone number in front of a text: the prefix, five to eight digits and
    four digits more.  [mask_phone] shows the prefix, four asterisks and
    the four digits, and goes on behind them.  The number ends with the
    digits, or with the twelfth digit: of a longer run of digits the four
    digits shown are the ninth to the twelfth, and the digits behind them
    are treated with the rest of the text. *)
Theorem mask_phone_in_front_of_text :
  forall prefix a b rest : str,
    In prefix phone_prefixes ->
    all_pass uni_isdigit a -> 5 <= length a <= 8 ->
    all_pass uni_isdigit b -> length b = 4 ->
    length a = 8 \/ stops uni_isdigit rest ->
    exists r,
      RegexReplacer.mask_phone rest = Some r
      /\ RegexReplacer.mask_phone (prefix ++ a ++ b ++ rest)
         = Some (prefix ++ lit "****" ++ b ++ r).
Proof.
  intros prefix a b rest Hp Pa La Pb Lb Hr. rewrite !mask_phone_eq.
  eexists. split; [reflexivity|]. f_equal. unfold finditer.
  assert (Hd : all_pass uni_isdigit (a ++ b)) by (apply Forall_app; auto).
  pose proof (phone_mask_match_rest prefix a b rest None Hp Hd La Lb Hr) as F.
  replace (prefix ++ a ++ b ++ rest) with (prefix ++ (a ++ b) ++ rest)
    by (now rewrite <- app_assoc).
  rewrite (@scan_hit _ _ _ _ (prefix ++ a ++ b) F).
  - cbn [flat_map render prev right caps]. unfold expand, phone_mask_template.
    cbn [flat_map group lookup Nat.eqb groups app]. rewrite app_nil_r.
    rewrite <- !app_assoc. cbn [app lit list_ascii_of_string].
    rewrite (scan_prev phone_mask_re rest eq_refl _ None 0). reflexivity.
  - split; cbn [right prev]; [now rewrite <- !app_assoc|].
    now rewrite !prev_after_app.
  - destruct Hp as [<-|[<-|[<-|[]]]]; discriminate.
Qed.

Lemma mask_phone_in_front_of_text_witness :
  exists r,
    RegexReplacer.mask_phone (lit "99 dan 021") = Some r
    /\ RegexReplacer.mask_phone
         (lit "0" ++ lit "81234567" ++ lit "8901" ++ lit "99 dan 021")
       = Some (lit "0" ++ lit "****" ++ lit "8901" ++ r).
Proof.
  apply (mask_phone_in_front_of_text (lit "0") (lit "81234567") (lit "8901")
           (lit "99 dan 021")).
  - simpl. tauto.
  - repeat constructor.
  - simpl. lia.
  - repeat constructor.
  - reflexivity.
  - left. reflexivity.
Defined.

Lemma consumed_same_right p z cs z' :
  consumed (MState p (right z) cs) z' = consumed z z'.
Proof. reflexivity. Qed.

Lemma reaches_into_group gid st0 st z w :
  reaches st z w -> reaches st (close_group gid st0 z) w.
Proof. intros [R1 R2]. destruct gid; split; assumption. Qed.

Lemma reaches_from_group gid st0 z z' w :
  reaches (close_group gid st0 z) z' w -> reaches z z' w.
Proof. destruct gid; intros [R1 R2]; split; assumption. Qed.

(** A match of the pattern of [mask_phone]: the three groups hold the
    prefix, five to eight digits, and four digits. *)
Lemma phone_mask_groups st st' :
  In st' (ms phone_mask_re st) ->
  exists pf a b,
    consumed st st' = pf ++ a ++ b
    /\ caps st' = (3, b) :: (2, a) :: (1, pf) :: caps st
    /\ In pf phone_prefixes
    /\ all_pass uni_isdigit a /\ 5 <= length a <= 8
    /\ all_pass uni_isdigit b /\ length b = 4.
Proof.
  intros H. unfold phone_mask_re, digit_set in H.
  apply in_seq_inv in H as (y1 & H1 & H).
  cbn [ms] in H1. apply in_map_iff in H1 as (z1 & <- & H1).
  apply phone_prefix_in in H1 as (pf & Hpf & R1 & C1).
  apply in_seq_inv in H as (y2 & H2 & H).
  cbn [ms rep_bound] in H2. apply in_map_iff in H2 as (z2 & <- & H2).
  rewrite flat_map_unit in H2.
  apply rep_step_in in H2 as (a & R2 & Pa & La & La' & C2).
  apply in_seq_inv in H as (y3 & H3 & H).
  cbn [ms rep_bound] in H3. apply in_map_iff in H3 as (z3 & <- & H3).
  rewrite flat_map_unit in H3.
  apply rep_step_in in H3 as (b & R3 & Pb & Lb & Lb' & C3).
  destruct H as [<-|[]].
  apply reaches_from_group in R2. apply reaches_from_group in R3.
  exists pf, a, b. split; [|split; [|split; [exact Hpf|]]].
  - apply reaches_consumed. apply reaches_into_group.
    exact (reaches_trans _ _ _ _ _ R1 (reaches_trans _ _ _ _ _ R2 R3)).
  - cbn [close_group caps]. rewrite C3. cbn [close_group caps].
    rewrite C2. cbn [close_group caps]. rewrite C1.
    rewrite !consumed_same_right.
    now rewrite (reaches_consumed _ _ _ R1), (reaches_consumed _ _ _ R2),
      (reaches_consumed _ _ _ R3).
  - split; [now apply digits_of_set|]. split; [lia|].
    split; [now apply digits_of_set|lia].
Qed.

Lemma phone_hit_groups text m :
  In (Hit m) (finditer phone_mask_re text) ->
  whole m = group m 1 ++ group m 2 ++ group m 3
  /\ phone_piece_ok (PNumber (group m 1) (group m 2) (group m 3)).
Proof.
  intros H. apply in_hits in H. unfold finditer in H.
  apply scan_hits_inv in H as (pre & post & st' & _ & Hi & ->).
  apply phone_mask_groups in Hi as (pf & a & b & Hc & Hg & Hok).
  unfold mobj_of, group. cbn [whole groups]. rewrite Hc, Hg.
  cbn [lookup Nat.eqb]. split; [reflexivity|exact Hok].
Qed.

(** X19: [mask_phone] rewrites numbers and nothing else: the text falls into
    single characters and numbers made of a prefix, five to eight digits and
    four digits; the result is the same pieces, with four asterisks in the
    place of the five to eight digits of every number. *)
Theorem mask_phone_rewrites_numbers :
  forall text : str,
  exists pieces : list phone_piece,
    text = flat_map phone_piece_text pieces
    /\ RegexReplacer.mask_phone text = Some (flat_map phone_piece_masked pieces)
    /\ Forall phone_piece_ok pieces.
Proof.
  intros text. exists (map phone_piece_of_event (finditer phone_mask_re text)).
  split; [|split].
  - rewrite flat_map_map.
    etransitivity; [symmetry; apply (scan_text phone_mask_re text None)|].
    unfold finditer. apply flat_map_ext_in. intros [c|m] Hm; [reflexivity|].
    cbn [phone_piece_of_event phone_piece_text]. now apply phone_hit_groups in Hm.
  - rewrite mask_phone_eq. f_equal. rewrite flat_map_map.
    apply flat_map_ext. intros [c|m]; [reflexivity|].
    cbn [render phone_piece_of_event phone_piece_masked].
    unfold expand, phone_mask_template. cbn [flat_map]. rewrite app_nil_r.
    reflexivity.
  - apply Forall_forall. intros k Hk. apply in_map_iff in Hk as ([c|m] & <- & Hm).
    + exact I.
    + now apply phone_hit_groups in Hm.
Qed.

(** ** Dates in a text, found *)

Lemma word_is_not_digit c : uni_isword c = false -> uni_isdigit c = false.
Proof.
  intros H. destruct (uni_isdigit c) eqn:E; [|reflexivity].
  apply digit_is_word in E. congruence.
Qed.

Lemma sep_is_not_digit s : In s ["-"; "/"] -> in_set false [SCat CatDigit] s = false.
Proof. intros [<-|[<-|[]]]; reflexivity. Qed.

Lemma sep_in_set s : In s ["-"; "/"] -> in_set false [SChar "-"; SChar "/"] s = true.
Proof. intros [<-|[<-|[]]]; reflexivity. Qed.

(** No date begins with a character that is no digit. *)
Lemma date_first_match_none p text :
  stops uni_isdigit text ->
  first_match date_re false false (MState p text []) = None.
Proof.
  intros H. rewrite first_match_hd. unfold date_re, digit_set. cbn [ms].
  destruct (at_boundary (MState p text [])); cbn [guard flat_map]; [|reflexivity].
  rewrite app_nil_r. rewrite <- (app_nil_l text).
  rewrite rep_step_short; [reflexivity|constructor| |simpl; lia].
  eapply stops_ext; [|exact H]. intros c. symmetry. apply in_set_digit.
Qed.

Lemma date_scan_plain pre : forall p rest,
  (forall c, In c pre -> uni_isdigit c = false) ->
  scan date_re p (pre ++ rest) 0 =
  map Copy pre ++ scan date_re (prev_after p pre) rest 0.
Proof.
  induction pre as [|c pre IH]; intros p rest H; [reflexivity|].
  cbn [app map]. rewrite scan_nomatch.
  - f_equal. apply IH. intros x Hx. apply H. now right.
  - apply date_first_match_none. simpl. apply H. now left.
Qed.

Lemma date_scan_behind post p p' :
  stops uni_isword post -> scan date_re p post 0 = scan date_re p' post 0.
Proof.
  intros H. destruct post as [|c t].
  - rewrite !scan_nil_nomatch; [reflexivity| |]; now apply date_first_match_none.
  - simpl in H. apply word_is_not_digit in H.
    rewrite !scan_nomatch; [reflexivity| |]; now apply date_first_match_none.
Qed.

(** The first match at the head of a date that a character which is no word
    character follows, or nothing. *)
Lemma date_hd d1 s1 d2 s2 y post p :
  word_at p = false ->
  all_pass uni_isdigit d1 -> 1 <= length d1 <= 2 -> In s1 ["-"; "/"] ->
  all_pass uni_isdigit d2 -> 1 <= length d2 <= 2 -> In s2 ["-"; "/"] ->
  all_pass uni_isdigit y -> length y = 4 ->
  stops uni_isword post ->
  hd_error (ms date_re (MState p (d1 ++ s1 :: d2 ++ s2 :: y ++ post) []))
  = Some (MState (prev_after (Some s2) y) post []).
Proof.
  intros Hp P1 L1 S1 P2 L2 S2 Py Ly Hpost.
  apply all_digits_in_set in P1, P2, Py.
  unfold date_re, digit_set, sep_set.
  change (ms (Seq ?a ?b) ?st) with (flat_map (ms b) (ms a st)) at 1.
  change (ms Wordb ?st) with (guard (at_boundary st) st).
  assert (B0 : at_boundary (MState p (d1 ++ s1 :: d2 ++ s2 :: y ++ post) []) = true).
  { unfold at_boundary. cbn [prev right]. rewrite Hp.
    destruct d1 as [|c d1]; [simpl in L1; lia|]. cbn [app hd_error word_at xorb].
    inversion P1 as [|? ? Hc _]; subst. rewrite in_set_digit in Hc.
    now apply digit_is_word. }
  rewrite B0. cbn [guard flat_map]. rewrite app_nil_r.
  change (ms (Seq ?a ?b) ?st) with (flat_map (ms b) (ms a st)) at 1.
  apply hd_error_flat_map
    with (x := MState (prev_after p d1) (s1 :: d2 ++ s2 :: y ++ post) []).
  { cbn [ms rep_bound]. apply rep_step_hd; [exact P1| |lia].
    simpl. now apply sep_is_not_digit. }
  change (ms (Seq ?a ?b) ?st) with (flat_map (ms b) (ms a st)) at 1.
  apply hd_error_flat_map with (x := MState (Some s1) (d2 ++ s2 :: y ++ post) []).
  { cbn [ms]. unfold step. cbn [right caps]. now rewrite (sep_in_set _ S1). }
  change (ms (Seq ?a ?b) ?st) with (flat_map (ms b) (ms a st)) at 1.
  apply hd_error_flat_map
    with (x := MState (prev_after (Some s1) d2) (s2 :: y ++ post) []).
  { cbn [ms rep_bound]. apply rep_step_hd; [exact P2| |lia].
    simpl. now apply sep_is_not_digit. }
  change (ms (Seq ?a ?b) ?st) with (flat_map (ms b) (ms a st)) at 1.
  apply hd_error_flat_map with (x := MState (Some s2) (y ++ post) []).
  { cbn [ms]. unfold step. cbn [right caps]. now rewrite (sep_in_set _ S2). }
  change (ms (Seq ?a ?b) ?st) with (flat_map (ms b) (ms a st)) at 1.
  apply hd_error_flat_map with (x := MState (prev_after (Some s2) y) post []).
  { cbn [ms rep_bound]. apply rep_step_full; [exact Py|exact Ly|lia]. }
  cbn [ms]. unfold at_boundary. cbn [prev right].
  destruct (prev_after_last _ y (Some s2) Py) as (c & Ec & Hc).
  { intros ->. discriminate Ly. }
  rewrite Ec. cbn [word_at]. rewrite in_set_digit in Hc.
  rewrite (digit_is_word _ Hc).
  assert (Hn : word_at (hd_error post) = false).
  { destruct post as [|x post]; [reflexivity|exact Hpost]. }
  rewrite Hn. reflexivity.
Qed.

(** X20: a date that stands alone is found: one or two digits, a separator, one
    or two digits, a separator and four digits, behind a text without digit
    that does not end with a word character, and before a text that does not
    begin with one.  The date is the first item of the result, and the text
    behind it gives the other items. *)
Theorem extract_dates_finds_a_date :
  forall (pre d1 : str) (s1 : ascii) (d2 : str) (s2 : ascii) (y post : str),
    (forall c, In c pre -> uni_isdigit c = false) ->
    word_at (prev_after None pre) = false ->
    all_pass uni_isdigit d1 -> 1 <= length d1 <= 2 -> In s1 ["-"; "/"] ->
    all_pass uni_isdigit d2 -> 1 <= length d2 <= 2 -> In s2 ["-"; "/"] ->
    all_pass uni_isdigit y -> length y = 4 ->
    stops uni_isword post ->
    exists l,
      RegexExtractor.extract_dates post = Some l
      /\ RegexExtractor.extract_dates (pre ++ (d1 ++ s1 :: d2 ++ s2 :: y) ++ post)
         = Some ((d1 ++ s1 :: d2 ++ s2 :: y) :: l).
Proof.
  intros pre d1 s1 d2 s2 y post Hpre Hp P1 L1 S1 P2 L2 S2 Py Ly Hpost.
  rewrite !extract_dates_eq. eexists. split; [reflexivity|]. f_equal.
  rewrite !findall_whole by reflexivity. unfold finditer.
  rewrite date_scan_plain by exact Hpre.
  rewrite hits_app, map_app.
  assert (E0 : hits (map Copy pre) = []) by (clear; induction pre; auto).
  rewrite E0. cbn [map app].
  assert (F : first_match date_re false false
                (MState (prev_after None pre)
                        ((d1 ++ s1 :: d2 ++ s2 :: y) ++ post) [])
              = Some (MState (prev_after (Some s2) y) post [])).
  { rewrite first_match_hd.
    replace ((d1 ++ s1 :: d2 ++ s2 :: y) ++ post)
      with (d1 ++ s1 :: d2 ++ s2 :: y ++ post)
      by (rewrite <- !app_assoc; cbn [app]; now rewrite <- !app_assoc).
    now apply date_hd. }
  rewrite (@scan_hit _ _ _ _ (d1 ++ s1 :: d2 ++ s2 :: y) F).
  - cbn [hits map whole prev right]. f_equal. f_equal. f_equal.
    now apply date_scan_behind.
  - split; cbn [right prev]; [reflexivity|].
    now rewrite prev_after_app, prev_after_cons, prev_after_app, prev_after_cons.
  - destruct d1; [simpl in L1; lia|discriminate].
Qed.

Lemma extract_dates_finds_a_date_witness :
  exists l,
    RegexExtractor.extract_dates (lit " dan 20/12/2024") = Some l
    /\ RegexExtractor.extract_dates
         (lit "Event tanggal: " ++ (lit "15" ++ "-" :: lit "08" ++ "-" :: lit "2024")
            ++ lit " dan 20/12/2024")
       = Some ((lit "15" ++ "-" :: lit "08" ++ "-" :: lit "2024") :: l).
Proof.
  apply (extract_dates_finds_a_date (lit "Event tanggal: ") (lit "15") "-"
           (lit "08") "-" (lit "2024") (lit " dan 20/12/2024")).
  - intros c Hc. simpl in Hc.
    repeat (destruct Hc as [<-|Hc]; [reflexivity|]). destruct Hc.
  - reflexivity.
  - repeat constructor.
  - simpl. lia.
  - simpl. tauto.
  - repeat constructor.
  - simpl. lia.
  - simpl. tauto.
  - repeat constructor.
  - reflexivity.
  - reflexivity.
Defined.

(** ** An address, masked *)

Lemma split_at_unique (c : ascii) l : forall l' x x',
  ~ In c l -> ~ In c l' -> l ++ c :: x = l' ++ c :: x' -> l = l' /\ x = x'.
Proof.
  induction l as [|a l IH]; intros [|a' l'] x x' H H' E; simpl in *.
  - injection E as ->. auto.
  - injection E as <- _. tauto.
  - injection E as -> _. tauto.
  - injection E as -> E. apply IH in E as [-> ->]; tauto.
Qed.

Lemma email_mask_end p :
  first_match email_mask_re false false (MState p [] []) = None.
Proof.
  rewrite first_match_hd. unfold email_mask_re. cbn [ms].
  destruct (at_boundary (MState p [] [])); reflexivity.
Qed.

(** X21: an address that [validate_email] accepts, that begins with a word
    character and does not end with a line feed, is masked as a whole: the
    text before the sign, three asterisks, the sign and the text behind
    it. *)
Theorem mask_email_masks_a_valid_address :
  forall s : str,
    RegexValidator.validate_email s = Some true ->
    ends_with_newline s = false ->
    word_at (hd_error s) = true ->
    exists l d,
      s = l ++ "@" :: d /\ ~ In "@" l
      /\ RegexReplacer.mask_email s = Some (l ++ lit "***@" ++ d).
Proof.
  intros s Hv Hn Hw. rewrite validate_email_eq in Hv. injection Hv as Hv.
  destruct (email_decompose s Hn Hv) as (l & dd & t & -> & Pl & Ll & Pd & Ld & Pt & Lt).
  exists l, (dd ++ "." :: t).
  assert (Hl : ~ In "@" l) by (eapply all_pass_not_in; [exact Pl|reflexivity]).
  split; [reflexivity|]. split; [exact Hl|].
  rewrite mask_email_eq. f_equal. unfold finditer.
  set (s := l ++ "@" :: dd ++ "." :: t) in *.
  pose proof (email_hd l dd t Hw Pl Ll Pd Ld Pt Lt) as F0.
  fold s in F0. rewrite <- first_match_hd in F0.
  change email_re with (flatten email_mask_re) in F0.
  rewrite first_match_flatten in F0.
  destruct (first_match email_mask_re false false (MState None s [])) as [st'|] eqn:F;
    [|discriminate F0].
  cbn [option_map] in F0. injection F0 as Ep Er.
  pose proof (first_match_in _ _ _ _ _ F) as Hi.
  apply email_mask_groups in Hi as (l' & d' & Hc & Hg & Hl' & _); [|reflexivity].
  unfold consumed in Hc. rewrite Er in Hc. cbn [right length] in Hc.
  rewrite Nat.sub_0_r, firstn_all in Hc.
  apply split_at_unique in Hc as [<- <-]; [|exact Hl|exact Hl'].
  assert (R : reaches (MState None s []) st' s).
  { split; cbn [right prev]; [rewrite Er; now rewrite app_nil_r|].
    rewrite Ep. unfold s.
    now rewrite prev_after_app, prev_after_cons, prev_after_app, prev_after_cons. }
  rewrite (scan_hit _ _ _ _ s F R).
  - rewrite Er. rewrite scan_nil_nomatch by apply email_mask_end.
    cbn [flat_map render]. unfold expand, email_mask_template.
    cbn [flat_map group groups]. rewrite Hg. cbn [lookup Nat.eqb].
    rewrite !app_nil_r. reflexivity.
  - unfold s. destruct l; [simpl in Ll; lia|discriminate].
Qed.

Lemma mask_email_masks_a_valid_address_witness :
  exists l d,
    lit "user@gmail.com" = l ++ "@" :: d /\ ~ In "@" l
    /\ RegexReplacer.mask_email (lit "user@gmail.com") = Some (l ++ lit "***@" ++ d).
Proof.
  apply (mask_email_masks_a_valid_address (lit "user@gmail.com")); reflexivity.
Defined.

(** ** Texts without the characters an operation looks for *)

(** When every match of a pattern holds a character of some kind, nothing is
    found in a text without such a character. *)
Lemma no_hits r (kind : ascii -> bool) text :
  (forall st st', In st' (ms r st) ->
                  exists c, In c (consumed st st') /\ kind c = true) ->
  (forall c, In c text -> kind c = false) ->
  hits (finditer r text) = [].
Proof.
  intros Hr Ht. destruct (hits (finditer r text)) as [|m l] eqn:E; [reflexivity|].
  exfalso. assert (Hm : In m (hits (finditer r text))) by (rewrite E; now left).
  unfold finditer in Hm.
  apply scan_hits_inv in Hm as (pre & post & st' & -> & Hi & _).
  destruct (Hr _ _ Hi) as (c & Hc & Hk).
  destruct (ms_reaches _ _ _ Hi) as [w R].
  rewrite (reaches_consumed _ _ _ R) in Hc. destruct R as [R _]. cbn [right] in R.
  rewrite (Ht c) in Hk; [discriminate|].
  apply in_or_app. right. rewrite R. apply in_or_app. now left.
Qed.

Lemma no_hits_findall r text :
  hits (finditer r text) = [] -> pat_findall r text = [].
Proof. unfold pat_findall. now intros ->. Qed.

Lemma no_hits_sub r text tmpl :
  hits (finditer r text) = [] -> flat_map (render tmpl) (finditer r text) = text.
Proof. intros H. now apply scan_no_hits. Qed.

Lemma in_middle {A} (c : A) l x : In c (l ++ c :: x).
Proof. apply in_or_app. right. now left. Qed.

Lemma email_has_sign st st' :
  In st' (ms email_re st) ->
  exists c, In c (consumed st st') /\ Ascii.eqb c "@" = true.
Proof.
  intros H. apply email_match_shape in H as (l & dd & t & R & _).
  rewrite (reaches_consumed _ _ _ R). exists "@". split; [apply in_middle|reflexivity].
Qed.

Lemma email_mask_has_sign st st' :
  In st' (ms email_mask_re st) ->
  exists c, In c (consumed st st') /\ Ascii.eqb c "@" = true.
Proof.
  intros H.
  assert (Hf : In (nocaps st') (ms email_re (nocaps st))).
  { change email_re with (flatten email_mask_re). rewrite <- ms_flatten.
    now apply in_map. }
  apply email_has_sign in Hf. exact Hf.
Qed.

Lemma tag_has_sign c0 st st' :
  In st' (ms (tag_re c0) st) ->
  exists c, In c (consumed st st') /\ Ascii.eqb c c0 = true.
Proof.
  intros H. apply tag_match_shape in H as (w & R & _).
  rewrite (reaches_consumed _ _ _ R). exists c0.
  split; [now left|apply Ascii.eqb_refl].
Qed.

Lemma date_has_digit st st' :
  In st' (ms date_re st) ->
  exists c, In c (consumed st st') /\ uni_isdigit c = true.
Proof.
  intros H. apply date_match_shape in H
    as (d1 & s1 & d2 & s2 & y & R & P1 & L1 & _).
  rewrite (reaches_consumed _ _ _ R).
  destruct d1 as [|c d1]; [simpl in L1; lia|]. exists c.
  split; [now left|]. now inversion P1.
Qed.

Lemma phone_has_digit st st' :
  In st' (ms phone_re st) ->
  exists c, In c (consumed st st') /\ uni_isdigit c = true.
Proof.
  unfold phone_re, digit_range. intros H.
  apply in_seq_inv in H as (y1 & H1 & H).
  cbn [ms] in H1. apply in_map_iff in H1 as (z1 & <- & H1).
  apply phone_prefix_in in H1 as (pf & _ & R1 & _).
  apply in_seq_inv in H as (y2 & H2 & H).
  cbn [ms rep_bound] in H2.
  apply rep_step_in in H2 as (ds & R2 & P2 & L2 & _ & _).
  destruct H as [<-|[]]. apply reaches_from_group in R2.
  rewrite (reaches_consumed _ _ _ (reaches_trans _ _ _ _ _ R1 R2)).
  destruct ds as [|c ds]; [simpl in L2; lia|]. exists c.
  split; [apply in_middle|]. inversion P2 as [|? ? Hc _]; subst.
  now rewrite in_set_digit_range in Hc.
Qed.

Lemma phone_mask_has_digit st st' :
  In st' (ms phone_mask_re st) ->
  exists c, In c (consumed st st') /\ uni_isdigit c = true.
Proof.
  intros H.
  apply phone_mask_groups in H as (pf & a & b & Hc & _ & _ & Pa & La & _).
  rewrite Hc. destruct a as [|c a]; [simpl in La; lia|]. exists c.
  split; [apply in_middle|]. now inversion Pa.
Qed.

Lemma url_has_colon st st' :
  In st' (ms url_re st) ->
  exists c, In c (consumed st st') /\ Ascii.eqb c ":" = true.
Proof.
  unfold url_re. intros H.
  apply url_shape in H
    as (scheme & www & h & d & q & mid & Hs & _ & _ & _ & _ & _ & _ & R & _ & H).
  destruct H as [<-|[]]. rewrite (reaches_consumed _ _ _ R).
  exists ":". split; [|reflexivity]. apply in_or_app. left.
  destruct Hs as [<-|[<-|[]]]; simpl; tauto.
Qed.

Lemma not_in_eqb (c0 : ascii) text :
  ~ In c0 text -> forall c, In c text -> Ascii.eqb c c0 = false.
Proof.
  intros H c Hc. destruct (Ascii.eqb c c0) eqn:E; [|reflexivity].
  apply Ascii.eqb_eq in E. subst c. contradiction.
Qed.

(** X22: without the character an operation looks for, nothing is found and
    nothing is changed: without the sign [@], no address and no mention, and
    [mask_email] returns the text; without the sign [#], no hashtag; without
    a colon, no URL; without a digit, no phone number and no date, and
    [mask_phone] returns the text. *)
Theorem operations_need_their_characters :
  forall text : str,
    (~ In "@" text ->
     RegexExtractor.extract_emails text = Some []
     /\ RegexExtractor.extract_mentions text = Some []
     /\ RegexReplacer.mask_email text = Some text)
    /\ (~ In "#" text -> RegexExtractor.extract_hashtags text = Some [])
    /\ (~ In ":" text -> RegexExtractor.extract_urls text = Some [])
    /\ ((forall c, In c text -> uni_isdigit c = false) ->
        RegexExtractor.extract_phone_numbers text = Some []
        /\ RegexExtractor.extract_dates text = Some []
        /\ RegexReplacer.mask_phone text = Some text).
Proof.
  intros text. split; [|split; [|split]].
  - intros H. pose proof (not_in_eqb _ _ H) as Hk.
    rewrite extract_emails_eq, extract_mentions_eq, mask_email_eq.
    split; [|split]; f_equal.
    + apply no_hits_findall. exact (no_hits _ _ _ email_has_sign Hk).
    + apply no_hits_findall. exact (no_hits _ _ _ (tag_has_sign "@") Hk).
    + apply no_hits_sub. exact (no_hits _ _ _ email_mask_has_sign Hk).
  - intros H. pose proof (not_in_eqb _ _ H) as Hk.
    rewrite extract_hashtags_eq. f_equal.
    apply no_hits_findall. exact (no_hits _ _ _ (tag_has_sign "#") Hk).
  - intros H. pose proof (not_in_eqb _ _ H) as Hk.
    rewrite extract_urls_eq. f_equal.
    apply no_hits_findall. exact (no_hits _ _ _ url_has_colon Hk).
  - intros Hk.
    rewrite extract_phone_numbers_eq, extract_dates_eq, mask_phone_eq.
    split; [|split]; f_equal.
    + apply no_hits_findall. exact (no_hits _ _ _ phone_has_digit Hk).
    + apply no_hits_findall. exact (no_hits _ _ _ date_has_digit Hk).
    + apply no_hits_sub. exact (no_hits _ _ _ phone_mask_has_digit Hk).
Qed.

Lemma operations_need_their_characters_witness :
  RegexExtractor.extract_emails (lit "Hubungi kami: #Python") = Some []
  /\ RegexExtractor.extract_mentions (lit "Hubungi kami: #Python") = Some []
  /\ RegexReplacer.mask_email (lit "Hubungi kami: #Python")
     = Some (lit "Hubungi kami: #Python").
Proof.
  apply (proj1 (operations_need_their_characters (lit "Hubungi kami: #Python"))).
  simpl. intuition discriminate.
Defined.

(** ** Addresses in a text, found *)

Lemma not_word_not_letter rest : stops uni_isword rest -> stops letter_test rest.
Proof.
  destruct rest as [|c rest]; simpl; [auto|]. intros H.
  destruct (letter_test c) eqn:E; [|reflexivity].
  apply letter_is_word in E. congruence.
Qed.

Lemma email_x_tail_hd t rest p cs :
  all_pass letter_test t -> 2 <= length t -> stops uni_isword rest ->
  hd_error (ms (Seq (Lit ".") (Seq (Rep 2 None letter_set) (Seq Wordb Eps)))
               (MState p ("." :: t ++ rest) cs))
  = Some (MState (prev_after (Some ".") t) rest cs).
Proof.
  intros Pt Lt Hr. unfold letter_set. cbn [ms]. unfold step at 2.
  cbn [right caps]. change (Ascii.eqb "." ".") with true. cbv iota.
  cbn [flat_map]. rewrite app_nil_r.
  apply hd_error_flat_map with (x := MState (prev_after (Some ".") t) rest cs).
  - apply rep_step_hd; [exact Pt|now apply not_word_not_letter|].
    unfold rep_bound. cbn [right]. rewrite length_app. lia.
  - destruct (prev_after_last letter_test t (Some ".") Pt) as (c & Ec & Hc).
    { destruct t; [simpl in Lt; lia|discriminate]. }
    unfold at_boundary. cbn [prev right]. rewrite Ec. cbn [word_at].
    rewrite (letter_is_word _ Hc).
    assert (Hn : word_at (hd_error rest) = false).
    { destruct rest as [|x rest]; [reflexivity|exact Hr]. }
    rewrite Hn. reflexivity.
Qed.

Lemma email_x_tail_fail b rest p cs :
  all_pass letter_test b -> stops domain_test rest ->
  ms (Seq (Lit ".") (Seq (Rep 2 None letter_set) (Seq Wordb Eps)))
     (MState p (b ++ rest) cs) = [].
Proof.
  intros Pb Hr. cbn [ms]. unfold step. cbn [right].
  destruct b as [|c b].
  - destruct rest as [|x rest]; [reflexivity|]. cbn [app]. simpl in Hr.
    destruct (Ascii.eqb "." x) eqn:E; [|reflexivity].
    apply Ascii.eqb_eq in E. subst x. discriminate Hr.
  - inversion Pb as [|? ? Hc _]; subst. cbn [app].
    now rewrite (letter_not_dot _ Hc).
Qed.

Lemma email_x_domain_hd dd t rest p cs :
  all_pass domain_test dd -> 1 <= length dd ->
  all_pass letter_test t -> 2 <= length t ->
  stops domain_test rest -> stops uni_isword rest ->
  hd_error
    (ms (Seq (Rep 1 None domain_set)
          (Seq (Lit ".") (Seq (Rep 2 None letter_set) (Seq Wordb Eps))))
        (MState p ((dd ++ "." :: t) ++ rest) cs))
  = Some (MState (prev_after (Some ".") t) rest cs).
Proof.
  intros Pd Ld Pt Lt Hr Hw.
  change (ms (Seq ?a ?b) ?st) with (flat_map (ms b) (ms a st)) at 1.
  unfold domain_set at 1. cbn [ms rep_bound right].
  assert (Pw : all_pass domain_test (dd ++ "." :: t)).
  { apply Forall_app. split; [exact Pd|]. constructor; [reflexivity|].
    eapply Forall_impl; [|exact Pt]. apply letter_is_domain. }
  apply (rep_step_first_greedy domain_test _ rest cs _ (dd ++ "." :: t) p 1 _
           dd ("." :: t)); auto.
  - rewrite !length_app. lia.
  - intros a b E Hl.
    apply app_split_longer in E as (m & _ & E & Hm); [|exact Hl].
    destruct m as [|x m]; [congruence|]. injection E as _ E.
    apply email_x_tail_fail; [|exact Hr].
    rewrite E in Pt. eapply all_pass_suffix; eauto.
  - now apply email_x_tail_hd.
Qed.

Lemma email_x_hd l dd t rest p :
  word_at p = false -> word_at (hd_error l) = true ->
  all_pass local_test l -> 1 <= length l ->
  all_pass domain_test dd -> 1 <= length dd ->
  all_pass letter_test t -> 2 <= length t ->
  stops domain_test rest -> stops uni_isword rest ->
  hd_error (ms email_re (MState p ((l ++ "@" :: dd ++ "." :: t) ++ rest) []))
  = Some (MState (prev_after (Some ".") t) rest []).
Proof.
  intros Hp Hw Pl Ll Pd Ld Pt Lt Hr Hrw. unfold email_re.
  change (ms (Seq ?a ?b) ?st) with (flat_map (ms b) (ms a st)) at 1.
  change (ms Wordb ?st) with (guard (at_boundary st) st).
  assert (B : at_boundary (MState p ((l ++ "@" :: dd ++ "." :: t) ++ rest) []) = true).
  { unfold at_boundary. cbn [prev right]. rewrite Hp.
    destruct l as [|c l]; [simpl in Ll; lia|]. exact Hw. }
  rewrite B. cbn [guard flat_map]. rewrite app_nil_r.
  change (ms (Seq ?a ?b) ?st) with (flat_map (ms b) (ms a st)) at 1.
  rewrite <- app_assoc. cbn [app].
  apply hd_error_flat_map
    with (x := MState (prev_after p l) ("@" :: (dd ++ "." :: t) ++ rest) []).
  - unfold local_set. cbn [ms]. apply (rep_step_hd local_test); auto.
    + reflexivity.
    + unfold rep_bound. cbn [right]. rewrite length_app. lia.
  - change (ms (Seq ?a ?b) ?st) with (flat_map (ms b) (ms a st)) at 1.
    change (ms (Lit ?c) ?st) with (step (Ascii.eqb c) st).
    unfold step. cbn [right caps].
    change (Ascii.eqb "@" "@") with true. cbv iota.
    cbn [flat_map]. rewrite app_nil_r. now apply email_x_domain_hd.
Qed.

(** No address begins with a character that is foreign to the local part. *)
Lemma email_first_match_none p text :
  stops local_test text ->
  first_match email_re false false (MState p text []) = None.
Proof.
  intros H. rewrite first_match_hd. unfold email_re, local_set. cbn [ms].
  destruct (at_boundary (MState p text [])); cbn [guard flat_map]; [|reflexivity].
  rewrite app_nil_r. rewrite <- (app_nil_l text).
  rewrite rep_step_short; [reflexivity|constructor|exact H|simpl; lia].
Qed.

Lemma email_scan_plain pre : forall p rest,
  (forall c, In c pre -> local_test c = false) ->
  scan email_re p (pre ++ rest) 0 =
  map Copy pre ++ scan email_re (prev_after p pre) rest 0.
Proof.
  induction pre as [|c pre IH]; intros p rest H; [reflexivity|].
  cbn [app map]. rewrite scan_nomatch.
  - f_equal. apply IH. intros x Hx. apply H. now right.
  - apply email_first_match_none. simpl. apply H. now left.
Qed.

Lemma email_scan_behind post p p' :
  stops local_test post -> scan email_re p post 0 = scan email_re p' post 0.
Proof.
  intros H. destruct post as [|c t].
  - rewrite !scan_nil_nomatch; [reflexivity| |]; now apply email_first_match_none.
  - rewrite !scan_nomatch; [reflexivity| |]; now apply email_first_match_none.
Qed.

Lemma not_local_not_domain rest : stops local_test rest -> stops domain_test rest.
Proof.
  destruct rest as [|c rest]; simpl; [auto|]. intros H.
  destruct (domain_test c) eqn:E; [|reflexivity]. exfalso. revert H E.
  destruct c as [[] [] [] [] [] [] [] []]; vm_compute; congruence.
Qed.

(** X23: an address that stands alone is found: a local part that begins
    with a word character, the sign, a domain, a dot and two letters or
    more, behind a text that holds no character of the local part and does
    not end with a word character, and before a text that begins neither
    with a character of the local part nor with a word character.  The
    address is the first item of the result, and the text behind it gives
    the other items. *)
Theorem extract_emails_finds_an_address :
  forall pre l dd t post : str,
    (forall c, In c pre -> local_test c = false) ->
    word_at (prev_after None pre) = false ->
    word_at (hd_error l) = true ->
    all_pass local_test l -> 1 <= length l ->
    all_pass domain_test dd -> 1 <= length dd ->
    all_pass letter_test t -> 2 <= length t ->
    stops local_test post -> stops uni_isword post ->
    exists r,
      RegexExtractor.extract_emails post = Some r
      /\ RegexExtractor.extract_emails (pre ++ (l ++ "@" :: dd ++ "." :: t) ++ post)
         = Some ((l ++ "@" :: dd ++ "." :: t) :: r).
Proof.
  intros pre l dd t post Hpre Hp Hw Pl Ll Pd Ld Pt Lt Hpost Hpw.
  rewrite !extract_emails_eq. eexists. split; [reflexivity|]. f_equal.
  rewrite !findall_whole by reflexivity. unfold finditer.
  rewrite email_scan_plain by exact Hpre.
  rewrite hits_app, map_app.
  assert (E0 : hits (map Copy pre) = []) by (clear; induction pre; auto).
  rewrite E0. cbn [map app].
  assert (F : first_match email_re false false
                (MState (prev_after None pre)
                        ((l ++ "@" :: dd ++ "." :: t) ++ post) [])
              = Some (MState (prev_after (Some ".") t) post [])).
  { rewrite first_match_hd. apply email_x_hd; auto.
    now apply not_local_not_domain. }
  rewrite (@scan_hit _ _ _ _ (l ++ "@" :: dd ++ "." :: t) F).
  - cbn [hits map whole prev right]. f_equal. f_equal. f_equal.
    now apply email_scan_behind.
  - split; cbn [right prev]; [reflexivity|].
    now rewrite prev_after_app, prev_after_cons, prev_after_app, prev_after_cons.
  - destruct l; [simpl in Ll; lia|discriminate].
Qed.

Lemma extract_emails_finds_an_address_witness :
  exists r,
    RegexExtractor.extract_emails (lit " atau support@company.co.id") = Some r
    /\ RegexExtractor.extract_emails
         (lit ": " ++ (lit "info" ++ "@" :: lit "company" ++ "." :: lit "com")
            ++ lit " atau support@company.co.id")
       = Some ((lit "info" ++ "@" :: lit "company" ++ "." :: lit "com") :: r).
Proof.
  apply (extract_emails_finds_an_address (lit ": ") (lit "info") (lit "company")
           (lit "com") (lit " atau support@company.co.id")).
  - intros c Hc. simpl in Hc.
    repeat (destruct Hc as [<-|Hc]; [reflexivity|]). destruct Hc.
  - reflexivity.
  - reflexivity.
  - repeat constructor.
  - simpl. lia.
  - repeat constructor.
  - simpl. lia.
  - repeat constructor.
  - simpl. lia.
  - reflexivity.
  - reflexivity.
Defined.

(** ** An accepted number, extracted *)

Lemma phone_scan_tail rest p :
  rest = [] \/ rest = [nl] -> hits (scan phone_re p rest 0) = [].
Proof. intros [->| ->]; reflexivity. Qed.

(** X24: of a phone number that [validate_phone_id] accepts,
    [extract_phone_numbers] returns the prefix and nothing else: the one
    item of the result is [+62], [62] or [0], the one the number begins
    with. *)
Theorem extract_phone_numbers_of_a_valid_number :
  forall s : str,
    RegexValidator.validate_phone_id s = Some true ->
    exists prefix rest,
      In prefix phone_prefixes /\ s = prefix ++ rest
      /\ RegexExtractor.extract_phone_numbers s = Some [prefix].
Proof.
  intros s Hv. rewrite validate_phone_id_eq in Hv. injection Hv as Hv.
  apply accepts_iff in Hv as [z H].
  apply phone_v_shape in H as (prefix & ds & rest & Hp & Pd & Ld & Hr & ->).
  exists prefix, (ds ++ rest). split; [exact Hp|]. split; [reflexivity|].
  rewrite extract_phone_numbers_eq. f_equal. unfold pat_findall, finditer.
  assert (F : first_match phone_re false false (MState None (prefix ++ ds ++ rest) [])
              = Some (MState (prev_after (prev_after None prefix) ds) rest
                             [(1, prefix)])).
  { rewrite first_match_hd. unfold phone_re.
    change (ms (Seq ?a ?b) ?st) with (flat_map (ms b) (ms a st)) at 1.
    rewrite (phone_group_one _ _ _ _ Hp). cbn [flat_map]. rewrite app_nil_r.
    unfold digit_range. cbn [ms rep_bound]. rewrite flat_map_unit.
    apply rep_step_hd.
    - eapply all_pass_ext; [|exact Pd]. intros c. symmetry.
      apply in_set_digit_range.
    - now apply stops_tail.
    - lia. }
  rewrite (@scan_hit _ _ _ _ (prefix ++ ds) F).
  - cbn [hits map prev right caps]. rewrite (phone_scan_tail _ _ Hr).
    reflexivity.
  - split; cbn [right prev]; [now rewrite <- app_assoc|].
    now rewrite prev_after_app.
  - destruct Hp as [<-|[<-|[<-|[]]]]; discriminate.
Qed.

Lemma extract_phone_numbers_of_a_valid_number_witness :
  exists prefix rest,
    In prefix phone_prefixes /\ lit "+6281234567890" = prefix ++ rest
    /\ RegexExtractor.extract_phone_numbers (lit "+6281234567890") = Some [prefix].
Proof.
  apply (extract_phone_numbers_of_a_valid_number (lit "+6281234567890")).
  reflexivity.
Defined.
